(** * The license admission store (internal/store/bbolt_store.go)

    A shallow embedding of the bbolt-backed license store: the License
    registry, the per-license binding ledger and the Activate admission
    procedure, together with the pieces of the Go standard library the
    store calls ([strings.TrimSpace], [sort.Slice], base32) and the key
    generator of internal/license.

    Modelling conventions.
    - A Go [string] is a sequence of bytes: Rocq's [string] of 8-bit
      [ascii].  [len(s)] is [String.length].
    - A Go [int] is a 64-bit two's complement integer: a [Z] with the
      wrap-around [wrap_int] written at every [++].
    - A [time.Time] is an instant, counted in nanoseconds from the zero
      value of [time.Time]; [t.After(u)] is [u < t].  The clock reading
      [time.Now().UTC()] is an input of the operation that reads it.
    - A bbolt bucket is a finite map from byte-string keys; the usage
      bucket holds one nested bucket per license key.  Records are kept
      in buckets as their JSON documents; a bucket of the model holds,
      for each document, the record [json.Unmarshal] reads from it.
      Numbers, booleans and instants are read as they were written.  A
      string is read as it was written when it is well-formed UTF-8;
      each byte that is not comes back as U+FFFD ([json.round_trip]).
      A record that was read from a bucket is written back as it is:
      its strings are well-formed already.
    - [db.Update] runs one read-write transaction at a time and commits
      the closure's writes only when it returns a nil error.  Storage
      failures of the engine (I/O, oversized values) are outside the
      model; its argument checks on keys are inside. *)

From stdpp Require Import gmap strings list fin_maps sorting.
From Stdlib Require Import ZArith NArith Ascii String Lia.

Local Open Scope string_scope.
Local Open Scope Z_scope.

(* set_solver clears hypotheses by name and says so when one is gone. *)
#[local] Set Warnings "-clear-no-such-hyp".

(* ===================================================================== *)
(** ** Bytes and strings *)
(* ===================================================================== *)

Module Bytes.

(** The bytes of a string, as numbers below 256. *)
Fixpoint of_string (s : string) : list N :=
  match s with
  | EmptyString => []
  | String c r => N_of_ascii c :: of_string r
  end.

Fixpoint to_string (l : list N) : string :=
  match l with
  | [] => EmptyString
  | b :: r => String (ascii_of_N b) (to_string r)
  end.

End Bytes.

(* ===================================================================== *)
(** ** unicode/utf8 and strings.TrimSpace *)
(* ===================================================================== *)

Module Utf8.

Definition RuneError : N := 65533.   (* U+FFFD *)
Definition RuneSelf : N := 128.
Definition UTFMax : nat := 4.

(** Size and accepted range of the second byte for a leading byte, the
    [first] and [acceptRanges] tables of unicode/utf8; [None] is an
    invalid leading byte ([xx]).  ASCII is handled before the lookup. *)
Definition lead (b : N) : option (nat * N * N) :=
  if (b <? 194)%N then None
  else if (b <=? 223)%N then Some (2%nat, 128%N, 191%N)
  else if (b =? 224)%N then Some (3%nat, 160%N, 191%N)
  else if (b <=? 236)%N then Some (3%nat, 128%N, 191%N)
  else if (b =? 237)%N then Some (3%nat, 128%N, 159%N)
  else if (b <=? 239)%N then Some (3%nat, 128%N, 191%N)
  else if (b =? 240)%N then Some (4%nat, 144%N, 191%N)
  else if (b <=? 243)%N then Some (4%nat, 128%N, 191%N)
  else if (b =? 244)%N then Some (4%nat, 128%N, 143%N)
  else None.

Definition cont (b : N) : bool := (128 <=? b)%N && (b <=? 191)%N.

(** [utf8.DecodeRuneInString]: the first rune and its width in bytes. *)
Definition DecodeRune (s : list N) : N * nat :=
  match s with
  | [] => (RuneError, 0%nat)
  | s0 :: t =>
    if (s0 <? RuneSelf)%N then (s0, 1%nat)
    else match lead s0 with
    | None => (RuneError, 1%nat)
    | Some (sz, lo, hi) =>
      if (List.length s <? sz)%nat then (RuneError, 1%nat)
      else match t with
      | s1 :: t1 =>
        if (s1 <? lo)%N || (hi <? s1)%N then (RuneError, 1%nat)
        else if (sz <=? 2)%nat
        then (N.lor (N.shiftl (N.land s0 31) 6) (N.land s1 63), 2%nat)
        else match t1 with
        | s2 :: t2 =>
          if negb (cont s2) then (RuneError, 1%nat)
          else if (sz <=? 3)%nat
          then (N.lor (N.lor (N.shiftl (N.land s0 15) 12)
                             (N.shiftl (N.land s1 63) 6))
                      (N.land s2 63), 3%nat)
          else match t2 with
          | s3 :: _ =>
            if negb (cont s3) then (RuneError, 1%nat)
            else (N.lor (N.lor (N.lor (N.shiftl (N.land s0 7) 18)
                                      (N.shiftl (N.land s1 63) 12))
                               (N.shiftl (N.land s2 63) 6))
                        (N.land s3 63), 4%nat)
          | [] => (RuneError, 1%nat)
          end
        | [] => (RuneError, 1%nat)
        end
      | [] => (RuneError, 1%nat)
      end
    end
  end.

(** [utf8.RuneStart]: not a continuation byte. *)
Definition RuneStart (b : N) : bool := negb (N.land b 192 =? 128)%N.

(** The backwards search of [DecodeLastRuneInString]: from index
    [start], at most [n] more steps down, stop at a rune start. *)
Fixpoint back (s : list N) (start : nat) (n : nat) : nat :=
  match n with
  | O => start
  | S n' =>
    match s !! start with
    | Some b => if RuneStart b then start
                else match start with
                     | O => O
                     | S p => back s p n'
                     end
    | None => start
    end
  end.

(** [utf8.DecodeLastRuneInString]: the last rune and its width. *)
Definition DecodeLastRune (s : list N) : N * nat :=
  let e := List.length s in
  match e with
  | O => (RuneError, 0%nat)
  | S last =>
    match s !! last with
    | None => (RuneError, 0%nat)
    | Some r =>
      if (r <? RuneSelf)%N then (r, 1%nat)
      else
        let lim := (e - UTFMax)%nat in
        let start :=
          match last with
          | O => O
          | S p => back s p (p - lim + 1)
          end in
        let '(r', size) := DecodeRune (drop start s) in
        if (start + size =? e)%nat then (r', size) else (RuneError, 1%nat)
    end
  end.

(** [unicode.IsSpace]: the Latin-1 spaces and the White_Space table. *)
Definition IsSpace (r : N) : bool :=
  if (r <=? 255)%N then
    ((9 <=? r)%N && (r <=? 13)%N) || (r =? 32)%N || (r =? 133)%N || (r =? 160)%N
  else
    (r =? 5760)%N || ((8192 <=? r)%N && (r <=? 8202)%N)
    || (r =? 8232)%N || (r =? 8233)%N || (r =? 8239)%N || (r =? 8287)%N
    || (r =? 12288)%N.

(** [strings.TrimLeftFunc(s, unicode.IsSpace)]: skip runes while they
    are spaces.  Every step consumes a byte, so [length s] steps do. *)
Fixpoint trim_left (fuel : nat) (s : list N) : list N :=
  match fuel, s with
  | S f, _ :: _ =>
    let '(r, w) := DecodeRune s in
    if IsSpace r then trim_left f (drop w s) else s
  | _, _ => s
  end.

Definition TrimLeftSpace (s : list N) : list N := trim_left (List.length s) s.

(** [strings.TrimRightFunc(s, unicode.IsSpace)]: drop the last rune
    while it is a space. *)
Fixpoint trim_right (fuel : nat) (s : list N) : list N :=
  match fuel, s with
  | S f, _ :: _ =>
    let '(r, w) := DecodeLastRune s in
    if IsSpace r then trim_right f (take (List.length s - w) s) else s
  | _, _ => s
  end.

Definition TrimRightSpace (s : list N) : list N := trim_right (List.length s) s.

(** The [asciiSpace] table of package strings. *)
Definition asciiSpace (c : N) : bool :=
  (c =? 9)%N || (c =? 10)%N || (c =? 11)%N || (c =? 12)%N || (c =? 13)%N
  || (c =? 32)%N.

(** The second loop of [strings.TrimSpace], run on the reversed
    remainder: ASCII spaces are dropped from the end; a byte at or
    above [RuneSelf] hands over to [TrimRightFunc]. *)
Fixpoint trim_space_stop (rs : list N) : list N :=
  match rs with
  | [] => []
  | c :: rs' =>
    if (RuneSelf <=? c)%N then TrimRightSpace (rev rs)
    else if asciiSpace c then trim_space_stop rs'
    else rev rs
  end.

(** The first loop of [strings.TrimSpace]: ASCII spaces are dropped
    from the start; a byte at or above [RuneSelf] hands over to
    [TrimFunc], which trims left and then right. *)
Fixpoint trim_space_start (s : list N) : list N :=
  match s with
  | [] => []
  | c :: s' =>
    if (RuneSelf <=? c)%N then TrimRightSpace (TrimLeftSpace s)
    else if asciiSpace c then trim_space_start s'
    else trim_space_stop (rev s)
  end.

(** [utf8.RuneCountInString] on well-formed UTF-8: the characters of a
    string, one for every byte that starts a rune. *)
Definition RuneCount (s : list N) : nat :=
  List.length (List.filter RuneStart s).

End Utf8.

(** [strings.TrimSpace]. *)
Definition TrimSpace (s : string) : string :=
  Bytes.to_string (Utf8.trim_space_start (Bytes.of_string s)).

(** The number of characters (Unicode code points) of a UTF-8 string. *)
Definition char_count (s : string) : nat := Utf8.RuneCount (Bytes.of_string s).

(* ===================================================================== *)
(** ** Go integers, instants, errors *)
(* ===================================================================== *)

(** Go's [int] on the 64-bit platforms the service is built for. *)
Definition max_int : Z := 2 ^ 63 - 1.
Definition min_int : Z := - 2 ^ 63.

Definition wrap_int (z : Z) : Z := (z + 2 ^ 63) mod 2 ^ 64 - 2 ^ 63.

Definition is_int (z : Z) : Prop := min_int <= z <= max_int.

(** An instant; the zero [time.Time] is 0. *)
Definition Time : Type := Z.

Definition After (t u : Time) : bool := u <? t.

(** The error values the store returns: the package's [errNotFound], the
    [fmt.Errorf] messages, the argument errors of bbolt, and the failure
    of the random source behind [license.NewKey]. *)
Inductive error : Type :=
  | errNotFound
  | Errorf (msg : string)
  | ErrKeyRequired
  | ErrKeyTooLarge
  | ErrBucketNameRequired
  | ErrRandRead.

(** A Go result pair [(v, err)]: [Ok v] is [(v, nil)]. *)
Inductive result (A : Type) : Type :=
  | Ok (a : A)
  | Err (e : error).
Arguments Ok {A} a.
Arguments Err {A} e.

(** The error classes of the store contract, by the value returned. *)
Inductive error_class : Type := InvalidArgument | NotFound | Conflict | Internal.

Definition classify (e : error) : error_class :=
  match e with
  | errNotFound => NotFound
  | Errorf "limit must be > 0" => InvalidArgument
  | Errorf "key collision, try again" => Conflict
  | _ => Internal
  end.

(* ===================================================================== *)
(** ** The records of package store *)
(* ===================================================================== *)

(** Fields keep their Go names; [License] and [Used] of [LicenseInfo]
    and [Limit] of [ActivateResult] carry a prefix, since Rocq's field
    names are global. *)

Record License : Type := mkLicense {
  Key : string;
  Limit : Z;
  Note : string;
  Enabled : bool;
  CreatedAt : Time
}.

Record ServerBinding : Type := mkServerBinding {
  ServerID : string;
  FirstSeen : Time;
  LastSeen : Time;
  SeenCount : Z
}.

Record LicenseInfo : Type := mkLicenseInfo {
  InfoLicense : License;
  InfoUsed : Z;
  Bindings : list ServerBinding
}.

Record ActivateResult : Type := mkActivateResult {
  OK : bool;
  Reason : string;
  Used : Z;
  ResLimit : Z;
  NewlyBound : bool
}.

(* --------------------------------------------------------------------- *)
(** *** encoding/json on the stored records *)

Module json.

(** What [json.Unmarshal] reads of a string that [json.Marshal] wrote.
    The encoder walks the string rune by rune.  A byte below [RuneSelf]
    and a well-formed sequence are written so that the decoder gives
    them back.  A byte at which [utf8.DecodeRuneInString] answers
    [(RuneError, 1)] is written as the escape of U+FFFD, which the
    decoder reads as the three bytes EF BF BD.  [pending] counts the
    bytes of the current sequence still to be passed over. *)
Fixpoint round_trip_bytes (pending : nat) (s : list N) : list N :=
  match s with
  | [] => []
  | b :: t =>
    match pending with
    | S p => b :: round_trip_bytes p t
    | O =>
      if (b <? Utf8.RuneSelf)%N then b :: round_trip_bytes 0 t
      else
        let '(c, size) := Utf8.DecodeRune s in
        if (c =? Utf8.RuneError)%N && (size =? 1)%nat
        then 239%N :: 191%N :: 189%N :: round_trip_bytes 0 t
        else b :: round_trip_bytes (size - 1) t
    end
  end.

Definition round_trip (s : string) : string :=
  Bytes.to_string (round_trip_bytes 0 (Bytes.of_string s)).

(** The record read from the document of a [License]. *)
Definition License_round_trip (lic : License) : License :=
  mkLicense (round_trip (Key lic)) (Limit lic) (round_trip (Note lic))
            (Enabled lic) (CreatedAt lic).

(** The record read from the document of a [ServerBinding]. *)
Definition ServerBinding_round_trip (sb : ServerBinding) : ServerBinding :=
  mkServerBinding (round_trip (ServerID sb)) (FirstSeen sb) (LastSeen sb)
                  (SeenCount sb).

End json.

Definition zero_ActivateResult : ActivateResult := mkActivateResult false "" 0 0 false.

(* ===================================================================== *)
(** ** The bbolt database *)
(* ===================================================================== *)

(** The two top-level buckets [OpenBBolt] creates: "licenses", from
    license key to record, and "usage", from license key to the nested
    bucket of that license's bindings, from device id to record. *)
Record DB : Type := mkDB {
  licenses : gmap string License;
  usage : gmap string (gmap string ServerBinding)
}.

Definition empty_DB : DB := mkDB ∅ ∅.

Module Bolt.

Definition MaxKeySize : Z := 32768.

(** [Bucket.Put]: the key must be non-empty and at most [MaxKeySize]
    bytes long. *)
Definition Put {V} (k : string) (v : V) (b : gmap string V) : result (gmap string V) :=
  if decide (String.length k = 0%nat) then Err ErrKeyRequired
  else if decide (MaxKeySize < Z.of_nat (String.length k)) then Err ErrKeyTooLarge
  else Ok (<[k := v]> b).

(** [Bucket.CreateBucketIfNotExists] on a bucket of buckets: the
    nested bucket under [k], created empty when it is missing. *)
Definition CreateBucketIfNotExists {V} (k : string) (b : gmap string (gmap string V))
  : result (gmap string V * gmap string (gmap string V)) :=
  if decide (String.length k = 0%nat) then Err ErrBucketNameRequired
  else match b !! k with
       | Some nested => Ok (nested, b)
       | None => Ok (∅, <[k := ∅]> b)
       end.

(** [DB.Update]: the closure's writes are committed when it returns a
    nil error and rolled back otherwise. *)
Definition Update {A} (f : DB → result (A * DB)) (s : DB) : result A * DB :=
  match f s with
  | Ok (a, s') => (Ok a, s')
  | Err e => (Err e, s)
  end.

(** [DB.View]: a read-only transaction. *)
Definition View {A} (f : DB → result A) (s : DB) : result A := f s.

End Bolt.

(* ===================================================================== *)
(** ** sort.Slice *)
(* ===================================================================== *)

(** [sort.Slice] promises no order among elements that compare equal.
    The model is the insertion sort it runs on slices of up to twelve
    elements; the results below use only that the outcome is ordered by
    [less] and is a rearrangement of the input. *)
Section SortSlice.
Context {A : Type} (less : A → A → bool).

(** The inner loop, on the sorted prefix held last element first:
    [x] moves down past every predecessor it is less than. *)
Fixpoint sift (x : A) (rprefix : list A) : list A :=
  match rprefix with
  | [] => [x]
  | y :: r => if less x y then y :: sift x r else x :: y :: r
  end.

Definition sort_Slice (l : list A) : list A :=
  rev (fold_left (fun rprefix x => sift x rprefix) l []).
End SortSlice.

(* ===================================================================== *)
(** ** internal/license: NewKey *)
(* ===================================================================== *)

Module license.

(** The bits of a byte, most significant first. *)
Definition bits_of_byte (b : N) : list bool :=
  List.map (fun i => N.testbit b i) [7; 6; 5; 4; 3; 2; 1; 0]%N.

Fixpoint N_of_bits (bs : list bool) (acc : N) : N :=
  match bs with
  | [] => acc
  | b :: r => N_of_bits r (2 * acc + (if b then 1 else 0))%N
  end.

(** Cut a list into groups of [n], the last one possibly shorter:
    the loop [for i := 0; i < len(s); i += 4] of [NewKey] for [n = 4].
    [cur] is the group being filled, last element first. *)
Fixpoint groups {A} (n : nat) (cur : list A) (l : list A) : list (list A) :=
  match l with
  | [] => match cur with [] => [] | _ => [rev cur] end
  | x :: r =>
    if (List.length cur + 1 =? n)%nat then rev (x :: cur) :: groups n [] r
    else groups n (x :: cur) r
  end.

Definition alphabet : list N :=
  Bytes.of_string "ABCDEFGHIJKLMNOPQRSTUVWXYZ234567".

(** A group of up to five bits, padded with zero bits on the right, as
    a letter of the alphabet. *)
Definition quintet (g : list bool) : N :=
  let v := N_of_bits (g ++ replicate (5 - List.length g) false) 0%N in
  default 0%N (alphabet !! N.to_nat v).

(** [base32.StdEncoding.WithPadding(base32.NoPadding).EncodeToString]. *)
Definition base32_encode (b : list N) : list N :=
  List.map quintet (groups 5 [] (List.concat (List.map bits_of_byte b))).

(** [strings.ToUpper] on ASCII text. *)
Definition ToUpper (s : list N) : list N :=
  List.map (fun c => if (97 <=? c)%N && (c <=? 122)%N then (c - 32)%N else c) s.

Fixpoint Join (parts : list string) (sep : string) : string :=
  match parts with
  | [] => ""
  | [p] => p
  | p :: r => p ++ sep ++ Join r sep
  end.

(** [NewKey]: [rnd] is what [rand.Read] left in the 20-byte buffer, or
    its error. *)
Definition NewKey (rnd : result (list N)) : result string :=
  match rnd with
  | Err e => Err e
  | Ok b =>
    let s := ToUpper (base32_encode b) in
    let parts := List.map Bytes.to_string (groups 4 [] s) in
    Ok ("KYPAQET-" ++ Join parts "-")
  end.

End license.

(* ===================================================================== *)
(** ** The store operations (bbolt_store.go) *)
(* ===================================================================== *)

(** [getLicense]: the record under [key] in the licenses bucket. *)
Definition getLicense (s : DB) (key : string) : result License :=
  match licenses s !! key with
  | None => Err errNotFound
  | Some lic => Ok lic
  end.

(** [putLicense]: the record is written under its own [Key] field.
    [lic] is a record [getLicense] read, with its limit or its flag
    changed: its document gives it back. *)
Definition putLicense (s : DB) (lic : License) : result DB :=
  match Bolt.Put (Key lic) lic (licenses s) with
  | Err e => Err e
  | Ok b => Ok (mkDB b (usage s))
  end.

(** [countKeys]: one [n++] for every key [ForEach] visits. *)
Definition countKeys {V} (b : gmap string V) : Z :=
  map_fold (fun _ _ n => wrap_int (n + 1)) 0 b.

(** [getBindings]: the records of the license's nested bucket, each with
    its [ServerID] set from its key, most recently seen first; nothing
    when the license has no nested bucket. *)
Definition keyed (kv : string * ServerBinding) : ServerBinding :=
  mkServerBinding kv.1 (FirstSeen kv.2) (LastSeen kv.2) (SeenCount kv.2).

Definition more_recent (a b : ServerBinding) : bool :=
  After (LastSeen a) (LastSeen b).

Definition getBindings (s : DB) (key : string) : result (list ServerBinding) :=
  match usage s !! key with
  | None => Ok []
  | Some u => Ok (sort_Slice more_recent (List.map keyed (map_to_list u)))
  end.

(** [CreateLicense]: [rnd] is the outcome of [rand.Read] inside
    [license.NewKey] and [now] the clock reading; neither is looked at
    when the limit is rejected.  The bucket gets [buf], the document of
    [lic]; the caller gets [lic] itself. *)
Definition CreateLicense (limit : Z) (note : string)
    (rnd : result (list N)) (now : Time) (s : DB) : result License * DB :=
  if limit <=? 0 then (Err (Errorf "limit must be > 0"), s)
  else match license.NewKey rnd with
  | Err e => (Err e, s)
  | Ok key =>
    let lic := mkLicense key limit note true now in
    let buf := json.License_round_trip lic in
    Bolt.Update (fun s =>
      match licenses s !! key with
      | Some _ => Err (Errorf "key collision, try again")
      | None =>
        match Bolt.Put key buf (licenses s) with
        | Err e => Err e
        | Ok b =>
          match Bolt.CreateBucketIfNotExists key (usage s) with
          | Err e => Err e
          | Ok (_, u) => Ok (lic, mkDB b u)
          end
        end
      end) s
  end.

Definition SetLimit (key : string) (limit : Z) (s : DB) : result License * DB :=
  if limit <=? 0 then (Err (Errorf "limit must be > 0"), s)
  else Bolt.Update (fun s =>
    match getLicense s key with
    | Err e => Err e
    | Ok lic =>
      let lic := mkLicense (Key lic) limit (Note lic) (Enabled lic) (CreatedAt lic) in
      match putLicense s lic with
      | Err e => Err e
      | Ok s' => Ok (lic, s')
      end
    end) s.

Definition SetEnabled (key : string) (enabled : bool) (s : DB) : result License * DB :=
  Bolt.Update (fun s =>
    match getLicense s key with
    | Err e => Err e
    | Ok lic =>
      let lic := mkLicense (Key lic) (Limit lic) (Note lic) enabled (CreatedAt lic) in
      match putLicense s lic with
      | Err e => Err e
      | Ok s' => Ok (lic, s')
      end
    end) s.

(** [GetInfo]; on an error the caller gets [LicenseInfo{}] with it. *)
Definition GetInfo (key : string) (s : DB) : result LicenseInfo :=
  Bolt.View (fun s =>
    match getLicense s key with
    | Err e => Err e
    | Ok lic =>
      match getBindings s key with
      | Err e => Err e
      | Ok bindings =>
        Ok (mkLicenseInfo lic (Z.of_nat (List.length bindings)) bindings)
      end
    end) s.


(** The checks [Activate] makes on its trimmed arguments before it opens
    a transaction: the verdict it returns at once, if any. *)
Definition validate (key serverID : string) : option ActivateResult :=
  if decide (key = "" ∨ serverID = "")
  then Some (mkActivateResult false "invalid_request" 0 0 false)
  else if 128 <? Z.of_nat (String.length serverID)
  then Some (mkActivateResult false "server_id_too_long" 0 0 false)
  else None.

(** The tail of the closure: the document [buf] of the binding is
    written and the bucket is counted again for the verdict. *)
Definition store_binding (s : DB) (root : gmap string (gmap string ServerBinding))
    (key serverID : string) (u : gmap string ServerBinding) (lic : License)
    (newBinding : bool) (buf : ServerBinding) : result (ActivateResult * DB) :=
  match Bolt.Put serverID buf u with
  | Err e => Err e
  | Ok u' =>
    Ok (mkActivateResult true "ok" (countKeys u') (Limit lic) newBinding,
        mkDB (licenses s) (<[key := u']> root))
  end.

(** The closure [Activate] passes to [db.Update], on trimmed arguments.
    A refresh writes back the record it read from the bucket, with two
    fields changed; a new binding is written with the [serverID] the
    caller gave, which its document keeps as far as it is UTF-8. *)
Definition activate_tx (key serverID : string) (now : Time) (s : DB)
    : result (ActivateResult * DB) :=
  match getLicense s key with
  | Err _ => Ok (mkActivateResult false "not_found" 0 0 false, s)
  | Ok lic =>
    if negb (Enabled lic)
    then Ok (mkActivateResult false "disabled" 0 (Limit lic) false, s)
    else
      let opened :=
        match usage s !! key with
        | Some u => Ok (u, usage s)
        | None => Bolt.CreateBucketIfNotExists key (usage s)
        end in
      match opened with
      | Err e => Err e
      | Ok (u, root) =>
        match u !! serverID with
        | Some sb =>
          store_binding s root key serverID u lic false
            (mkServerBinding (ServerID sb) (FirstSeen sb) now
                             (wrap_int (SeenCount sb + 1)))
        | None =>
          let used := countKeys u in
          if Limit lic <=? used
          then Ok (mkActivateResult false "limit_reached" used (Limit lic) false,
                   mkDB (licenses s) root)
          else store_binding s root key serverID u lic true
                 (json.ServerBinding_round_trip
                    (mkServerBinding serverID now now 1))
        end
      end
  end.

(** [Activate]: [now] is the clock reading taken after the argument
    checks and before the transaction is opened. *)
Definition Activate (key serverID : string) (now : Time) (s : DB)
    : result ActivateResult * DB :=
  let key := TrimSpace key in
  let serverID := TrimSpace serverID in
  match validate key serverID with
  | Some res => (Ok res, s)
  | None => Bolt.Update (activate_tx key serverID now) s
  end.

(** The bindings recorded for a license, none when it has no bucket. *)
Definition bindings_of (s : DB) (key : string) : gmap string ServerBinding :=
  default ∅ (usage s !! key).

Definition binding (s : DB) (key serverID : string) : option ServerBinding :=
  bindings_of s key !! serverID.

(** The number of distinct devices bound to a license. *)
Definition bound_count (s : DB) (key : string) : nat := size (bindings_of s key).

(** The scenario of the specification: a license of limit 2, devices A,
    B, C and A again. *)
Module Scenario.
Definition rnd : result (list N) := Ok (replicate 20 0%N).
Definition K : string := "KYPAQET-AAAA-AAAA-AAAA-AAAA-AAAA-AAAA-AAAA-AAAA".
Definition s0 : DB := (CreateLicense 2 "demo" rnd 100 empty_DB).2.
Definition s1 : DB := (Activate K "A" 101 s0).2.
Definition s2 : DB := (Activate K "B" 102 s1).2.
Definition s3 : DB := (Activate K "C" 103 s2).2.
Definition s4 : DB := (Activate K " A " 104 s3).2.
End Scenario.

(** Trimmed arguments that pass the checks of [Activate]. *)
Definition valid_args (key serverID : string) : Prop :=
  key ≠ "" ∧ serverID ≠ "" ∧ Z.of_nat (String.length serverID) <= 128.

(** The arguments of a call pass the checks once trimmed. *)
Definition valid_request (key serverID : string) : Prop :=
  valid_args (TrimSpace key) (TrimSpace serverID).

(** A sequence of [Activate] calls on one license key, one after the
    other; each call comes with its device id and its clock reading. *)
Fixpoint run_activates (key : string) (calls : list (string * Time)) (s : DB)
    : list (result ActivateResult) * DB :=
  match calls with
  | [] => ([], s)
  | (d, now) :: rest =>
    let step := Activate key d now s in
    let tail := run_activates key rest step.2 in
    (step.1 :: tail.1, tail.2)
  end.

(** The device ids of a list of calls, as [Activate] uses them. *)
Definition devices (calls : list (string * Time)) : list string :=
  List.map (fun c => TrimSpace c.1) calls.

(** The verdict of the [i]-th admission. *)
Definition admitted (used limit : Z) (newly : bool) : result ActivateResult :=
  Ok (mkActivateResult true "ok" used limit newly).

#[global] Instance valid_args_dec key serverID : Decision (valid_args key serverID).
Proof. unfold valid_args. apply _. Defined.

(** The record a refresh writes back, and the record of a new binding
    as its document holds it. *)
Definition refreshed (sb : ServerBinding) (now : Time) : ServerBinding :=
  mkServerBinding (ServerID sb) (FirstSeen sb) now (wrap_int (SeenCount sb + 1)).

Definition fresh_binding (serverID : string) (now : Time) : ServerBinding :=
  json.ServerBinding_round_trip (mkServerBinding serverID now now 1).

(** The database with one binding written under a license. *)
Definition with_binding (s : DB) (key serverID : string) (sb : ServerBinding) : DB :=
  mkDB (licenses s) (<[key := <[serverID := sb]> (bindings_of s key)]> (usage s)).

(** The database with the nested bucket of a license opened: created
    empty when the license had none. *)
Definition with_bucket (s : DB) (key : string) : DB :=
  mkDB (licenses s) (match usage s !! key with
                     | Some _ => usage s
                     | None => <[key := ∅]> (usage s)
                     end).

Arguments with_binding : simpl never.
Arguments with_bucket : simpl never.
Arguments bindings_of : simpl never.
Arguments binding : simpl never.
Arguments bound_count : simpl never.

(** The ways a call [Activate key serverID] at clock reading [now] on the
    database [s] can end, by the branch of the source taken; [k] and [d]
    are the trimmed arguments. *)
Inductive outcome (k d : string) (now : Time) (s : DB)
    : result ActivateResult * DB → Prop :=
  | out_invalid_request :
      k = "" ∨ d = "" →
      outcome k d now s (Ok (mkActivateResult false "invalid_request" 0 0 false), s)
  | out_server_id_too_long :
      k ≠ "" → d ≠ "" → 128 < Z.of_nat (String.length d) →
      outcome k d now s (Ok (mkActivateResult false "server_id_too_long" 0 0 false), s)
  | out_not_found :
      valid_args k d → licenses s !! k = None →
      outcome k d now s (Ok (mkActivateResult false "not_found" 0 0 false), s)
  | out_disabled lic :
      valid_args k d → licenses s !! k = Some lic → Enabled lic = false →
      outcome k d now s (Ok (mkActivateResult false "disabled" 0 (Limit lic) false), s)
  | out_refresh lic sb :
      valid_args k d → licenses s !! k = Some lic → Enabled lic = true →
      binding s k d = Some sb →
      outcome k d now s
        (Ok (mkActivateResult true "ok" (countKeys (bindings_of s k)) (Limit lic) false),
         with_binding s k d (refreshed sb now))
  | out_limit_reached lic :
      valid_args k d → licenses s !! k = Some lic → Enabled lic = true →
      binding s k d = None → Limit lic <= countKeys (bindings_of s k) →
      outcome k d now s
        (Ok (mkActivateResult false "limit_reached" (countKeys (bindings_of s k))
               (Limit lic) false),
         with_bucket s k)
  | out_admit lic :
      valid_args k d → licenses s !! k = Some lic → Enabled lic = true →
      binding s k d = None → countKeys (bindings_of s k) < Limit lic →
      outcome k d now s
        (Ok (mkActivateResult true "ok"
               (countKeys (<[d := fresh_binding d now]> (bindings_of s k)))
               (Limit lic) true),
         with_binding s k d (fresh_binding d now)).

(** Every license record sits under its own key, and that key is one
    bbolt accepts: what [CreateLicense], the only operation that adds a
    record, writes. *)
Definition wf_license (k : string) (lic : License) : Prop :=
  Key lic = k ∧ k ≠ "" ∧ Z.of_nat (String.length k) <= Bolt.MaxKeySize.

Definition wf_DB (s : DB) : Prop := map_Forall wf_license (licenses s).

#[global] Instance wf_license_dec k lic : Decision (wf_license k lic).
Proof. unfold wf_license. apply _. Defined.

#[global] Instance wf_DB_dec s : Decision (wf_DB s).
Proof. unfold wf_DB. apply _. Defined.

(* ===================================================================== *)
(** ** Calls in flight *)
(* ===================================================================== *)

(** Several callers run [Activate] at once.  A call first checks its
    arguments and reads the clock, on its own; it then waits for bbolt's
    single writer lock and runs its transaction, which is one indivisible
    step.  A schedule picks, step by step, the call that moves and the
    time that has passed since the step before. *)
Module Concurrent.

Inductive call : Type :=
  | Arrived (key serverID : string)
  | Waiting (key serverID : string) (now : Time)
  | Returned (r : result ActivateResult).

Definition step_call (clock : Time) (c : call) (s : DB) : call * DB :=
  match c with
  | Arrived key serverID =>
    let key := TrimSpace key in
    let serverID := TrimSpace serverID in
    match validate key serverID with
    | Some res => (Returned (Ok res), s)
    | None => (Waiting key serverID clock, s)
    end
  | Waiting key serverID now =>
    let committed := Bolt.Update (activate_tx key serverID now) s in
    (Returned committed.1, committed.2)
  | Returned _ => (c, s)
  end.

Record system : Type := mkSystem {
  pool : list call;
  db : DB;
  clock : Time
}.

Definition step (sys : system) (choice : nat * nat) : system :=
  let clock' := clock sys + Z.of_nat choice.2 in
  match pool sys !! choice.1 with
  | None => mkSystem (pool sys) (db sys) clock'
  | Some c =>
    let moved := step_call clock' c (db sys) in
    mkSystem (<[choice.1 := moved.1]> (pool sys)) moved.2 clock'
  end.

Definition run (schedule : list (nat * nat)) (sys : system) : system :=
  fold_left step schedule sys.

Definition returned (c : call) : bool :=
  match c with Returned _ => true | _ => false end.

(** The verdicts among the returned calls that admit, and that reject at
    the limit. *)
Definition is_admission (c : call) : bool :=
  match c with
  | Returned (Ok r) => OK r
  | _ => false
  end.

Definition is_limit_reached (limit : Z) (c : call) : bool :=
  match c with
  | Returned (Ok r) =>
    negb (OK r) && bool_decide (Reason r = "limit_reached")
    && bool_decide (Used r = limit) && bool_decide (ResLimit r = limit)
  | _ => false
  end.

Definition count (p : call → bool) (l : list call) : nat :=
  List.length (List.filter p l).

(** The calls of a burst, none started. *)
Definition arrivals (key : string) (ids : list string) : list call :=
  List.map (Arrived key) ids.

(** How far a call has come, and the schedule that lets each of [n]
    calls move once, in turn, [dt] apart. *)
Definition progress (c : call) : nat :=
  match c with
  | Arrived _ _ => 0
  | Waiting _ _ _ => 1
  | Returned _ => 2
  end.

Definition round (n dt : nat) : list (nat * nat) :=
  List.map (fun i => (i, dt)) (seq 0 n).

(** What holds of the call for device [id] of a burst on the license
    [lic], stored under [k], while the database is [d]: a call that has
    not committed has left no binding; one that has returned was either
    admitted, and its device is bound, or turned away at the limit, and
    the license is full. *)
Definition call_inv (key k : string) (lic : License) (d : DB) (id : string)
    (c : call) : Prop :=
  match c with
  | Arrived key' id' =>
    key' = key ∧ id' = id ∧ binding d k (TrimSpace id) = None
  | Waiting k' id' _ =>
    k' = k ∧ id' = TrimSpace id ∧ binding d k (TrimSpace id) = None
  | Returned _ =>
    (is_admission c = true ∧ is_Some (binding d k (TrimSpace id)))
    ∨ (is_limit_reached (Limit lic) c = true
       ∧ Z.of_nat (bound_count d k) = Limit lic)
  end.

(** The invariant of a burst started on the database [s0]. *)
Definition burst_inv (key k : string) (lic : License) (ids : list string)
    (s0 : DB) (sys : system) : Prop :=
  licenses (db sys) = licenses s0
  ∧ List.length (pool sys) = List.length ids
  ∧ (∀ i id c, ids !! i = Some id → pool sys !! i = Some c →
               call_inv key k lic (db sys) id c)
  ∧ bound_count (db sys) k = (bound_count s0 k + count is_admission (pool sys))%nat
  ∧ Z.of_nat (bound_count (db sys) k) <= Limit lic.

End Concurrent.

(** A license record with its enabled flag set, as [SetEnabled] builds
    it, and with its limit set, as [SetLimit] does. *)
Definition set_enabled (lic : License) (enabled : bool) : License :=
  mkLicense (Key lic) (Limit lic) (Note lic) enabled (CreatedAt lic).

Definition set_limit (lic : License) (limit : Z) : License :=
  mkLicense (Key lic) limit (Note lic) (Enabled lic) (CreatedAt lic).

(** The verdict on a disabled license. *)
Definition disabled_verdict (lic : License) : result ActivateResult :=
  Ok (mkActivateResult false "disabled" 0 (Limit lic) false).

(** A device id of [n] two-byte characters: U+00E9, bytes C3 A9. *)
Definition accented_id (n : nat) : string :=
  Bytes.to_string (List.concat (replicate n [195; 169]%N)).

(* ===================================================================== *)
(** ** Histories of the store *)
(* ===================================================================== *)

(** The mutating operations of the store contract, with what each call
    takes from its environment. *)
Inductive op : Type :=
  | OpCreateLicense (limit : Z) (note : string) (rnd : result (list N)) (now : Time)
  | OpSetLimit (key : string) (limit : Z)
  | OpSetEnabled (key : string) (enabled : bool)
  | OpActivate (key serverID : string) (now : Time).

Definition exec (s : DB) (o : op) : DB :=
  match o with
  | OpCreateLicense limit note rnd now => (CreateLicense limit note rnd now s).2
  | OpSetLimit key limit => (SetLimit key limit s).2
  | OpSetEnabled key enabled => (SetEnabled key enabled s).2
  | OpActivate key serverID now => (Activate key serverID now s).2
  end.

Definition run_ops (ops : list op) (s : DB) : DB := fold_left exec ops s.




(** The history of the scenario. *)
Definition scenario_ops : list op :=
  [OpCreateLicense 2 "demo" Scenario.rnd 100;
   OpActivate Scenario.K "A" 101; OpActivate Scenario.K "B" 102;
   OpActivate Scenario.K "C" 103; OpActivate Scenario.K " A " 104].

(* ===================================================================== *)
(** ** The rest of the store: ListLicenses *)
(* ===================================================================== *)

Definition newer (a b : LicenseInfo) : bool :=
  After (CreatedAt (InfoLicense a)) (CreatedAt (InfoLicense b)).

(** The body of the [ForEach] over the licenses bucket: the summary of
    one record is appended; the bindings are counted and left out. *)
Definition list_visit (s : DB) (out : result (list LicenseInfo))
    (kv : string * License) : result (list LicenseInfo) :=
  match out with
  | Err e => Err e
  | Ok out =>
    match getBindings s kv.1 with
    | Err e => Err e
    | Ok bindings =>
      Ok (out ++ [mkLicenseInfo kv.2 (Z.of_nat (List.length bindings)) []])%list
    end
  end.

(** [ListLicenses]: the summaries of all records, newest first. *)
Definition ListLicenses (s : DB) : result (list LicenseInfo) :=
  match Bolt.View (fun s => fold_left (list_visit s) (map_to_list (licenses s)) (Ok [])) s with
  | Err e => Err e
  | Ok out => Ok (sort_Slice newer out)
  end.

(** The summary [ListLicenses] makes of one record. *)
Definition summary (s : DB) (kv : string * License) : LicenseInfo :=
  mkLicenseInfo kv.2 (Z.of_nat (bound_count s kv.1)) [].

(* ===================================================================== *)
(** ** Invariants of the database *)
(* ===================================================================== *)

(** Limits are positive. *)
Definition positive_limits (s : DB) : Prop :=
  map_Forall (fun _ lic => 0 < Limit lic) (licenses s).

(** Limits are Go ints. *)
Definition int_limits (s : DB) : Prop :=
  map_Forall (fun _ lic => Limit lic <= max_int) (licenses s).

(** Every license has its usage bucket and every usage bucket its
    license. *)
Definition buckets_match (s : DB) : Prop := dom (usage s) = dom (licenses s).

(** A binding sits under a device id that passed the checks of
    [Activate], its [server_id] is that id as a document keeps it, and
    its counter is a Go int. *)
Definition wf_binding (d : string) (sb : ServerBinding) : Prop :=
  ServerID sb = json.round_trip d ∧ d ≠ "" ∧ Z.of_nat (String.length d) <= 128
  ∧ is_int (SeenCount sb).

(** Every stored record is one a document gives: reading the document
    [json.Marshal] makes of it gives it back. *)
Definition documents (s : DB) : Prop :=
  map_Forall (fun _ lic => json.License_round_trip lic = lic) (licenses s)
  ∧ map_Forall (fun _ u =>
       map_Forall (fun _ sb => json.ServerBinding_round_trip sb = sb) u) (usage s).

Definition wf_ledger (s : DB) : Prop :=
  map_Forall (fun _ u => map_Forall wf_binding u) (usage s).

(** No license has more devices bound than its limit allows. *)
Definition within_limits (s : DB) : Prop :=
  ∀ k lic, licenses s !! k = Some lic → Z.of_nat (bound_count s k) <= Limit lic.

(** The limits an operation is called with are Go ints. *)
Definition int_op (o : op) : Prop :=
  match o with
  | OpCreateLicense limit _ _ _ => limit <= max_int
  | OpSetLimit _ limit => limit <= max_int
  | _ => True
  end.

(** Along a history run from [s], no [SetLimit] sets a limit below the
    number of devices the license has bound at that moment. *)
Fixpoint keeps_room (ops : list op) (s : DB) : Prop :=
  match ops with
  | [] => True
  | o :: rest =>
    match o with
    | OpSetLimit k limit => Z.of_nat (bound_count s k) <= limit
    | _ => True
    end ∧ keeps_room rest (exec s o)
  end.

#[global] Instance License_eq_dec : EqDecision License.
Proof. solve_decision. Defined.

#[global] Instance ServerBinding_eq_dec : EqDecision ServerBinding.
Proof. solve_decision. Defined.

#[global] Instance LicenseInfo_eq_dec : EqDecision LicenseInfo.
Proof. solve_decision. Defined.

#[global] Instance ActivateResult_eq_dec : EqDecision ActivateResult.
Proof. solve_decision. Defined.

(** The invariants the store keeps from the empty database on. *)
Definition store_inv_holds (s : DB) : Prop :=
  wf_DB s ∧ positive_limits s ∧ buckets_match s ∧ wf_ledger s.

(** The shape of the text after the prefix of a key: eight groups of four
    letters of the base32 alphabet. *)
Definition key_groups (gs : list (list N)) : Prop :=
  List.length gs = 8%nat
  ∧ Forall (fun g => List.length g = 4%nat
                     ∧ Forall (fun c => c ∈ license.alphabet) g) gs.

(* ===================================================================== *)
(** ** internal/httpapi: the activation endpoint *)
(* ===================================================================== *)

Module httpapi.

(** [activateReq], the decoded request body. *)
Record activateReq : Type := mkActivateReq {
  ReqLicense : string;
  ReqServerID : string
}.

(** What the handler writes: the status and, through [writeJSON], a
    body. *)
Record response : Type := mkResponse {
  Status : Z;
  Body : option ActivateResult
}.

Definition StatusOK : Z := 200.
Definition StatusBadRequest : Z := 400.
Definition StatusForbidden : Z := 403.
Definition StatusMethodNotAllowed : Z := 405.
Definition StatusInternalServerError : Z := 500.

(** [handleActivate]: [decoded] is what [dec.Decode] made of the body,
    [None] when it failed; [now] is the clock reading [Activate] takes. *)
Definition handleActivate (method : string) (decoded : option activateReq)
    (now : Time) (s : DB) : response * DB :=
  if negb (String.eqb method "POST")
  then (mkResponse StatusMethodNotAllowed None, s)
  else match decoded with
  | None =>
    (mkResponse StatusBadRequest
       (Some (mkActivateResult false "bad_json" 0 0 false)), s)
  | Some req =>
    let called := Activate (ReqLicense req) (ReqServerID req) now s in
    match called.1 with
    | Err _ =>
      (mkResponse StatusInternalServerError
         (Some (mkActivateResult false "server_error" 0 0 false)), called.2)
    | Ok res =>
      let status := if negb (OK res) then StatusForbidden else StatusOK in
      (mkResponse status (Some res), called.2)
    end
  end.

End httpapi.

(* ===================================================================== *)
(** ** More of packages strings and strconv *)
(* ===================================================================== *)

Module gostrings.

(** [strings.HasPrefix] and [strings.TrimPrefix]. *)
Definition HasPrefix (s p : string) : bool := String.prefix p s.

Definition TrimPrefix (s p : string) : string :=
  if HasPrefix s p then substring (String.length p) (String.length s - String.length p) s
  else s.

(** The field being read, last byte first, closed: nothing when it is
    empty. *)
Definition flush (cur : list N) : list (list N) :=
  match cur with
  | [] => []
  | _ => [rev cur]
  end.

(** The ASCII path of [strings.Fields]: split around runs of
    [asciiSpace] bytes. *)
Fixpoint fields_ascii (s : list N) (cur : list N) : list (list N) :=
  match s with
  | [] => flush cur
  | c :: r =>
    if Utf8.asciiSpace c then (flush cur ++ fields_ascii r [])%list
    else fields_ascii r (c :: cur)
  end.

(** [strings.FieldsFunc(s, unicode.IsSpace)]: the runes of [s] are read
    one by one, an invalid byte as U+FFFD of width one. *)
Fixpoint fields_func (fuel : nat) (s : list N) (cur : list N) : list (list N) :=
  match fuel, s with
  | S f, _ :: _ =>
    let '(r, w) := Utf8.DecodeRune s in
    if Utf8.IsSpace r then (flush cur ++ fields_func f (drop w s) [])%list
    else fields_func f (drop w s) (rev (take w s) ++ cur)%list
  | _, _ => flush cur
  end.

(** [strings.Fields]: the ASCII path unless some byte has its high bit
    set. *)
Definition Fields (s : string) : list string :=
  let b := Bytes.of_string s in
  List.map Bytes.to_string
    (if existsb (fun c => (Utf8.RuneSelf <=? c)%N) b
     then fields_func (List.length b) b []
     else fields_ascii b []).

End gostrings.

Module strconv.

Fixpoint digits (s : list N) (acc : Z) : option Z :=
  match s with
  | [] => Some acc
  | c :: r =>
    if (48 <=? c)%N && (c <=? 57)%N then digits r (10 * acc + Z.of_N (c - 48))
    else None
  end.

(** [strconv.Atoi]: an optional sign and decimal digits, at least one,
    with a value that is a Go int; [None] stands for its syntax and
    range errors. *)
Definition Atoi (s : string) : option Z :=
  match Bytes.of_string s with
  | [] => None
  | c :: r =>
    let body := if (c =? 45)%N || (c =? 43)%N then r else c :: r in
    match body with
    | [] => None
    | _ =>
      match digits body 0 with
      | None => None
      | Some n =>
        let v := if (c =? 45)%N then - n else n in
        if (min_int <=? v) && (v <=? max_int) then Some v else None
      end
    end
  end.

End strconv.

(* ===================================================================== *)
(** ** internal/telegram: the operator's bot *)
(* ===================================================================== *)

Module telegram.

Inductive pendingState : Type :=
  | stateNone
  | stateNewLicense
  | stateAskInfo
  | stateAskSetLimit
  | stateAskEnable
  | stateAskDisable.

(** The bot: the admin's chat id and the pending state of every chat;
    a chat without an entry is in [stateNone]. *)
Record Bot : Type := mkBot {
  adminChatID : Z;
  states : gmap Z pendingState
}.

Definition getState (b : Bot) (chatID : Z) : pendingState :=
  default stateNone (states b !! chatID).

Definition setState (b : Bot) (chatID : Z) (st : pendingState) : Bot :=
  match st with
  | stateNone => mkBot (adminChatID b) (delete chatID (states b))
  | _ => mkBot (adminChatID b) (<[chatID := st]> (states b))
  end.

(** [safeNote]: the note as shown, cut after 200 bytes. *)
Definition safeNote (s : string) : string :=
  let s := TrimSpace s in
  if String.eqb s "" then "-"
  else if 200 <? Z.of_nat (String.length s) then substring 0 200 s ++ "..."
  else s.

(** [shortKey]: the label of a license button. *)
Definition shortKey (k : string) : string :=
  let k := TrimSpace k in
  if Z.of_nat (String.length k) <=? 18 then k
  else substring 0 10 k ++ "..." ++ substring (String.length k - 6) 6 k.

(** What the bot says.  The fixed texts of the source are named; a
    formatted text is kept as its arguments. *)
Inductive text : Type :=
  | TxtAdminOnly
  | TxtNoAccess
  | TxtEmpty
  | TxtMenuMain
  | TxtMenuShort
  | TxtMenu
  | TxtUseButtons
  | TxtInvalidOperation
  | TxtAskNew
  | TxtAskInfo
  | TxtAskSetLimit
  | TxtAskEnable
  | TxtAskDisable
  | TxtInvalidInput
  | TxtInvalidSetLimitInput
  | TxtInvalidLimit
  | TxtUsageInfo
  | TxtUsageSetLimit
  | TxtUsageEnable
  | TxtUsageDisable
  | TxtNoLicenses
  | TxtError (e : error)
  | TxtCreated (lic : License) (note : string)
  | TxtInfo (lic : License) (used : Z) (note : string)
            (servers : list ServerBinding) (more : nat)
  | TxtList (shown : list LicenseInfo)
  | TxtLimitSet (lic : License)
  | TxtEnabledSet (lic : License).

Inductive label : Type :=
  | LblNew | LblList | LblInfo | LblSetLimit | LblEnable | LblDisable
  | LblMenu
  | LblKey (short : string).

(** An inline button: its label and its callback data. *)
Record button : Type := mkButton {
  ButtonLabel : label;
  ButtonData : string
}.

Inductive outgoing : Type :=
  | Send (chatID : Z) (txt : text) (keyboard : list (list button))
  | AnswerCallback (id : string) (txt : text).

Definition reply (chatID : Z) (txt : text) : outgoing := Send chatID txt [].

Definition menu_keyboard : list (list button) :=
  [[mkButton LblNew "new"; mkButton LblList "list"];
   [mkButton LblInfo "ask_info"; mkButton LblSetLimit "ask_setlimit"];
   [mkButton LblEnable "ask_enable"; mkButton LblDisable "ask_disable"]].

(** [sendMenu]: [None] is the empty title, shown as the plain menu
    title. *)
Definition sendMenu (chatID : Z) (title : option text) : outgoing :=
  Send chatID (default TxtMenu title) menu_keyboard.

Definition cmdInfo (chatID : Z) (args : list string) (s : DB) : list outgoing :=
  match args with
  | [key] =>
    match GetInfo key s with
    | Err e => [reply chatID (TxtError e)]
    | Ok info =>
      let shown := take 30 (Bindings info) in
      [reply chatID
         (TxtInfo (InfoLicense info) (InfoUsed info)
                  (safeNote (Note (InfoLicense info))) shown
                  (List.length (Bindings info) - List.length shown))]
    end
  | _ => [reply chatID TxtUsageInfo]
  end.

Definition cmdSetLimit (chatID : Z) (args : list string) (s : DB)
    : DB * list outgoing :=
  match args with
  | [key; lim] =>
    match strconv.Atoi lim with
    | None => (s, [reply chatID TxtInvalidLimit])
    | Some limit =>
      if limit <=? 0 then (s, [reply chatID TxtInvalidLimit])
      else
        let called := SetLimit key limit s in
        match called.1 with
        | Err e => (called.2, [reply chatID (TxtError e)])
        | Ok lic => (called.2, [reply chatID (TxtLimitSet lic)])
        end
    end
  | _ => (s, [reply chatID TxtUsageSetLimit])
  end.

Definition cmdEnable (chatID : Z) (args : list string) (enabled : bool) (s : DB)
    : DB * list outgoing :=
  match args with
  | [key] =>
    let called := SetEnabled key enabled s in
    match called.1 with
    | Err e => (called.2, [reply chatID (TxtError e)])
    | Ok lic => (called.2, [reply chatID (TxtEnabledSet lic)])
    end
  | _ => (s, [reply chatID (if enabled then TxtUsageEnable else TxtUsageDisable)])
  end.

(** The buttons of the list: one row for each of the first twenty
    licenses, with the key in the callback data, and the way back. *)
Definition info_button (it : LicenseInfo) : list button :=
  [mkButton (LblKey (shortKey (Key (InfoLicense it))))
            ("info:" ++ Key (InfoLicense it))].

Definition cmdListWithButtons (chatID : Z) (s : DB) : list outgoing :=
  match ListLicenses s with
  | Err e => [reply chatID (TxtError e)]
  | Ok [] => [reply chatID TxtNoLicenses]
  | Ok list =>
    let shown := take 20 list in
    [Send chatID (TxtList shown)
          (List.map info_button shown ++ [[mkButton LblMenu "menu"]])%list]
  end.

(** [handleNewLicenseInput]; [rnd] and [now] are what [CreateLicense]
    takes from the random source and the clock. *)
Definition handleNewLicenseInput (b : Bot) (rnd : result (list N)) (now : Time)
    (chatID : Z) (txt : string) (s : DB) : Bot * DB * list outgoing :=
  match gostrings.Fields txt with
  | [] => (b, s, [reply chatID TxtInvalidInput])
  | first :: _ =>
    match strconv.Atoi first with
    | None => (b, s, [reply chatID TxtInvalidLimit])
    | Some limit =>
      if limit <=? 0 then (b, s, [reply chatID TxtInvalidLimit])
      else
        let note := TrimSpace (TrimSpace (gostrings.TrimPrefix txt first)) in
        let called := CreateLicense limit note rnd now s in
        match called.1 with
        | Err e => (b, called.2, [reply chatID (TxtError e)])
        | Ok lic =>
          (setState b chatID stateNone, called.2,
           [reply chatID (TxtCreated lic (safeNote (Note lic)));
            sendMenu chatID None])
        end
    end
  end.

Definition handleSetLimitInput (b : Bot) (chatID : Z) (txt : string) (s : DB)
    : Bot * DB * list outgoing :=
  match gostrings.Fields txt with
  | [key; lim] =>
    match strconv.Atoi lim with
    | None => (b, s, [reply chatID TxtInvalidLimit])
    | Some limit =>
      if limit <=? 0 then (b, s, [reply chatID TxtInvalidLimit])
      else
        let done := cmdSetLimit chatID [key; lim] s in
        (setState b chatID stateNone, done.1,
         (done.2 ++ [sendMenu chatID None])%list)
    end
  | _ => (b, s, [reply chatID TxtInvalidSetLimitInput])
  end.

(** [handleMessage], for the message [raw] of the chat [chatID]. *)
Definition handleMessage (b : Bot) (rnd : result (list N)) (now : Time)
    (chatID : Z) (raw : string) (s : DB) : Bot * DB * list outgoing :=
  let txt := TrimSpace raw in
  if String.eqb txt "" then (b, s, [])
  else if negb (chatID =? adminChatID b) then (b, s, [reply chatID TxtAdminOnly])
  else if gostrings.HasPrefix txt "/start" || gostrings.HasPrefix txt "/help"
          || gostrings.HasPrefix txt "/menu"
  then (setState b chatID stateNone, s, [sendMenu chatID (Some TxtMenuMain)])
  else match getState b chatID with
  | stateNewLicense => handleNewLicenseInput b rnd now chatID txt s
  | stateAskInfo =>
    (setState b chatID stateNone, s,
     (cmdInfo chatID [txt] s ++ [sendMenu chatID None])%list)
  | stateAskSetLimit => handleSetLimitInput b chatID txt s
  | stateAskEnable =>
    let done := cmdEnable chatID [txt] true s in
    (setState b chatID stateNone, done.1, (done.2 ++ [sendMenu chatID None])%list)
  | stateAskDisable =>
    let done := cmdEnable chatID [txt] false s in
    (setState b chatID stateNone, done.1, (done.2 ++ [sendMenu chatID None])%list)
  | stateNone => (b, s, [sendMenu chatID (Some TxtUseButtons)])
  end.

(** [handleCallback], for the button press [id] with callback data
    [raw] in the chat [chatID]. *)
Definition handleCallback (b : Bot) (chatID : Z) (id raw : string) (s : DB)
    : Bot * DB * list outgoing :=
  if negb (chatID =? adminChatID b) then (b, s, [AnswerCallback id TxtNoAccess])
  else
    let data := TrimSpace raw in
    let ack := AnswerCallback id TxtEmpty in
    if String.eqb data "menu"
    then (setState b chatID stateNone, s, [ack; sendMenu chatID (Some TxtMenuShort)])
    else if String.eqb data "new"
    then (setState b chatID stateNewLicense, s, [ack; reply chatID TxtAskNew])
    else if String.eqb data "list"
    then (setState b chatID stateNone, s, ack :: cmdListWithButtons chatID s)
    else if String.eqb data "ask_info"
    then (setState b chatID stateAskInfo, s, [ack; reply chatID TxtAskInfo])
    else if String.eqb data "ask_setlimit"
    then (setState b chatID stateAskSetLimit, s, [ack; reply chatID TxtAskSetLimit])
    else if String.eqb data "ask_enable"
    then (setState b chatID stateAskEnable, s, [ack; reply chatID TxtAskEnable])
    else if String.eqb data "ask_disable"
    then (setState b chatID stateAskDisable, s, [ack; reply chatID TxtAskDisable])
    else if gostrings.HasPrefix data "info:"
    then (setState b chatID stateNone, s,
          (ack :: cmdInfo chatID [gostrings.TrimPrefix data "info:"] s
               ++ [sendMenu chatID None])%list)
    else (b, s, [ack; sendMenu chatID (Some TxtInvalidOperation)]).

End telegram.

(* ===================================================================== *)
(** ** The service: both front ends on one store *)
(* ===================================================================== *)

(** What reaches the service: a message or a button press in some chat,
    or a request to the activation endpoint, each with what its handler
    takes from the random source and the clock.  A handler makes at most
    one call of the store, which is one transaction, so the handlers are
    taken one after the other. *)
Inductive event : Type :=
  | EvMessage (chatID : Z) (raw : string) (rnd : result (list N)) (now : Time)
  | EvCallback (chatID : Z) (id raw : string)
  | EvRequest (method : string) (decoded : option httpapi.activateReq) (now : Time).

Record service : Type := mkService {
  bot : telegram.Bot;
  database : DB
}.

Definition serve (sv : service) (e : event) : service :=
  match e with
  | EvMessage chatID raw rnd now =>
    let out := telegram.handleMessage (bot sv) rnd now chatID raw (database sv) in
    mkService out.1.1 out.1.2
  | EvCallback chatID id raw =>
    let out := telegram.handleCallback (bot sv) chatID id raw (database sv) in
    mkService out.1.1 out.1.2
  | EvRequest method decoded now =>
    mkService (bot sv) (httpapi.handleActivate method decoded now (database sv)).2
  end.

Definition serve_all (events : list event) (sv : service) : service :=
  fold_left serve events sv.

(* ===================================================================== *)
(** ** The model at work *)
(* ===================================================================== *)

Lemma to_of_string s : Bytes.to_string (Bytes.of_string s) = s.
Proof.
  induction s as [|c r IH]; simpl; [reflexivity|].
  by rewrite ascii_N_embedding, IH.
Qed.

Lemma length_of_string s : List.length (Bytes.of_string s) = String.length s.
Proof. induction s; simpl; congruence. Qed.

Example TrimSpace_ascii : TrimSpace "  	K1 x  " = "K1 x".
Proof. vm_compute. reflexivity. Qed.

Example TrimSpace_blank : TrimSpace "   " = "".
Proof. vm_compute. reflexivity. Qed.

(** A no-break space (C2 A0) before and an ideographic space (E3 80 80)
    after the text are trimmed too. *)
Example TrimSpace_unicode :
  TrimSpace (Bytes.to_string [194; 160; 65; 32; 66; 227; 128; 128; 32]%N) = "A B".
Proof. vm_compute. reflexivity. Qed.

(** A truncated rune at the end is not a space and stays. *)
Example TrimSpace_truncated :
  Bytes.of_string (TrimSpace (Bytes.to_string [32; 65; 226; 128; 32]%N))
  = [65; 226; 128]%N.
Proof. vm_compute. reflexivity. Qed.

Example NewKey_zero :
  license.NewKey (Ok (replicate 20 0%N))
  = Ok "KYPAQET-AAAA-AAAA-AAAA-AAAA-AAAA-AAAA-AAAA-AAAA".
Proof. vm_compute. reflexivity. Qed.

(** RFC 4648 encodes "fooba" as MZXW6YTB and "r----" as OIWS2LJN. *)
Example NewKey_text :
  license.NewKey (Ok (Bytes.of_string "foobar----foobar----"))
  = Ok "KYPAQET-MZXW-6YTB-OIWS-2LJN-MZXW-6YTB-OIWS-2LJN".
Proof. vm_compute. reflexivity. Qed.

(* ===================================================================== *)
(** ** Strings through encoding/json *)
(* ===================================================================== *)

Example round_trip_text : json.round_trip "demo, 2 seats" = "demo, 2 seats".
Proof. vm_compute. reflexivity. Qed.

(** Well-formed sequences of two, three and four bytes come back. *)
Example round_trip_utf8 :
  json.round_trip (Bytes.to_string [195; 169; 226; 130; 172; 240; 159; 146; 150]%N)
  = Bytes.to_string [195; 169; 226; 130; 172; 240; 159; 146; 150]%N.
Proof. vm_compute. reflexivity. Qed.

(** The byte FF starts no sequence: it comes back as U+FFFD. *)
Example round_trip_FF :
  json.round_trip (Bytes.to_string [65; 255; 66]%N)
  = Bytes.to_string [65; 239; 191; 189; 66]%N.
Proof. vm_compute. reflexivity. Qed.

(** A sequence cut short is replaced byte by byte, and so are a
    surrogate (ED A0 80) and an overlong form (C0 AF). *)
Example round_trip_truncated :
  json.round_trip (Bytes.to_string [226; 130]%N)
  = Bytes.to_string [239; 191; 189; 239; 191; 189]%N.
Proof. vm_compute. reflexivity. Qed.

Example round_trip_surrogate :
  json.round_trip (Bytes.to_string [237; 160; 128]%N)
  = Bytes.to_string [239; 191; 189; 239; 191; 189; 239; 191; 189]%N.
Proof. vm_compute. reflexivity. Qed.

Example round_trip_overlong :
  json.round_trip (Bytes.to_string [192; 175]%N)
  = Bytes.to_string [239; 191; 189; 239; 191; 189]%N.
Proof. vm_compute. reflexivity. Qed.

Lemma of_string_app s1 s2 :
  Bytes.of_string (s1 ++ s2) = (Bytes.of_string s1 ++ Bytes.of_string s2)%list.
Proof. induction s1 as [|c r IH]; simpl; [done|]. by rewrite IH. Qed.

Lemma of_string_bytes s : Forall (fun b => (b < 256)%N) (Bytes.of_string s).
Proof.
  induction s as [|c r IH]; simpl; constructor; [apply N_ascii_bounded | exact IH].
Qed.

Lemma of_to_string l :
  Forall (fun b => (b < 256)%N) l → Bytes.of_string (Bytes.to_string l) = l.
Proof.
  induction 1 as [|b t Hb _ IH]; simpl; [done|].
  by rewrite N_ascii_embedding, IH.
Qed.

(** A well-formed sequence is decoded from its own bytes alone: what
    follows it may change. *)
Lemma DecodeRune_stable b t c size :
  (Utf8.RuneSelf <=? b)%N = true →
  Utf8.DecodeRune (b :: t) = (c, size) →
  (c =? Utf8.RuneError)%N && (size =? 1)%nat = false →
  Utf8.DecodeRune (b :: json.round_trip_bytes (size - 1) t) = (c, size).
Proof.
  intros Hb Hd Hv. unfold Utf8.DecodeRune in *.
  destruct (b <? Utf8.RuneSelf)%N eqn:Hlt.
  { apply N.ltb_lt in Hlt. apply N.leb_le in Hb. lia. }
  assert (Hbad : ∀ X : N * nat, (Utf8.RuneError, 1%nat) = (c, size) → X = (c, size)).
  { intros X [= <- <-]. done. }
  unfold Utf8.lead in *.
  repeat (match type of Hd with
          | context [if ?x then _ else _] => destruct x eqn:?
          end; try (by apply Hbad));
  cbn [List.length Nat.ltb Nat.leb] in *; try discriminate.
  all: repeat match type of Hd with
       | context [match ?l with [] => _ | _ :: _ => _ end] =>
         destruct l; try (by apply Hbad)
       | context [if ?x then _ else _] => destruct x eqn:?; try (by apply Hbad)
       end.
  all: injection Hd as <- <-;
    cbn [json.round_trip_bytes Nat.sub List.length Nat.ltb Nat.leb].
  all: repeat match goal with H : ?x = _ |- context [?x] => rewrite H end; try done.
Qed.

(** A string that came back from a document comes back from its own
    document as it is. *)
Lemma round_trip_bytes_idem s : ∀ pending,
  json.round_trip_bytes pending (json.round_trip_bytes pending s)
  = json.round_trip_bytes pending s.
Proof.
  induction s as [|b t IH]; intros pending; [done|].
  destruct pending as [|p]; cbn [json.round_trip_bytes].
  - destruct (b <? Utf8.RuneSelf)%N eqn:Hlt.
    + cbn [json.round_trip_bytes]. rewrite Hlt. by rewrite IH.
    + destruct (Utf8.DecodeRune (b :: t)) as [c size] eqn:Hd.
      destruct ((c =? Utf8.RuneError)%N && (size =? 1)%nat) eqn:Hv.
      * change (json.round_trip_bytes 0 (239 :: 191 :: 189 :: ?l)%N)
          with (239 :: 191 :: 189 :: json.round_trip_bytes 0 l)%N.
        by rewrite IH.
      * cbn [json.round_trip_bytes]. rewrite Hlt.
        rewrite (DecodeRune_stable b t c size);
          [|by rewrite N.leb_antisym, Hlt|done|done].
        rewrite Hv. by rewrite IH.
  - cbn [json.round_trip_bytes]. by rewrite IH.
Qed.

Lemma round_trip_bytes_bounded s : ∀ pending,
  Forall (fun b => (b < 256)%N) s →
  Forall (fun b => (b < 256)%N) (json.round_trip_bytes pending s).
Proof.
  induction s as [|b t IH]; intros pending Hs; [constructor|].
  apply Forall_cons in Hs as [Hb Ht].
  destruct pending as [|p]; cbn [json.round_trip_bytes].
  - destruct (b <? Utf8.RuneSelf)%N; [by constructor; [|apply IH]|].
    destruct (Utf8.DecodeRune (b :: t)) as [c size].
    destruct ((c =? Utf8.RuneError)%N && (size =? 1)%nat).
    + repeat (constructor; [done|]). by apply IH.
    + constructor; [done|]. by apply IH.
  - constructor; [done|]. by apply IH.
Qed.

Lemma round_trip_idem s : json.round_trip (json.round_trip s) = json.round_trip s.
Proof.
  unfold json.round_trip. rewrite of_to_string.
  - by rewrite round_trip_bytes_idem.
  - apply round_trip_bytes_bounded, of_string_bytes.
Qed.

(** ASCII text comes back as it is. *)
Lemma round_trip_bytes_ascii s :
  Forall (fun b => (b < Utf8.RuneSelf)%N) s → json.round_trip_bytes 0 s = s.
Proof.
  induction 1 as [|b t Hb _ IH]; [done|]. cbn [json.round_trip_bytes].
  apply N.ltb_lt in Hb. by rewrite Hb, IH.
Qed.

Lemma round_trip_ascii s :
  Forall (fun b => (b < Utf8.RuneSelf)%N) (Bytes.of_string s) → json.round_trip s = s.
Proof.
  intros H. unfold json.round_trip. by rewrite round_trip_bytes_ascii, to_of_string.
Qed.

Lemma License_round_trip_idem lic :
  json.License_round_trip (json.License_round_trip lic) = json.License_round_trip lic.
Proof. unfold json.License_round_trip. simpl. by rewrite !round_trip_idem. Qed.

Lemma ServerBinding_round_trip_idem sb :
  json.ServerBinding_round_trip (json.ServerBinding_round_trip sb)
  = json.ServerBinding_round_trip sb.
Proof. unfold json.ServerBinding_round_trip. simpl. by rewrite round_trip_idem. Qed.

(** The keys [NewKey] makes are ASCII text, whatever the random bytes. *)
Lemma quintet_ascii g : (license.quintet g < Utf8.RuneSelf)%N.
Proof.
  unfold license.quintet. destruct (license.alphabet !! _) as [c|] eqn:Hc; simpl.
  - assert (Forall (fun c => (c < Utf8.RuneSelf)%N) license.alphabet) as H.
    { apply (bool_decide_unpack _). vm_compute. exact I. }
    rewrite Forall_forall in H. apply H. by eapply list_elem_of_lookup_2.
  - done.
Qed.

Lemma groups_Forall {A} (P : A → Prop) n l : ∀ cur,
  Forall P cur → Forall P l → Forall (Forall P) (license.groups n cur l).
Proof.
  induction l as [|x r IH]; intros cur Hcur Hl; cbn [license.groups].
  - destruct cur; [constructor|]. constructor; [|constructor].
    by apply Forall_rev.
  - apply Forall_cons in Hl as [Hx Hr].
    destruct (List.length cur + 1 =? n)%nat.
    + constructor.
      * apply Forall_rev. by constructor.
      * by apply IH.
    + apply IH; [by constructor | done].
Qed.

Lemma Join_ascii parts :
  Forall (fun p => Forall (fun b => (b < Utf8.RuneSelf)%N) (Bytes.of_string p)) parts →
  Forall (fun b => (b < Utf8.RuneSelf)%N) (Bytes.of_string (license.Join parts "-")).
Proof.
  induction 1 as [|p r Hp Hr IH]; [constructor|].
  cbn [license.Join]. destruct r as [|q r]; [done|].
  rewrite !of_string_app. apply Forall_app. split; [done|].
  apply Forall_app. split; [|exact IH].
  apply (bool_decide_unpack _). vm_compute. exact I.
Qed.

Lemma NewKey_ascii rnd key :
  license.NewKey rnd = Ok key → json.round_trip key = key.
Proof.
  destruct rnd as [b|e]; [|done]. intros [= <-]. apply round_trip_ascii.
  rewrite of_string_app. apply Forall_app. split.
  { apply (bool_decide_unpack _). vm_compute. exact I. }
  apply Join_ascii. rewrite Forall_map.
  eapply Forall_impl.
  - apply (groups_Forall (fun b => (b < Utf8.RuneSelf)%N)); [constructor|].
    unfold license.ToUpper, license.base32_encode. rewrite List.map_map.
    rewrite Forall_map. apply Forall_true. intros g. simpl.
    pose proof (quintet_ascii g) as Hq. unfold Utf8.RuneSelf in *.
    destruct ((97 <=? license.quintet g)%N && (license.quintet g <=? 122)%N); lia.
  - intros g Hg. simpl. rewrite of_to_string; [done|].
    eapply Forall_impl; [exact Hg|]. intros c Hc. simpl in Hc.
    unfold Utf8.RuneSelf in Hc. lia.
Qed.

Example scenario_create :
  (CreateLicense 2 "demo" Scenario.rnd 100 empty_DB).1
  = Ok (mkLicense Scenario.K 2 "demo" true 100).
Proof. vm_compute. reflexivity. Qed.

Example scenario_A :
  (Activate Scenario.K "A" 101 Scenario.s0).1 = Ok (mkActivateResult true "ok" 1 2 true).
Proof. vm_compute. reflexivity. Qed.

Example scenario_B :
  (Activate Scenario.K "B" 102 Scenario.s1).1 = Ok (mkActivateResult true "ok" 2 2 true).
Proof. vm_compute. reflexivity. Qed.

Example scenario_C :
  (Activate Scenario.K "C" 103 Scenario.s2).1
  = Ok (mkActivateResult false "limit_reached" 2 2 false).
Proof. vm_compute. reflexivity. Qed.

Example scenario_A_again :
  (Activate Scenario.K " A " 104 Scenario.s3).1 = Ok (mkActivateResult true "ok" 2 2 false)
  ∧ binding Scenario.s4 Scenario.K "A" = Some (mkServerBinding "A" 101 104 2).
Proof. vm_compute. split; reflexivity. Qed.

Example scenario_info :
  GetInfo Scenario.K Scenario.s4
  = Ok (mkLicenseInfo (mkLicense Scenario.K 2 "demo" true 100) 2
          [mkServerBinding "A" 101 104 2; mkServerBinding "B" 102 102 1]).
Proof. vm_compute. reflexivity. Qed.

(* ===================================================================== *)
(** ** Basic facts *)
(* ===================================================================== *)

Example wrap_int_overflow : wrap_int (max_int + 1) = min_int.
Proof. reflexivity. Qed.

Lemma wrap_int_id z : is_int z → wrap_int z = z.
Proof.
  unfold is_int, min_int, max_int, wrap_int. intros Hz.
  rewrite Z.mod_small by lia. lia.
Qed.

Lemma wrap_int_succ z : wrap_int (wrap_int z + 1) = wrap_int (z + 1).
Proof.
  unfold wrap_int.
  replace ((z + 2 ^ 63) mod 2 ^ 64 - 2 ^ 63 + 1 + 2 ^ 63)
    with ((z + 2 ^ 63) mod 2 ^ 64 + 1) by lia.
  rewrite Zplus_mod_idemp_l. f_equal. f_equal. lia.
Qed.

Lemma wrap_int_is_int z : is_int (wrap_int z).
Proof.
  unfold is_int, min_int, max_int, wrap_int.
  pose proof (Z.mod_pos_bound (z + 2 ^ 63) (2 ^ 64)). lia.
Qed.

(** [countKeys] is the size of the bucket, as an [int]. *)
Lemma countKeys_size {V} (b : gmap string V) :
  countKeys b = wrap_int (Z.of_nat (size b)).
Proof.
  unfold countKeys.
  apply (map_fold_weak_ind (fun r (m : gmap string V) => r = wrap_int (Z.of_nat (size m)))).
  - rewrite map_size_empty. reflexivity.
  - intros i x m r Hi ->. rewrite map_size_insert_None by done.
    rewrite wrap_int_succ. f_equal. lia.
Qed.

Lemma countKeys_small {V} (b : gmap string V) :
  Z.of_nat (size b) <= max_int → countKeys b = Z.of_nat (size b).
Proof.
  intros H. rewrite countKeys_size. apply wrap_int_id.
  unfold is_int, min_int in *. lia.
Qed.

Lemma length_nonempty (k : string) : k ≠ "" → String.length k ≠ 0%nat.
Proof. destruct k; simpl; [done | lia]. Qed.

Lemma validate_None key serverID :
  validate key serverID = None ↔ valid_args key serverID.
Proof.
  unfold validate, valid_args. case_decide as H.
  - split; [done | intros (? & ? & ?); tauto].
  - destruct (Z.ltb_spec 128 (Z.of_nat (String.length serverID))).
    + split; [done | intros (? & ? & ?); lia].
    + split; [intros _; split_and!; [tauto | tauto | lia] | done].
Qed.

Lemma Put_valid {V} (d : string) (v : V) (b : gmap string V) :
  d ≠ "" → Z.of_nat (String.length d) <= 128 →
  Bolt.Put d v b = Ok (<[d := v]> b).
Proof.
  intros Hd Hl. unfold Bolt.Put, Bolt.MaxKeySize.
  rewrite decide_False by (by apply length_nonempty).
  rewrite decide_False by lia. reflexivity.
Qed.

Lemma Activate_valid key serverID now s :
  valid_request key serverID →
  Activate key serverID now s
  = Bolt.Update (activate_tx (TrimSpace key) (TrimSpace serverID) now) s.
Proof.
  intros H. unfold Activate. apply validate_None in H. by rewrite H.
Qed.

(** The three ways the transaction of an enabled license ends, on valid
    arguments: a refresh, an admission, a rejection at the limit. *)
Section Transaction.
Context (key serverID : string) (now : Time) (s : DB) (lic : License).
Hypothesis Hvalid : valid_args key serverID.
Hypothesis Hlic : licenses s !! key = Some lic.
Hypothesis Hen : Enabled lic = true.

Lemma opened_bucket :
  match usage s !! key with
  | Some u => Ok (u, usage s)
  | None => Bolt.CreateBucketIfNotExists key (usage s)
  end
  = Ok (bindings_of s key,
        match usage s !! key with
        | Some _ => usage s
        | None => <[key := ∅]> (usage s)
        end).
Proof.
  destruct Hvalid as (Hk & _ & _). unfold bindings_of, Bolt.CreateBucketIfNotExists.
  destruct (usage s !! key) as [u|] eqn:Hu; simpl; [done|].
  by rewrite decide_False by (by apply length_nonempty).
Qed.

Lemma insert_opened (u' : gmap string ServerBinding) :
  <[key := u']> (match usage s !! key with
                 | Some _ => usage s
                 | None => <[key := ∅]> (usage s)
                 end)
  = <[key := u']> (usage s).
Proof. destruct (usage s !! key); [done | by rewrite insert_insert_eq]. Qed.

Lemma tx_refresh sb :
  binding s key serverID = Some sb →
  Bolt.Update (activate_tx key serverID now) s
  = (Ok (mkActivateResult true "ok" (countKeys (bindings_of s key)) (Limit lic) false),
     with_binding s key serverID (refreshed sb now)).
Proof.
  intros Hb. unfold with_binding, refreshed, Bolt.Update, activate_tx, getLicense.
  rewrite Hlic, Hen. simpl negb. cbv iota.
  rewrite opened_bucket. cbv zeta. unfold binding in Hb. rewrite Hb.
  unfold store_binding. destruct Hvalid as (_ & Hd & Hl).
  rewrite Put_valid by done. rewrite insert_opened.
  do 3 f_equal. rewrite !countKeys_size. do 2 f_equal.
  apply map_size_insert_Some. eauto.
Qed.

Lemma tx_admit :
  binding s key serverID = None →
  countKeys (bindings_of s key) < Limit lic →
  Bolt.Update (activate_tx key serverID now) s
  = (Ok (mkActivateResult true "ok"
           (countKeys (<[serverID := fresh_binding serverID now]> (bindings_of s key)))
           (Limit lic) true),
     with_binding s key serverID (fresh_binding serverID now)).
Proof.
  intros Hb Hlt. unfold with_binding, fresh_binding, Bolt.Update, activate_tx, getLicense.
  rewrite Hlic, Hen. simpl negb. cbv iota.
  rewrite opened_bucket. cbv zeta. unfold binding in Hb. rewrite Hb.
  destruct (Z.leb_spec (Limit lic) (countKeys (bindings_of s key))); [lia|].
  unfold store_binding. destruct Hvalid as (_ & Hd & Hl).
  rewrite Put_valid by done. by rewrite insert_opened.
Qed.

Lemma tx_full :
  binding s key serverID = None →
  Limit lic <= countKeys (bindings_of s key) →
  Bolt.Update (activate_tx key serverID now) s
  = (Ok (mkActivateResult false "limit_reached"
           (countKeys (bindings_of s key)) (Limit lic) false),
     with_bucket s key).
Proof.
  intros Hb Hge. unfold with_bucket, Bolt.Update, activate_tx, getLicense.
  rewrite Hlic, Hen. simpl negb. cbv iota.
  rewrite opened_bucket. cbv zeta. unfold binding in Hb. rewrite Hb.
  destruct (Z.leb_spec (Limit lic) (countKeys (bindings_of s key))); [done|lia].
Qed.
End Transaction.

(* ===================================================================== *)
(** ** What a transaction leaves in the ledger *)
(* ===================================================================== *)

Lemma bindings_of_put l (root : gmap string (gmap string ServerBinding)) k u k' :
  bindings_of (mkDB l (<[k := u]> root)) k'
  = if decide (k = k') then u else default ∅ (root !! k').
Proof.
  unfold bindings_of. simpl. case_decide as H.
  - subst. by rewrite lookup_insert_eq.
  - by rewrite lookup_insert_ne.
Qed.

Lemma bindings_of_with_binding s k d sb k' :
  bindings_of (with_binding s k d sb) k'
  = if decide (k = k') then <[d := sb]> (bindings_of s k) else bindings_of s k'.
Proof. unfold with_binding. by rewrite bindings_of_put. Qed.

Lemma binding_with_binding s k d sb k' d' :
  binding (with_binding s k d sb) k' d'
  = if decide (k = k' ∧ d = d') then Some sb else binding s k' d'.
Proof.
  unfold binding. rewrite bindings_of_with_binding.
  destruct (decide (k = k')) as [->|Hk].
  - destruct (decide (d = d')) as [->|Hd].
    + rewrite lookup_insert_eq. by rewrite decide_True.
    + rewrite lookup_insert_ne by done. rewrite decide_False; [done | tauto].
  - rewrite decide_False; [done | tauto].
Qed.

Lemma bindings_of_with_bucket s key k' :
  bindings_of (with_bucket s key) k' = bindings_of s k'.
Proof.
  unfold with_bucket. destruct (usage s !! key) eqn:Hu; [done|].
  rewrite bindings_of_put. case_decide; [|done].
  subst. unfold bindings_of. by rewrite Hu.
Qed.

Lemma binding_with_bucket s k k' d' :
  binding (with_bucket s k) k' d' = binding s k' d'.
Proof. unfold binding. by rewrite bindings_of_with_bucket. Qed.

(** Admissions in a row: from [j] bound devices, new distinct devices
    are admitted one by one while the limit allows. *)
Lemma run_admits key lic calls : ∀ s (j : nat),
  let k := TrimSpace key in
  licenses s !! k = Some lic → Enabled lic = true → Limit lic <= max_int →
  bound_count s k = j →
  Z.of_nat (j + List.length calls) <= Limit lic →
  NoDup (devices calls) →
  Forall (fun d => valid_args k d ∧ binding s k d = None) (devices calls) →
  let out := run_activates key calls s in
  out.1 = List.map (fun i => admitted (Z.of_nat i) (Limit lic) true)
                   (seq (S j) (List.length calls))
  ∧ licenses out.2 = licenses s
  ∧ bound_count out.2 k = (j + List.length calls)%nat
  ∧ (∀ d, binding out.2 k d = None ↔ binding s k d = None ∧ d ∉ devices calls)
  ∧ (∀ k', k' ≠ k → bindings_of out.2 k' = bindings_of s k').
Proof.
  induction calls as [|[d now] rest IH]; intros s j k Hlic Hen Hmax Hj Hle Hnd Hall;
    subst k; cbv zeta in *; set (k := TrimSpace key) in *.
  - simpl. split_and!; try done.
    + lia.
    + intros d. split; [intros ?; split; [done | apply not_elem_of_nil] | tauto].
  - simpl in Hnd, Hall. apply NoDup_cons in Hnd as [Hd Hnd].
    apply Forall_cons in Hall as [[Hv Hb] Hall].
    cbn [run_activates]. cbv zeta.
    assert (Hsz : size (bindings_of s k) = j) by exact Hj.
    assert (Hstep : Activate key d now s
      = (admitted (Z.of_nat (S j)) (Limit lic) true,
         with_binding s k (TrimSpace d) (fresh_binding (TrimSpace d) now))).
    { rewrite Activate_valid by exact Hv. fold k.
      rewrite (tx_admit k (TrimSpace d) now s lic Hv Hlic Hen Hb).
      - unfold admitted. do 3 f_equal. rewrite countKeys_small.
        + rewrite map_size_insert_None by exact Hb. by rewrite Hsz.
        + rewrite map_size_insert_None by exact Hb. rewrite Hsz.
          simpl in Hle. lia.
      - rewrite countKeys_small; rewrite Hsz; simpl in Hle; lia. }
    rewrite Hstep. cbn [fst snd].
    set (s1 := with_binding _ _ _ _).
    assert (Hb1 : ∀ d', binding s1 k d' = None ↔ binding s k d' = None ∧ d' ≠ TrimSpace d).
    { intros d'. unfold s1. rewrite binding_with_binding.
      destruct (decide (d' = TrimSpace d)) as [->|Hne].
      - rewrite decide_True by done. split; [done | tauto].
      - rewrite decide_False by (intros [_ ?]; done). tauto. }
    destruct (IH s1 (S j)) as (Hout & Hl & Hc & Hbs & Hoth).
    + exact Hlic.
    + exact Hen.
    + exact Hmax.
    + unfold bound_count, s1. rewrite bindings_of_with_binding, decide_True by done.
      rewrite map_size_insert_None by exact Hb. by rewrite Hsz.
    + simpl in Hle. lia.
    + exact Hnd.
    + rewrite Forall_forall in Hall |- *. intros d' Hin.
      destruct (Hall d' Hin) as [Hv' Hb']. split; [done|].
      apply Hb1. split; [done|]. intros ->. by apply Hd.
    + split_and!.
      * simpl. f_equal. exact Hout.
      * by rewrite Hl.
      * rewrite Hc. simpl. lia.
      * intros d'. rewrite Hbs, Hb1.
        change (devices ((d, now) :: rest)) with (TrimSpace d :: devices rest).
        rewrite not_elem_of_cons. tauto.
      * intros k' Hk'. rewrite (Hoth k' Hk'). unfold s1.
        rewrite bindings_of_with_binding, decide_False by done. done.
Qed.

(* ===================================================================== *)
(** ** Admission up to the limit *)
(* ===================================================================== *)

(** C1.  On a present, enabled license of limit L with no device bound
    yet, a sequence of Activate calls for L distinct valid device ids is
    admitted call by call: the i-th verdict is ok=true, newly_bound=true,
    used=i, so used runs from 1 to L.  A further call for one more
    distinct device is then rejected with reason limit_reached, used=L and
    the license limit, and leaves every binding and every license record
    as it was. *)
Theorem Activate_fills_to_limit key lic calls extra now s :
  licenses s !! TrimSpace key = Some lic →
  Enabled lic = true →
  Limit lic <= max_int →
  bindings_of s (TrimSpace key) = ∅ →
  Z.of_nat (List.length calls) = Limit lic →
  NoDup (devices calls ++ [TrimSpace extra]) →
  Forall (valid_args (TrimSpace key)) (devices calls ++ [TrimSpace extra]) →
  let out := run_activates key calls s in
  let last := Activate key extra now out.2 in
  out.1 = List.map (fun i => admitted (Z.of_nat i) (Limit lic) true)
                   (seq 1 (List.length calls))
  ∧ last.1 = Ok (mkActivateResult false "limit_reached" (Limit lic) (Limit lic) false)
  ∧ licenses last.2 = licenses out.2
  ∧ ∀ k' d, binding last.2 k' d = binding out.2 k' d.
Proof.
  intros Hlic Hen Hmax Hfresh Hlen Hnd Hall out last.
  apply NoDup_app in Hnd as (Hnd & Hdisj & _).
  apply Forall_app in Hall as [Hall Hextra].
  rewrite Forall_singleton in Hextra.
  destruct (run_admits key lic calls s 0) as (Hout & Hl & Hc & Hbs & Hoth).
  - exact Hlic.
  - exact Hen.
  - exact Hmax.
  - unfold bound_count. rewrite Hfresh. apply map_size_empty.
  - simpl. lia.
  - exact Hnd.
  - eapply Forall_impl; [exact Hall|]. intros d Hd. split; [done|].
    unfold binding. by rewrite Hfresh.
  - fold out in Hout, Hl, Hc, Hbs, Hoth.
    assert (Hnone : binding out.2 (TrimSpace key) (TrimSpace extra) = None).
    { apply Hbs. split.
      - unfold binding. by rewrite Hfresh.
      - intros Hin. apply (Hdisj _ Hin). apply list_elem_of_singleton. done. }
    assert (Hcount : countKeys (bindings_of out.2 (TrimSpace key)) = Limit lic).
    { rewrite countKeys_small; fold (bound_count out.2 (TrimSpace key));
        rewrite Hc; simpl; lia. }
    assert (Hlast : last
      = (Ok (mkActivateResult false "limit_reached" (Limit lic) (Limit lic) false),
         with_bucket out.2 (TrimSpace key))).
    { unfold last. rewrite Activate_valid by exact Hextra.
      rewrite (tx_full _ _ now out.2 lic Hextra); [by rewrite Hcount | by rewrite Hl
        | exact Hen | exact Hnone | lia]. }
    split_and!; [exact Hout | by rewrite Hlast | by rewrite Hlast |].
    intros k' d. rewrite Hlast. cbn [snd]. apply binding_with_bucket.
Qed.

Lemma Activate_fills_to_limit_witness :
  (run_activates Scenario.K [("A", 101); (" B", 102)] Scenario.s0).1
  = [admitted 1 2 true; admitted 2 2 true]
  ∧ (Activate Scenario.K "C" 103 Scenario.s2).1
    = Ok (mkActivateResult false "limit_reached" 2 2 false).
Proof.
  pose proof (Activate_fills_to_limit Scenario.K
    (mkLicense Scenario.K 2 "demo" true 100)
    [("A", 101); (" B", 102)] "C" 103 Scenario.s0) as H.
  destruct H as (H1 & H2 & _).
  - vm_compute. reflexivity.
  - reflexivity.
  - vm_compute. discriminate.
  - vm_compute. reflexivity.
  - reflexivity.
  - apply (bool_decide_unpack _). vm_compute. exact I.
  - apply (bool_decide_unpack _). vm_compute. exact I.
  - split; [exact H1 | exact H2].
Defined.

(* ===================================================================== *)
(** ** Every call ends in one of the seven outcomes *)
(* ===================================================================== *)

Lemma Activate_outcome key serverID now s :
  outcome (TrimSpace key) (TrimSpace serverID) now s (Activate key serverID now s).
Proof.
  unfold Activate. set (k := TrimSpace key). set (d := TrimSpace serverID).
  destruct (validate k d) as [r|] eqn:Hv.
  - unfold validate in Hv. case_decide as He.
    + injection Hv as <-. by constructor.
    + destruct (Z.ltb_spec 128 (Z.of_nat (String.length d))); [|done].
      injection Hv as <-. constructor; [tauto | tauto | done].
  - apply validate_None in Hv.
    destruct (licenses s !! k) as [lic|] eqn:Hlic.
    + destruct (Enabled lic) eqn:Hen.
      * destruct (binding s k d) as [sb|] eqn:Hb.
        -- rewrite (tx_refresh k d now s lic Hv Hlic Hen sb Hb).
           by eapply out_refresh.
        -- destruct (Z.le_gt_cases (Limit lic) (countKeys (bindings_of s k))).
           ++ rewrite (tx_full k d now s lic Hv Hlic Hen Hb) by done.
              by eapply out_limit_reached.
           ++ rewrite (tx_admit k d now s lic Hv Hlic Hen Hb) by done.
              by eapply out_admit.
      * replace (Bolt.Update (activate_tx k d now) s)
          with (Ok (mkActivateResult false "disabled" 0 (Limit lic) false), s).
        { by eapply out_disabled. }
        unfold Bolt.Update, activate_tx, getLicense. by rewrite Hlic, Hen.
    + replace (Bolt.Update (activate_tx k d now) s)
        with (Ok (mkActivateResult false "not_found" 0 0 false), s).
      { by eapply out_not_found. }
      unfold Bolt.Update, activate_tx, getLicense. by rewrite Hlic.
Qed.

(** The outcome relation is a function of the state: a present, enabled
    license and a bound device leave only the refresh. *)
Lemma Activate_refresh key serverID now s lic sb :
  valid_request key serverID →
  licenses s !! TrimSpace key = Some lic → Enabled lic = true →
  binding s (TrimSpace key) (TrimSpace serverID) = Some sb →
  Activate key serverID now s
  = (admitted (countKeys (bindings_of s (TrimSpace key))) (Limit lic) false,
     with_binding s (TrimSpace key) (TrimSpace serverID) (refreshed sb now)).
Proof.
  intros Hv Hlic Hen Hb. rewrite Activate_valid by done.
  by rewrite (tx_refresh _ _ now s lic Hv Hlic Hen sb Hb).
Qed.

Lemma Activate_disabled key serverID now s lic :
  valid_request key serverID →
  licenses s !! TrimSpace key = Some lic → Enabled lic = false →
  Activate key serverID now s
  = (Ok (mkActivateResult false "disabled" 0 (Limit lic) false), s).
Proof.
  intros Hv Hlic Hen. rewrite Activate_valid by done.
  unfold Bolt.Update, activate_tx, getLicense. by rewrite Hlic, Hen.
Qed.

Lemma Activate_licenses key serverID now s :
  licenses (Activate key serverID now s).2 = licenses s.
Proof. by destruct (Activate_outcome key serverID now s). Qed.

(* ===================================================================== *)
(** ** Re-activation of a bound device *)
(* ===================================================================== *)

(** C2, as stated, fails on the last_seen clause.  Two calls for the
    same device of the license of limit 2 overlap: call 0 reads the clock
    at 101, call 1 reads it at 102 and commits first (a new binding, last
    seen 102); call 0 commits next, a refresh with ok=true and
    newly_bound=false, and writes its own reading: last_seen goes from
    102 back to 101, below first_seen, though the clock never ran
    backwards. *)
Lemma refresh_lowers_last_seen :
  let sys0 := Concurrent.mkSystem
                (Concurrent.arrivals Scenario.K ["A"; "A"]) Scenario.s0 100 in
  let before := Concurrent.run [(0, 1); (1, 1); (1, 1)]%nat sys0 in
  let after := Concurrent.step before (0%nat, 1%nat) in
  Concurrent.pool before !! 0%nat = Some (Concurrent.Waiting Scenario.K "A" 101)
  ∧ binding (Concurrent.db before) Scenario.K "A"
    = Some (mkServerBinding "A" 102 102 1)
  ∧ Activate Scenario.K "A" 101 (Concurrent.db before)
    = (admitted 1 2 false, Concurrent.db after)
  ∧ Concurrent.pool after !! 0%nat = Some (Concurrent.Returned (admitted 1 2 false))
  ∧ binding (Concurrent.db after) Scenario.K "A"
    = Some (mkServerBinding "A" 102 101 2)
  ∧ ¬ (LastSeen (mkServerBinding "A" 102 102 1)
       <= LastSeen (mkServerBinding "A" 102 101 2)).
Proof.
  cbv zeta. split_and!; [vm_compute; reflexivity .. | simpl; lia].
Qed.

(** C2, amended.  For a present, enabled license and a device already
    bound under it, Activate on valid arguments succeeds with ok=true and
    newly_bound=false whatever the binding count and the limit are.  The
    reported used is the count of the bucket, which the call leaves as it
    was.  The binding keeps its first_seen; its seen_count goes up by one
    as a 64-bit int, that is by exactly one below the maximum int; its
    last_seen becomes the clock reading of the call, which is not earlier
    than the previous value whenever that reading is not. *)
Theorem Activate_bound_device key serverID now s lic sb :
  valid_request key serverID →
  licenses s !! TrimSpace key = Some lic →
  Enabled lic = true →
  binding s (TrimSpace key) (TrimSpace serverID) = Some sb →
  let out := Activate key serverID now s in
  ∃ sb',
    out.1 = admitted (countKeys (bindings_of s (TrimSpace key))) (Limit lic) false
    ∧ countKeys (bindings_of out.2 (TrimSpace key))
      = countKeys (bindings_of s (TrimSpace key))
    ∧ bound_count out.2 (TrimSpace key) = bound_count s (TrimSpace key)
    ∧ binding out.2 (TrimSpace key) (TrimSpace serverID) = Some sb'
    ∧ FirstSeen sb' = FirstSeen sb
    ∧ SeenCount sb' = wrap_int (SeenCount sb + 1)
    ∧ (is_int (SeenCount sb) → SeenCount sb < max_int →
       SeenCount sb' = SeenCount sb + 1)
    ∧ LastSeen sb' = now
    ∧ (LastSeen sb <= now → LastSeen sb <= LastSeen sb').
Proof.
  intros Hv Hlic Hen Hb out. exists (refreshed sb now).
  unfold out. rewrite (Activate_refresh key serverID now s lic sb) by done.
  cbn [fst snd].
  assert (Hsize : bound_count (with_binding s (TrimSpace key) (TrimSpace serverID)
                                 (refreshed sb now)) (TrimSpace key)
                  = bound_count s (TrimSpace key)).
  { unfold bound_count. rewrite bindings_of_with_binding, decide_True by done.
    apply map_size_insert_Some. eauto. }
  split_and!; try done.
  - rewrite !countKeys_size. do 2 f_equal. exact Hsize.
  - rewrite binding_with_binding. by rewrite decide_True.
  - intros Hint Hlt. simpl. apply wrap_int_id. unfold is_int, min_int in *. lia.
Qed.

Lemma Activate_bound_device_witness :
  ∃ sb',
    (Activate Scenario.K " A " 104 Scenario.s3).1 = admitted 2 2 false
    ∧ binding (Activate Scenario.K " A " 104 Scenario.s3).2 Scenario.K "A" = Some sb'
    ∧ SeenCount sb' = 2 ∧ LastSeen sb' = 104 ∧ FirstSeen sb' = 101.
Proof.
  destruct (Activate_bound_device Scenario.K " A " 104 Scenario.s3
              (mkLicense Scenario.K 2 "demo" true 100)
              (mkServerBinding "A" 101 101 1))
    as (sb' & H1 & _ & _ & H4 & H5 & H6 & _ & H8 & _).
  - apply (bool_decide_unpack _). vm_compute. exact I.
  - vm_compute. reflexivity.
  - reflexivity.
  - vm_compute. reflexivity.
  - exists sb'. split_and!; [exact H1 | exact H4 | exact H6 | exact H8 | exact H5].
Defined.

(* ===================================================================== *)
(** ** Registry updates *)
(* ===================================================================== *)

Lemma Put_wf {V} k lic (v : V) (b : gmap string V) :
  wf_license k lic → Bolt.Put k v b = Ok (<[k := v]> b).
Proof.
  intros (_ & Hk & Hl). unfold Bolt.Put.
  rewrite decide_False by (by apply length_nonempty).
  by rewrite decide_False by lia.
Qed.

Lemma SetEnabled_found key enabled s lic :
  wf_DB s → licenses s !! key = Some lic →
  SetEnabled key enabled s
  = (Ok (set_enabled lic enabled),
     mkDB (<[key := set_enabled lic enabled]> (licenses s)) (usage s)).
Proof.
  intros Hwf Hlic. pose proof (Hwf key lic Hlic) as Hw.
  unfold SetEnabled, Bolt.Update, getLicense, putLicense. rewrite Hlic.
  unfold set_enabled. cbn [Key]. destruct Hw as (HK & Hw). rewrite HK.
  by rewrite (Put_wf key lic) by (by split).
Qed.

Lemma SetLimit_found key limit s lic :
  0 < limit → wf_DB s → licenses s !! key = Some lic →
  SetLimit key limit s
  = (Ok (set_limit lic limit),
     mkDB (<[key := set_limit lic limit]> (licenses s)) (usage s)).
Proof.
  intros Hpos Hwf Hlic. pose proof (Hwf key lic Hlic) as Hw.
  unfold SetLimit, Bolt.Update, getLicense, putLicense.
  destruct (Z.leb_spec limit 0); [lia|]. rewrite Hlic.
  unfold set_limit. cbn [Key]. destruct Hw as (HK & Hw). rewrite HK.
  by rewrite (Put_wf key lic) by (by split).
Qed.

Lemma set_enabled_same lic : set_enabled lic (Enabled lic) = lic.
Proof. by destruct lic. Qed.

(** Calls on a disabled license are all turned away and leave the
    database as it is. *)
Lemma run_disabled key lic calls s :
  licenses s !! TrimSpace key = Some lic → Enabled lic = false →
  Forall (valid_args (TrimSpace key)) (devices calls) →
  run_activates key calls s
  = (replicate (List.length calls) (disabled_verdict lic), s).
Proof.
  intros Hlic Hen. induction calls as [|[d now] rest IH]; intros Hall; [done|].
  change (devices ((d, now) :: rest)) with (TrimSpace d :: devices rest) in Hall.
  apply Forall_cons in Hall as [Hv Hall].
  cbn [run_activates]. cbv zeta.
  rewrite (Activate_disabled key d now s lic) by done. cbn [fst snd].
  rewrite IH by done. done.
Qed.

(* ===================================================================== *)
(** ** Disabling and re-enabling *)
(* ===================================================================== *)

(** C3.  SetEnabled(key, false) leaves the usage buckets, hence every
    binding, as they were.  While the license is disabled every Activate
    call on valid arguments, for a bound or a new device, is rejected
    with ok=false, reason disabled and the license's limit, and changes
    nothing.  SetEnabled(key, true) after that gives the very result and
    database that it gives without the disabling and the rejected calls:
    the license is admitted to again as if it had never been disabled,
    and when it was enabled to begin with the database is back to what
    it was. *)
Theorem disable_blocks_enable_restores s k lic key calls :
  wf_DB s →
  licenses s !! k = Some lic →
  TrimSpace key = k →
  Forall (valid_args k) (devices calls) →
  let off := SetEnabled k false s in
  let mid := run_activates key calls off.2 in
  let on := SetEnabled k true mid.2 in
  off.1 = Ok (set_enabled lic false)
  ∧ usage off.2 = usage s
  ∧ mid.1 = replicate (List.length calls) (disabled_verdict lic)
  ∧ mid.2 = off.2
  ∧ on = SetEnabled k true s
  ∧ (Enabled lic = true → on = (Ok lic, s)).
Proof.
  intros Hwf Hlic Hk Hall off mid on.
  pose proof (Hwf k lic Hlic) as (HK & Hne & Hlen).
  assert (Hoff : off = (Ok (set_enabled lic false),
                        mkDB (<[k := set_enabled lic false]> (licenses s)) (usage s))).
  { by apply SetEnabled_found. }
  assert (Hmid : mid = (replicate (List.length calls) (disabled_verdict lic), off.2)).
  { unfold mid. rewrite Hoff. cbn [snd].
    apply (run_disabled key (set_enabled lic false)).
    - rewrite Hk. cbn [licenses]. by rewrite lookup_insert_eq.
    - done.
    - by rewrite Hk. }
  assert (Hon : on = SetEnabled k true s).
  { unfold on. rewrite Hmid, Hoff. cbn [snd].
    rewrite (SetEnabled_found k true _ (set_enabled lic false)).
    - rewrite (SetEnabled_found k true s lic) by done.
      cbn [licenses usage]. by rewrite insert_insert_eq.
    - intros k' lic'. cbn [licenses]. rewrite lookup_insert.
      case_decide as Hkk; [|by apply Hwf].
      intros [= <-]. subst k'. by split.
    - cbn [licenses]. by rewrite lookup_insert_eq. }
  split_and!.
  - by rewrite Hoff.
  - by rewrite Hoff.
  - by rewrite Hmid.
  - by rewrite Hmid.
  - exact Hon.
  - intros Hen. rewrite Hon, (SetEnabled_found k true s lic) by done.
    rewrite <- Hen, set_enabled_same. rewrite insert_id by done. by destruct s.
Qed.

Lemma disable_blocks_enable_restores_witness :
  let off := SetEnabled Scenario.K false Scenario.s2 in
  let mid := run_activates Scenario.K [("A", 200); ("Z", 201)] off.2 in
  mid.1 = [Ok (mkActivateResult false "disabled" 0 2 false);
           Ok (mkActivateResult false "disabled" 0 2 false)]
  ∧ (SetEnabled Scenario.K true mid.2).2 = Scenario.s2.
Proof.
  destruct (disable_blocks_enable_restores Scenario.s2 Scenario.K
              (mkLicense Scenario.K 2 "demo" true 100) Scenario.K
              [("A", 200); ("Z", 201)])
    as (_ & _ & H3 & _ & _ & H6).
  - apply (bool_decide_unpack _). vm_compute. exact I.
  - vm_compute. reflexivity.
  - vm_compute. reflexivity.
  - apply (bool_decide_unpack _). vm_compute. exact I.
  - cbv zeta. split; [exact H3 | by rewrite (H6 eq_refl)].
Defined.

(* ===================================================================== *)
(** ** The argument checks *)
(* ===================================================================== *)

(** C4, as stated, fails: the length check counts bytes.  A device id of
    exactly 128 characters, each the two-byte U+00E9, is 256 bytes long
    and is rejected with server_id_too_long. *)
Lemma id_of_128_characters_rejected :
  char_count (TrimSpace (accented_id 128)) = 128%nat
  ∧ String.length (TrimSpace (accented_id 128)) = 256%nat
  ∧ Activate Scenario.K (accented_id 128) 101 Scenario.s0
    = (Ok (mkActivateResult false "server_id_too_long" 0 0 false), Scenario.s0).
Proof. split_and!; vm_compute; reflexivity. Qed.

(** C4, amended.  Activate trims both arguments first.  If either is
    empty after trimming it returns ok=false with reason invalid_request;
    otherwise, if the trimmed device id is longer than 128 bytes, it
    returns ok=false with reason server_id_too_long.  Both verdicts are
    the same on every database and leave it untouched: they are reached
    before the license is looked up.  A trimmed device id of at most 128
    bytes, so one of exactly 128, is rejected by neither check. *)
Theorem Activate_checks_arguments key serverID now s :
  let k := TrimSpace key in
  let d := TrimSpace serverID in
  (k = "" ∨ d = "" →
   Activate key serverID now s
   = (Ok (mkActivateResult false "invalid_request" 0 0 false), s))
  ∧ (k ≠ "" → d ≠ "" → 128 < Z.of_nat (String.length d) →
     Activate key serverID now s
     = (Ok (mkActivateResult false "server_id_too_long" 0 0 false), s))
  ∧ (k ≠ "" → d ≠ "" → Z.of_nat (String.length d) <= 128 →
     ∃ r, (Activate key serverID now s).1 = Ok r
          ∧ Reason r ≠ "invalid_request" ∧ Reason r ≠ "server_id_too_long").
Proof.
  intros k d. pose proof (Activate_outcome key serverID now s) as Hout.
  fold k d in Hout. split_and!.
  - intros He. destruct Hout as [| | Hv | ? Hv | ? ? Hv | ? Hv | ? Hv]; try done;
      try (destruct Hv as (? & ? & ?); tauto). tauto.
  - intros Hk Hd Hlen.
    destruct Hout as [He | | Hv | ? Hv | ? ? Hv | ? Hv | ? Hv]; try done;
      try (destruct Hv as (? & ? & ?); lia). tauto.
  - intros Hk Hd Hlen.
    destruct Hout as [He | | | | | |]; [tauto | lia | ..];
      (eexists; split; [reflexivity | split; discriminate]).
Qed.

Lemma Activate_checks_arguments_witness :
  Activate "  " "A" 5 Scenario.s2
  = (Ok (mkActivateResult false "invalid_request" 0 0 false), Scenario.s2)
  ∧ Activate Scenario.K (accented_id 65) 5 Scenario.s2
    = (Ok (mkActivateResult false "server_id_too_long" 0 0 false), Scenario.s2)
  ∧ ∃ r, (Activate Scenario.K (accented_id 64) 5 Scenario.s2).1 = Ok r
         ∧ Reason r ≠ "invalid_request" ∧ Reason r ≠ "server_id_too_long".
Proof.
  split_and!.
  - apply (proj1 (Activate_checks_arguments "  " "A" 5 Scenario.s2)).
    left. vm_compute. reflexivity.
  - apply (proj1 (proj2 (Activate_checks_arguments Scenario.K (accented_id 65) 5
                           Scenario.s2))).
    + vm_compute. discriminate.
    + vm_compute. discriminate.
    + vm_compute. reflexivity.
  - apply (proj2 (proj2 (Activate_checks_arguments Scenario.K (accented_id 64) 5
                           Scenario.s2))).
    + vm_compute. discriminate.
    + vm_compute. discriminate.
    + vm_compute. discriminate.
Defined.

(* ===================================================================== *)
(** ** One side effect at most *)
(* ===================================================================== *)

(** C6.  Every Activate call returns its verdict with a nil error and
    leaves the license records as they are.  With ok=false the reason is
    one of invalid_request, server_id_too_long, not_found, disabled and
    limit_reached, and no binding is created, changed or deleted.  With
    ok=true the reason is ok and exactly one binding, that of the trimmed
    key and device id, differs: either there was none and the call
    created it (newly_bound=true, first and last seen now, seen once,
    the device id as server_id, as the JSON document keeps it), or there
    was one and the call refreshed it (newly_bound=false). *)
Theorem Activate_one_side_effect key serverID now s :
  let k := TrimSpace key in
  let d := TrimSpace serverID in
  let out := Activate key serverID now s in
  ∃ r, out.1 = Ok r
    ∧ licenses out.2 = licenses s
    ∧ (OK r = false →
       Reason r ∈ ["invalid_request"; "server_id_too_long"; "not_found";
                   "disabled"; "limit_reached"]
       ∧ ∀ k' d', binding out.2 k' d' = binding s k' d')
    ∧ (OK r = true →
       Reason r = "ok"
       ∧ (∀ k' d', ¬ (k' = k ∧ d' = d) → binding out.2 k' d' = binding s k' d')
       ∧ ((NewlyBound r = true ∧ binding s k d = None
           ∧ binding out.2 k d = Some (fresh_binding d now))
          ∨ (NewlyBound r = false
             ∧ ∃ sb, binding s k d = Some sb
                     ∧ binding out.2 k d = Some (refreshed sb now)))).
Proof.
  intros k d out. pose proof (Activate_outcome key serverID now s) as Hout.
  fold k d out in Hout.
  destruct Hout as [He | Hk Hd Hl | Hv Hn | lic Hv Hlic Hen | lic sb Hv Hlic Hen Hb
                    | lic Hv Hlic Hen Hb Hc | lic Hv Hlic Hen Hb Hc];
    eexists; (split; [reflexivity|]); cbn [fst snd OK Reason NewlyBound].
  1-4: split_and!; [done | intros _; split; [repeat constructor | done] | done].
  - split_and!; [done | done |]. intros _. split_and!; [done | |].
    + intros k' d' Hne. rewrite binding_with_binding.
      rewrite decide_False; [done|]. intros [-> ->]. by apply Hne.
    + right. split; [done|]. exists sb. split; [done|].
      rewrite binding_with_binding. by rewrite decide_True.
  - split_and!; [done | | done]. intros _. split; [repeat constructor|].
    intros k' d'. apply binding_with_bucket.
  - split_and!; [done | done |]. intros _. split_and!; [done | |].
    + intros k' d' Hne. rewrite binding_with_binding.
      rewrite decide_False; [done|]. intros [-> ->]. by apply Hne.
    + left. split_and!; [done | done |].
      rewrite binding_with_binding. by rewrite decide_True.
Qed.

(* ===================================================================== *)
(** ** The verdict on a disabled license *)
(* ===================================================================== *)

(** C10.  When Activate rejects because the license is disabled, the
    verdict has used = 0, the zero value, however many devices are bound
    to the license, and limit = the license's limit. *)
Theorem Activate_disabled_reports_zero_used key serverID now s lic :
  valid_request key serverID →
  licenses s !! TrimSpace key = Some lic →
  Enabled lic = false →
  ∃ r, (Activate key serverID now s).1 = Ok r
    ∧ OK r = false ∧ Reason r = "disabled"
    ∧ Used r = 0 ∧ ResLimit r = Limit lic.
Proof.
  intros Hv Hlic Hen. rewrite (Activate_disabled key serverID now s lic) by done.
  eexists. split; [reflexivity|]. done.
Qed.

Lemma Activate_disabled_reports_zero_used_witness :
  bound_count (SetEnabled Scenario.K false Scenario.s2).2 Scenario.K = 2%nat
  ∧ ∃ r, (Activate Scenario.K "A" 300 (SetEnabled Scenario.K false Scenario.s2).2).1
         = Ok r
      ∧ OK r = false ∧ Reason r = "disabled" ∧ Used r = 0 ∧ ResLimit r = 2.
Proof.
  split; [vm_compute; reflexivity|].
  apply (Activate_disabled_reports_zero_used Scenario.K "A" 300
           (SetEnabled Scenario.K false Scenario.s2).2
           (mkLicense Scenario.K 2 "demo" false 100)).
  - apply (bool_decide_unpack _). vm_compute. exact I.
  - vm_compute. reflexivity.
  - reflexivity.
Defined.

(* ===================================================================== *)
(** ** Creating a license *)
(* ===================================================================== *)

(** The key of a 20-byte buffer is the prefix and eight groups of four:
    47 bytes, whatever the bytes are. *)
Lemma NewKey_length b :
  List.length b = 20%nat →
  ∃ key, license.NewKey (Ok b) = Ok key ∧ String.length key = 47%nat.
Proof.
  intros Hb.
  do 20 (destruct b as [|? b]; [discriminate Hb|]).
  destruct b; [|discriminate Hb].
  eexists. split; [reflexivity|]. vm_compute. reflexivity.
Qed.

(** C7, as stated, fails on the note.  CreateLicense keeps in the
    bucket the JSON document of the record, and the caller gets the
    record itself.  A note of the single byte FF is no UTF-8: the call
    returns a License with that note, the document holds U+FFFD in its
    place, and that is what GetInfo reads from then on. *)
Lemma note_stored_with_replacement :
  let note := Bytes.to_string [255]%N in
  let kept := Bytes.to_string [239; 191; 189]%N in
  let created := CreateLicense 1 note Scenario.rnd 100 empty_DB in
  created.1 = Ok (mkLicense Scenario.K 1 note true 100)
  ∧ licenses created.2 !! Scenario.K = Some (mkLicense Scenario.K 1 kept true 100)
  ∧ GetInfo Scenario.K created.2
    = Ok (mkLicenseInfo (mkLicense Scenario.K 1 kept true 100) 0 [])
  ∧ kept ≠ note.
Proof.
  cbv zeta. split_and!; [vm_compute; reflexivity .. | vm_compute; discriminate].
Qed.

(** C7, amended.  CreateLicense with limit <= 0 fails with the
    invalid-argument error and leaves the database unchanged.  With
    limit > 0 and a key generated from the 20 random bytes, it fails
    with the conflict error, again without a change, when a license is
    already stored under that key; otherwise it returns the License of
    that key, the given limit and note, enabled=true and created_at the
    clock reading, opens the license's usage bucket, and stores under
    the key that record with the note as its JSON document keeps it:
    the given note when it is well-formed UTF-8, and the note with
    U+FFFD for each byte that is part of no well-formed sequence
    otherwise. *)
Theorem CreateLicense_outcomes limit note rnd now s :
  (limit <= 0 →
   CreateLicense limit note rnd now s = (Err (Errorf "limit must be > 0"), s)
   ∧ classify (Errorf "limit must be > 0") = InvalidArgument)
  ∧ (0 < limit → ∀ b, rnd = Ok b → List.length b = 20%nat →
     ∃ key, license.NewKey rnd = Ok key
       ∧ (is_Some (licenses s !! key) →
          CreateLicense limit note rnd now s
          = (Err (Errorf "key collision, try again"), s)
          ∧ classify (Errorf "key collision, try again") = Conflict)
       ∧ (licenses s !! key = None →
          let lic := mkLicense key limit note true now in
          let stored := mkLicense key limit (json.round_trip note) true now in
          CreateLicense limit note rnd now s
          = (Ok lic, mkDB (<[key := stored]> (licenses s)) (usage (with_bucket s key)))
          ∧ (json.round_trip note = note → stored = lic))).
Proof.
  split.
  - intros Hle. split; [|reflexivity]. unfold CreateLicense.
    by destruct (Z.leb_spec limit 0); [|lia].
  - intros Hpos b -> Hb. destruct (NewKey_length b Hb) as (key & Hkey & Hlen).
    exists key. split; [exact Hkey|].
    assert (Hne : String.length key ≠ 0%nat) by lia.
    unfold CreateLicense. destruct (Z.leb_spec limit 0); [lia|]. rewrite Hkey.
    unfold Bolt.Update. split.
    + intros [old Hold]. by rewrite Hold.
    + intros Hnone. cbv zeta. split; [|by intros ->].
      rewrite Hnone. unfold Bolt.Put, Bolt.MaxKeySize.
      rewrite decide_False by done. rewrite decide_False by lia.
      unfold Bolt.CreateBucketIfNotExists, with_bucket.
      rewrite decide_False by done. cbn [usage].
      unfold json.License_round_trip. cbn [Key Limit Note Enabled CreatedAt].
      rewrite (NewKey_ascii _ _ Hkey).
      by destruct (usage s !! key).
Qed.

Lemma CreateLicense_outcomes_witness :
  CreateLicense 0 "demo" Scenario.rnd 100 empty_DB
  = (Err (Errorf "limit must be > 0"), empty_DB)
  ∧ CreateLicense 3 "again" Scenario.rnd 200 Scenario.s0
    = (Err (Errorf "key collision, try again"), Scenario.s0)
  ∧ CreateLicense 2 "demo" Scenario.rnd 100 empty_DB
    = (Ok (mkLicense Scenario.K 2 "demo" true 100), Scenario.s0)
  ∧ licenses (CreateLicense 2 (Bytes.to_string [100; 255]%N) Scenario.rnd 100
                empty_DB).2 !! Scenario.K
    = Some (mkLicense Scenario.K 2 (Bytes.to_string [100; 239; 191; 189]%N) true 100).
Proof.
  split_and!.
  - apply (proj1 (CreateLicense_outcomes 0 "demo" Scenario.rnd 100 empty_DB)). lia.
  - destruct (proj2 (CreateLicense_outcomes 3 "again" Scenario.rnd 200 Scenario.s0)
                ltac:(lia) (replicate 20 0%N) eq_refl eq_refl)
      as (key & Hkey & Hdup & _).
    injection Hkey as <-. apply Hdup. vm_compute. eauto.
  - destruct (proj2 (CreateLicense_outcomes 2 "demo" Scenario.rnd 100 empty_DB)
                ltac:(lia) (replicate 20 0%N) eq_refl eq_refl)
      as (key & Hkey & _ & Hnew).
    injection Hkey as <-.
    rewrite (proj1 (Hnew ltac:(vm_compute; reflexivity))).
    vm_compute. reflexivity.
  - destruct (proj2 (CreateLicense_outcomes 2 (Bytes.to_string [100; 255]%N)
                       Scenario.rnd 100 empty_DB)
                ltac:(lia) (replicate 20 0%N) eq_refl eq_refl)
      as (key & Hkey & _ & Hnew).
    injection Hkey as <-.
    rewrite (proj1 (Hnew ltac:(vm_compute; reflexivity))).
    vm_compute. reflexivity.
Defined.

(* ===================================================================== *)
(** ** Changing the limit *)
(* ===================================================================== *)

(** C8.  SetLimit with limit <= 0 is rejected and writes nothing; with
    an unknown key it fails with the not-found error.  On success the
    stored and returned record differs from the old one in its limit
    only, every other license record and every binding stays as it was,
    and a device bound under the license still re-activates afterwards,
    whatever the new limit is. *)
Theorem SetLimit_outcomes key limit s :
  (limit <= 0 → SetLimit key limit s = (Err (Errorf "limit must be > 0"), s))
  ∧ (0 < limit → licenses s !! key = None →
     SetLimit key limit s = (Err errNotFound, s)
     ∧ classify errNotFound = NotFound)
  ∧ (0 < limit → wf_DB s → ∀ lic, licenses s !! key = Some lic →
     let out := SetLimit key limit s in
     out.1 = Ok (mkLicense (Key lic) limit (Note lic) (Enabled lic) (CreatedAt lic))
     ∧ licenses out.2 = <[key := set_limit lic limit]> (licenses s)
     ∧ usage out.2 = usage s
     ∧ (∀ k' d', binding out.2 k' d' = binding s k' d')
     ∧ (∀ akey serverID now sb,
          TrimSpace akey = key → valid_request akey serverID →
          Enabled lic = true →
          binding s key (TrimSpace serverID) = Some sb →
          ∃ r, (Activate akey serverID now out.2).1 = Ok r
               ∧ OK r = true ∧ NewlyBound r = false ∧ ResLimit r = limit)).
Proof.
  split_and!.
  - intros Hle. unfold SetLimit. by destruct (Z.leb_spec limit 0); [|lia].
  - intros Hpos Hnone. split; [|reflexivity]. unfold SetLimit.
    destruct (Z.leb_spec limit 0); [lia|].
    unfold Bolt.Update, getLicense. by rewrite Hnone.
  - intros Hpos Hwf lic Hlic out. unfold out.
    rewrite (SetLimit_found key limit s lic) by done. cbn [fst snd licenses usage].
    split_and!; try done.
    intros akey serverID now sb Hk Hv Hen Hb.
    erewrite (Activate_refresh akey serverID now _ (set_limit lic limit) sb).
    + eexists. split; [reflexivity|]. done.
    + done.
    + rewrite Hk. cbn [licenses]. by rewrite lookup_insert_eq.
    + done.
    + by rewrite Hk.
Qed.

Lemma SetLimit_outcomes_witness :
  let out := SetLimit Scenario.K 1 Scenario.s2 in
  out.1 = Ok (mkLicense Scenario.K 1 "demo" true 100)
  ∧ bound_count out.2 Scenario.K = 2%nat
  ∧ ∃ r, (Activate Scenario.K "B" 400 out.2).1 = Ok r
         ∧ OK r = true ∧ NewlyBound r = false ∧ ResLimit r = 1.
Proof.
  destruct (proj2 (proj2 (SetLimit_outcomes Scenario.K 1 Scenario.s2)))
    with (lic := mkLicense Scenario.K 2 "demo" true 100)
    as (H1 & _ & H3 & _ & H5).
  - lia.
  - apply (bool_decide_unpack _). vm_compute. exact I.
  - vm_compute. reflexivity.
  - cbv zeta. split_and!.
    + exact H1.
    + unfold bound_count, bindings_of. rewrite H3. vm_compute. reflexivity.
    + apply (H5 Scenario.K "B" 400 (mkServerBinding "B" 102 102 1)).
      * vm_compute. reflexivity.
      * apply (bool_decide_unpack _). vm_compute. exact I.
      * reflexivity.
      * vm_compute. reflexivity.
Defined.

(* ===================================================================== *)
(** ** sort.Slice orders and rearranges *)
(* ===================================================================== *)

Section SortFacts.
Context {A : Type} (less : A → A → bool).

Lemma sift_Permutation x l : sift less x l ≡ₚ x :: l.
Proof.
  induction l as [|y l IH]; simpl; [done|].
  destruct (less x y); [|done].
  rewrite IH. apply Permutation_swap.
Qed.

Lemma fold_sift_Permutation l : ∀ acc,
  fold_left (fun r x => sift less x r) l acc ≡ₚ l ++ acc.
Proof.
  induction l as [|x l IH]; intros acc; simpl; [done|].
  rewrite IH, sift_Permutation. by rewrite Permutation_middle.
Qed.

Lemma sort_Slice_Permutation l : sort_Slice less l ≡ₚ l.
Proof.
  unfold sort_Slice. rewrite <- Permutation_rev, fold_sift_Permutation.
  by rewrite app_nil_r.
Qed.

(** When [less a b] compares a measure, [b] below [a], the outcome is
    in decreasing measure. *)
Context (f : A → Z) (Hless : ∀ a b, less a b = (f b <? f a)).

Lemma sift_ascending x l :
  StronglySorted (fun a b => f a <= f b) l →
  StronglySorted (fun a b => f a <= f b) (sift less x l).
Proof.
  induction 1 as [|y l Hl IH Hy]; simpl; [repeat constructor|].
  rewrite Hless. destruct (Z.ltb_spec (f y) (f x)).
  - constructor; [exact IH|]. rewrite sift_Permutation.
    constructor; [lia | exact Hy].
  - constructor; [by constructor|].
    constructor; [done|]. eapply Forall_impl; [exact Hy|]. simpl. lia.
Qed.

Lemma fold_sift_ascending l : ∀ acc,
  StronglySorted (fun a b => f a <= f b) acc →
  StronglySorted (fun a b => f a <= f b) (fold_left (fun r x => sift less x r) l acc).
Proof.
  induction l as [|x l IH]; intros acc Hacc; simpl; [done|].
  apply IH. by apply sift_ascending.
Qed.

Lemma rev_descending l :
  StronglySorted (fun a b => f a <= f b) l →
  StronglySorted (fun a b => f b <= f a) (rev l).
Proof.
  induction 1 as [|y l Hl IH Hy]; simpl; [constructor|].
  apply StronglySorted_app_2; [| exact IH | repeat constructor].
  intros x1 x2 Hx1 Hx2. apply list_elem_of_singleton in Hx2 as ->.
  rewrite Forall_forall in Hy. apply Hy.
  apply list_elem_of_In, in_rev, list_elem_of_In. exact Hx1.
Qed.

Lemma sort_Slice_descending l :
  StronglySorted (fun a b => f b <= f a) (sort_Slice less l).
Proof.
  unfold sort_Slice. apply rev_descending, fold_sift_ascending. constructor.
Qed.
End SortFacts.

(* ===================================================================== *)
(** ** The ledger along a history *)
(* ===================================================================== *)

Lemma CreateLicense_bindings_of limit note rnd now s k' :
  bindings_of (CreateLicense limit note rnd now s).2 k' = bindings_of s k'.
Proof.
  unfold CreateLicense. destruct (limit <=? 0); [done|].
  destruct (license.NewKey rnd) as [key|]; [|done].
  unfold Bolt.Update. destruct (licenses s !! key); [done|].
  unfold Bolt.Put. repeat case_decide; try done.
  unfold Bolt.CreateBucketIfNotExists. case_decide; [done|].
  destruct (usage s !! key) eqn:Hu; [done|]. cbn [snd].
  rewrite bindings_of_put. case_decide; [|done].
  subst. unfold bindings_of. by rewrite Hu.
Qed.

Lemma putLicense_usage s lic s' : putLicense s lic = Ok s' → usage s' = usage s.
Proof.
  unfold putLicense. destruct (Bolt.Put _ _ _); [|done]. by intros [= <-].
Qed.

Lemma SetLimit_usage key limit s : usage (SetLimit key limit s).2 = usage s.
Proof.
  unfold SetLimit. destruct (limit <=? 0); [done|].
  unfold Bolt.Update. destruct (getLicense s key) as [lic|]; [|done].
  destruct (putLicense s _) as [s'|] eqn:Hp; [|done].
  by apply putLicense_usage in Hp.
Qed.

Lemma SetEnabled_usage key enabled s : usage (SetEnabled key enabled s).2 = usage s.
Proof.
  unfold SetEnabled, Bolt.Update. destruct (getLicense s key) as [lic|]; [|done].
  destruct (putLicense s _) as [s'|] eqn:Hp; [|done].
  by apply putLicense_usage in Hp.
Qed.




(** Every operation keeps license records under their own keys. *)
Lemma wf_insert k lic (m : gmap string License) :
  wf_license k lic → map_Forall wf_license m → map_Forall wf_license (<[k := lic]> m).
Proof. intros Hk Hm. by apply map_Forall_insert_2. Qed.

Lemma putLicense_wf s lic s' :
  wf_DB s → putLicense s lic = Ok s' → wf_DB s'.
Proof.
  unfold putLicense, Bolt.Put. intros Hwf.
  case_decide as Hz; [done|]. case_decide as Hl; [done|]. intros [= <-].
  apply wf_insert; [|exact Hwf]. split_and!; [done | | lia].
  intros Heq. apply Hz. by rewrite Heq.
Qed.

Lemma exec_wf o s : wf_DB s → wf_DB (exec s o).
Proof.
  intros Hwf.
  destruct o as [limit note rnd now | k limit | k enabled | k serverID now]; cbn [exec].
  - unfold CreateLicense. destruct (limit <=? 0); [done|].
    destruct (license.NewKey rnd) as [key|] eqn:Hkey; [|done].
    unfold Bolt.Update. destruct (licenses s !! key); [done|].
    unfold Bolt.Put. case_decide as Hz; [done|]. case_decide as Hl; [done|].
    unfold Bolt.CreateBucketIfNotExists. rewrite decide_False by done.
    assert (wf_license key (json.License_round_trip (mkLicense key limit note true now))).
    { split_and!; [by apply NewKey_ascii in Hkey | | lia].
      intros Heq. apply Hz. by rewrite Heq. }
    destruct (usage s !! key); cbn [snd]; by apply wf_insert.
  - unfold SetLimit. destruct (limit <=? 0); [done|].
    unfold Bolt.Update. destruct (getLicense s k) as [lic|]; [|done].
    destruct (putLicense s _) as [s'|] eqn:Hp; [|done].
    by apply putLicense_wf in Hp.
  - unfold SetEnabled, Bolt.Update. destruct (getLicense s k) as [lic|]; [|done].
    destruct (putLicense s _) as [s'|] eqn:Hp; [|done].
    by apply putLicense_wf in Hp.
  - unfold wf_DB. by rewrite Activate_licenses.
Qed.

Lemma run_ops_wf ops : ∀ s, wf_DB s → wf_DB (run_ops ops s).
Proof.
  induction ops as [|o rest IH]; intros s Hwf; [done|].
  apply IH. by apply exec_wf.
Qed.

Lemma empty_DB_wf : wf_DB empty_DB.
Proof. apply map_Forall_empty. Qed.

(* ===================================================================== *)
(** ** Reading a license *)
(* ===================================================================== *)

Lemma getBindings_found s key :
  ∃ bs, getBindings s key = Ok bs
    ∧ bs ≡ₚ List.map keyed (map_to_list (bindings_of s key))
    ∧ StronglySorted (fun a b => LastSeen b <= LastSeen a) bs.
Proof.
  unfold getBindings, bindings_of. destruct (usage s !! key) as [u|]; simpl.
  - eexists. split; [reflexivity|]. split.
    + apply sort_Slice_Permutation.
    + by apply (sort_Slice_descending more_recent LastSeen).
  - exists []. rewrite map_to_list_empty. split_and!; [done | done | constructor].
Qed.




(* ===================================================================== *)
(** ** A burst of concurrent calls *)
(* ===================================================================== *)

Import Concurrent.

Lemma count_insert (p : call → bool) l i c c' :
  l !! i = Some c →
  (count p (<[i := c']> l) + Nat.b2n (p c) = count p l + Nat.b2n (p c'))%nat.
Proof.
  unfold count. revert i. induction l as [|x l IH]; intros [|i] Hi; try done.
  - injection Hi as ->. simpl. destruct (p c), (p c'); simpl; lia.
  - simpl in Hi. specialize (IH i Hi). simpl.
    destruct (p x); simpl; lia.
Qed.

Lemma count_split (p q : call → bool) l :
  Forall (fun c => xorb (p c) (q c) = true) l →
  (count p l + count q l = List.length l)%nat.
Proof.
  unfold count. induction 1 as [|x l Hx _ IH]; [done|]. simpl.
  destruct (p x), (q x); simpl in *; try discriminate; lia.
Qed.

Lemma count_pos (p : call → bool) l :
  (0 < count p l)%nat → ∃ i c, l !! i = Some c ∧ p c = true.
Proof.
  unfold count. induction l as [|x l IH]; simpl; [lia|].
  destruct (p x) eqn:Hx.
  - intros _. by exists 0%nat, x.
  - intros H. destruct (IH H) as (i & c & Hi & Hc). by exists (S i), c.
Qed.

Lemma arrivals_lookup key ids i c :
  arrivals key ids !! i = Some c → ∃ id, ids !! i = Some id ∧ c = Arrived key id.
Proof.
  unfold arrivals. change (List.map (Arrived key) ids) with (Arrived key <$> ids).
  rewrite list_lookup_fmap. destruct (ids !! i); [|done].
  intros [= <-]. eauto.
Qed.

Lemma count_arrivals key ids : count is_admission (arrivals key ids) = 0%nat.
Proof. unfold count, arrivals. induction ids; simpl; [done | exact IHids]. Qed.

(** A call that runs alone, its two steps one after the other, is the
    sequential [Activate] at the clock reading of its first step. *)
Lemma call_alone key id t t' s :
  let checked := step_call t (Arrived key id) s in
  step_call t' checked.1 checked.2
  = (Returned (Activate key id t s).1, (Activate key id t s).2).
Proof.
  unfold Activate. cbn [step_call].
  by destruct (validate (TrimSpace key) (TrimSpace id)).
Qed.

Section Burst.
Context (key k : string) (lic : License) (ids : list string) (s0 : DB).
Hypothesis Hkey : TrimSpace key = k.
Hypothesis Hlic : licenses s0 !! k = Some lic.
Hypothesis Hen : Enabled lic = true.
Hypothesis Hmax : Limit lic <= max_int.
Hypothesis Hvalid : Forall (fun id => valid_args k (TrimSpace id)) ids.
Hypothesis Hnodup : NoDup (List.map TrimSpace ids).
Hypothesis Hnew : Forall (fun id => binding s0 k (TrimSpace id) = None) ids.
Hypothesis Hroom : Z.of_nat (bound_count s0 k) <= Limit lic.

Lemma ids_distinct i i' id id' :
  ids !! i = Some id → ids !! i' = Some id' →
  TrimSpace id = TrimSpace id' → i = i'.
Proof.
  intros Hi Hi' Heq.
  change (List.map TrimSpace ids) with (TrimSpace <$> ids) in Hnodup.
  eapply NoDup_lookup; [exact Hnodup | |].
  - rewrite list_lookup_fmap, Hi. reflexivity.
  - rewrite list_lookup_fmap, Hi'. simpl. by rewrite Heq.
Qed.

Lemma burst_inv_start t0 :
  burst_inv key k lic ids s0 (mkSystem (arrivals key ids) s0 t0).
Proof.
  unfold burst_inv. cbn [db pool]. split_and!.
  - done.
  - unfold arrivals. apply length_map.
  - intros i id c Hid Hc. apply arrivals_lookup in Hc as (id' & Hid' & ->).
    rewrite Hid in Hid'. injection Hid' as <-. simpl. split_and!; [done | done |].
    rewrite Forall_forall in Hnew. apply Hnew. by eapply list_elem_of_lookup_2.
  - rewrite count_arrivals. lia.
  - exact Hroom.
Qed.

Lemma burst_inv_step sys choice :
  burst_inv key k lic ids s0 sys → burst_inv key k lic ids s0 (step sys choice).
Proof.
  intros (Hl & Hlen & Hcalls & Hcount & Hle). destruct choice as [i dt].
  unfold step. cbn [fst snd].
  destruct (pool sys !! i) as [c|] eqn:Hc; [|by unfold burst_inv].
  assert (is_Some (ids !! i)) as [id Hid].
  { apply lookup_lt_is_Some. rewrite <- Hlen. by eapply lookup_lt_Some. }
  pose proof (Hcalls i id c Hid Hc) as Hinv.
  assert (Hv : valid_args k (TrimSpace id)).
  { rewrite Forall_forall in Hvalid. apply Hvalid. by eapply list_elem_of_lookup_2. }
  assert (Hck : countKeys (bindings_of (db sys) k) = Z.of_nat (bound_count (db sys) k)).
  { apply countKeys_small. fold (bound_count (db sys) k). lia. }
  destruct c as [key' id' | k' id' now | r].
  - (* the call checks its arguments and reads the clock *)
    destruct Hinv as (-> & -> & Hb). cbn [step_call]. rewrite Hkey.
    apply validate_None in Hv as Hval. rewrite Hval.
    unfold burst_inv. cbn [db pool fst snd].
    split_and!; [done | by rewrite length_insert | | | done].
    + intros i' id2 c' Hid2 Hc'.
      destruct (decide (i = i')) as [<-|Hne].
      * rewrite list_lookup_insert_eq in Hc' by (by eapply lookup_lt_Some).
        injection Hc' as <-. rewrite Hid in Hid2. injection Hid2 as <-. by simpl.
      * rewrite list_lookup_insert_ne in Hc' by done. by apply Hcalls with i'.
    + pose proof (count_insert is_admission _ i _
                    (Waiting k (TrimSpace id) (clock sys + Z.of_nat dt)) Hc) as Hci.
      simpl in Hci. lia.
  - (* the call commits its transaction *)
    destruct Hinv as (-> & -> & Hb). cbn [step_call].
    assert (Hlic' : licenses (db sys) !! k = Some lic) by (by rewrite Hl).
    destruct (Z.le_gt_cases (Limit lic) (countKeys (bindings_of (db sys) k)))
      as [Hfull | Hfree].
    + rewrite (tx_full k (TrimSpace id) now (db sys) lic Hv Hlic' Hen Hb Hfull).
      cbn [fst snd]. rewrite Hck.
      assert (Hbound : Z.of_nat (bound_count (db sys) k) = Limit lic) by lia.
      rewrite Hbound.
      set (c' := Returned _).
      assert (Hc'lim : is_limit_reached (Limit lic) c' = true).
      { unfold c'. simpl. by rewrite !bool_decide_eq_true_2. }
      unfold burst_inv. cbn [db pool].
      split_and!; [done | by rewrite length_insert | | | ].
      * intros i' id2 c2 Hid2 Hc2. destruct (decide (i = i')) as [<-|Hne].
        -- rewrite list_lookup_insert_eq in Hc2 by (by eapply lookup_lt_Some).
           injection Hc2 as <-. right. split; [done|].
           unfold bound_count. by rewrite bindings_of_with_bucket.
        -- rewrite list_lookup_insert_ne in Hc2 by done.
           pose proof (Hcalls i' id2 c2 Hid2 Hc2) as H2.
           unfold call_inv, bound_count in *.
           rewrite !binding_with_bucket, bindings_of_with_bucket. exact H2.
      * pose proof (count_insert is_admission _ i _ c' Hc) as Hci.
        simpl in Hci. unfold bound_count in *.
        rewrite bindings_of_with_bucket. lia.
      * unfold bound_count in *. rewrite bindings_of_with_bucket. lia.
    + rewrite (tx_admit k (TrimSpace id) now (db sys) lic Hv Hlic' Hen Hb Hfree).
      cbn [fst snd]. set (c' := Returned _).
      assert (Hsize : bound_count (with_binding (db sys) k (TrimSpace id)
                                     (fresh_binding (TrimSpace id) now)) k
                      = S (bound_count (db sys) k)).
      { unfold bound_count. rewrite bindings_of_with_binding, decide_True by done.
        by apply map_size_insert_None. }
      unfold burst_inv. cbn [db pool].
      split_and!; [done | by rewrite length_insert | | | ].
      * intros i' id2 c2 Hid2 Hc2. destruct (decide (i = i')) as [<-|Hne].
        -- rewrite list_lookup_insert_eq in Hc2 by (by eapply lookup_lt_Some).
           injection Hc2 as <-. rewrite Hid in Hid2. injection Hid2 as <-.
           left. split; [done|]. rewrite binding_with_binding.
           rewrite decide_True by done. eauto.
        -- rewrite list_lookup_insert_ne in Hc2 by done.
           pose proof (Hcalls i' id2 c2 Hid2 Hc2) as H2.
           assert (Hother : binding (with_binding (db sys) k (TrimSpace id)
                                       (fresh_binding (TrimSpace id) now))
                              k (TrimSpace id2)
                            = binding (db sys) k (TrimSpace id2)).
           { rewrite binding_with_binding. rewrite decide_False; [done|].
             intros [_ Heq]. apply Hne. by eapply ids_distinct. }
           destruct c2 as [? ? | ? ? ? | r2]; simpl in H2 |- *.
           ++ by rewrite Hother.
           ++ by rewrite Hother.
           ++ destruct H2 as [[Ha Hsome] | [_ Hfullnow]].
              ** left. split; [done|]. by rewrite Hother.
              ** lia.
      * pose proof (count_insert is_admission _ i _ c' Hc) as Hci.
        simpl in Hci. rewrite Hsize. lia.
      * rewrite Hsize. lia.
  - (* the call has returned *)
    cbn [step_call fst snd]. rewrite list_insert_id by done.
    by unfold burst_inv.
Qed.

Lemma burst_inv_run schedule : ∀ sys,
  burst_inv key k lic ids s0 sys → burst_inv key k lic ids s0 (run schedule sys).
Proof.
  induction schedule as [|choice rest IH]; intros sys Hinv; [done|].
  apply IH. by apply burst_inv_step.
Qed.

(** When every call of the burst has returned, the admitted ones fill
    the free slots, as far as there are calls, and all the others were
    turned away at the limit. *)
Lemma burst_verdicts schedule t0 :
  let sys := run schedule (mkSystem (arrivals key ids) s0 t0) in
  forallb returned (pool sys) = true →
  Z.of_nat (count is_admission (pool sys))
  = Z.min (Z.of_nat (List.length ids)) (Limit lic - Z.of_nat (bound_count s0 k))
  ∧ (count is_admission (pool sys) + count (is_limit_reached (Limit lic)) (pool sys)
     = List.length ids)%nat.
Proof.
  intros sys Hret.
  destruct (burst_inv_run schedule _ (burst_inv_start t0))
    as (Hl & Hlen & Hcalls & Hcount & Hle).
  fold sys in Hl, Hlen, Hcalls, Hcount, Hle.
  assert (Hsplit : (count is_admission (pool sys)
                    + count (is_limit_reached (Limit lic)) (pool sys)
                    = List.length ids)%nat).
  { rewrite <- Hlen. apply count_split. apply Forall_forall. intros c Hin.
    apply list_elem_of_lookup in Hin as [i Hi].
    assert (is_Some (ids !! i)) as [id Hid].
    { apply lookup_lt_is_Some. rewrite <- Hlen. by eapply lookup_lt_Some. }
    pose proof (Hcalls i id c Hid Hi) as Hinv.
    rewrite forallb_forall in Hret.
    assert (Hr : returned c = true).
    { apply Hret. apply list_elem_of_In. by eapply list_elem_of_lookup_2. }
    destruct c as [? ? | ? ? ? | [r|e]]; try discriminate Hr; simpl in Hinv |- *.
    - destruct Hinv as [[Ha _] | [Hb _]].
      + rewrite Ha. simpl. reflexivity.
      + destruct (OK r); [discriminate Hb|]. simpl in *. by rewrite Hb.
    - destruct Hinv as [[Ha _] | [Hb _]]; discriminate. }
  split; [|exact Hsplit].
  destruct (Nat.eq_dec (count (is_limit_reached (Limit lic)) (pool sys)) 0) as [Hz|Hnz].
  - lia.
  - destruct (count_pos (is_limit_reached (Limit lic)) (pool sys)) as (i & c & Hi & Hc);
      [lia|].
    assert (is_Some (ids !! i)) as [id Hid].
    { apply lookup_lt_is_Some. rewrite <- Hlen. by eapply lookup_lt_Some. }
    pose proof (Hcalls i id c Hid Hi) as Hinv.
    destruct c as [? ? | ? ? ? | [r|e]]; try discriminate Hc.
    simpl in Hinv, Hc. destruct Hinv as [[Ha _] | [_ Hfull]].
    + rewrite Ha in Hc. discriminate Hc.
    + lia.
Qed.
End Burst.

(** Every call returns: two rounds in which each call moves once bring
    all of them to their verdict, so the schedules the next theorem
    speaks of exist for every burst. *)
Lemma step_call_progress t c s :
  (Nat.min 2 (S (progress c)) <= progress (step_call t c s).1)%nat.
Proof.
  destruct c as [key id | k id now | r]; cbn [step_call progress].
  - destruct (validate _ _); cbn [fst progress]; lia.
  - cbn [fst progress]. lia.
  - cbn [fst progress]. lia.
Qed.

Lemma step_progress sys i dt j c :
  pool sys !! j = Some c →
  ∃ c', pool (step sys (i, dt)) !! j = Some c'
        ∧ (progress c <= progress c')%nat
        ∧ (j = i → (Nat.min 2 (S (progress c)) <= progress c')%nat).
Proof.
  intros Hj. unfold step. cbn [fst snd].
  destruct (pool sys !! i) as [ci|] eqn:Hi; cbn [pool].
  - destruct (decide (i = j)) as [->|Hne].
    + rewrite Hj in Hi. injection Hi as <-.
      rewrite list_lookup_insert_eq by (by eapply lookup_lt_Some).
      eexists. split; [reflexivity|].
      pose proof (step_call_progress (clock sys + Z.of_nat dt) c (db sys)) as Hp.
      split; [|done]. eapply Nat.le_trans; [|exact Hp].
      destruct c; cbn [progress]; lia.
    + rewrite list_lookup_insert_ne by done.
      exists c. split_and!; [done | lia | by intros ->].
  - exists c. split_and!; [done | lia |]. intros ->. congruence.
Qed.

Lemma run_app l1 l2 sys : run (l1 ++ l2)%list sys = run l2 (run l1 sys).
Proof. unfold run. apply fold_left_app. Qed.

Lemma round_S n dt : round (S n) dt = (round n dt ++ [(n, dt)])%list.
Proof. unfold round. rewrite seq_S, map_app. reflexivity. Qed.

Lemma round_progress dt n : ∀ sys j c,
  pool sys !! j = Some c →
  ∃ c', pool (run (round n dt) sys) !! j = Some c'
        ∧ (progress c <= progress c')%nat
        ∧ ((j < n)%nat → (Nat.min 2 (S (progress c)) <= progress c')%nat).
Proof.
  induction n as [|n IH]; intros sys j c Hj.
  - exists c. split_and!; [done | lia | lia].
  - rewrite round_S, run_app.
    destruct (IH sys j c Hj) as (c1 & H1 & Hle1 & Hlt1).
    destruct (step_progress (run (round n dt) sys) n dt j c1 H1)
      as (c2 & H2 & Hle2 & Heq2).
    exists c2. split_and!; [exact H2 | lia |].
    intros Hlt. destruct (decide (j = n)) as [->|Hne].
    + specialize (Heq2 eq_refl). lia.
    + assert (j < n)%nat as Hjn by lia. specialize (Hlt1 Hjn). lia.
Qed.

Lemma round_length dt n : ∀ sys,
  List.length (pool (run (round n dt) sys)) = List.length (pool sys).
Proof.
  induction n as [|n IH]; intros sys; [done|].
  rewrite round_S, run_app. cbn [run fold_left]. unfold step. cbn [fst snd].
  destruct (pool _ !! n); cbn [pool]; [rewrite length_insert|]; apply IH.
Qed.

Lemma two_rounds_return p s t :
  let n := List.length p in
  forallb returned (pool (run (round n 0 ++ round n 0)%list (mkSystem p s t))) = true.
Proof.
  intros n. apply forallb_forall. intros c2 Hin.
  apply list_elem_of_In, list_elem_of_lookup in Hin as [j Hj].
  rewrite run_app in Hj.
  assert (Hjn : (j < n)%nat).
  { apply lookup_lt_Some in Hj. by rewrite !round_length in Hj. }
  destruct (lookup_lt_is_Some_2 p j Hjn) as [c Hc].
  destruct (round_progress 0 n (mkSystem p s t) j c Hc) as (c1 & H1 & _ & Hp1).
  destruct (round_progress 0 n _ j c1 H1) as (c2' & H2 & _ & Hp2).
  rewrite Hj in H2. injection H2 as <-.
  specialize (Hp1 Hjn). specialize (Hp2 Hjn).
  destruct c2 as [? ? | ? ? ? | r]; cbn [progress returned] in *; [lia | lia | done].
Qed.

(** C5.  A burst of Activate calls for distinct new devices of one
    present, enabled license runs under any schedule: the calls check
    their arguments and read the clock in any order, and their
    transactions commit one at a time in any order.  Once every call has
    returned,
    - on a fresh license of limit L, of L+5 such calls exactly L were
      admitted with ok=true and the other 5 were rejected with reason
      limit_reached (and used = limit = L);
    - with one free slot, of two such calls exactly one was admitted:
      never both. *)
Theorem burst_admits_exactly_limit key lic ids s0 schedule t0 :
  licenses s0 !! TrimSpace key = Some lic →
  Enabled lic = true →
  Limit lic <= max_int →
  Forall (fun id => valid_args (TrimSpace key) (TrimSpace id)) ids →
  NoDup (List.map TrimSpace ids) →
  Forall (fun id => binding s0 (TrimSpace key) (TrimSpace id) = None) ids →
  let sys := run schedule (mkSystem (arrivals key ids) s0 t0) in
  forallb returned (pool sys) = true →
  (0 <= Limit lic → bound_count s0 (TrimSpace key) = 0%nat →
   Z.of_nat (List.length ids) = Limit lic + 5 →
   Z.of_nat (count is_admission (pool sys)) = Limit lic
   ∧ count (is_limit_reached (Limit lic)) (pool sys) = 5%nat)
  ∧ (Z.of_nat (bound_count s0 (TrimSpace key)) + 1 = Limit lic →
     List.length ids = 2%nat →
     count is_admission (pool sys) = 1%nat
     ∧ count (is_limit_reached (Limit lic)) (pool sys) = 1%nat).
Proof.
  intros Hlic Hen Hmax Hvalid Hnodup Hnew sys Hret. split.
  - intros Hpos Hfresh Hlen.
    destruct (burst_verdicts key (TrimSpace key) lic ids s0 eq_refl Hlic Hen Hmax
                Hvalid Hnodup Hnew ltac:(lia) schedule t0 Hret) as [Hadm Hsum].
    fold sys in Hadm, Hsum. lia.
  - intros Hslot Hlen.
    destruct (burst_verdicts key (TrimSpace key) lic ids s0 eq_refl Hlic Hen Hmax
                Hvalid Hnodup Hnew ltac:(lia) schedule t0 Hret) as [Hadm Hsum].
    fold sys in Hadm, Hsum. lia.
Qed.

Lemma burst_admits_exactly_limit_witness :
  let late_first := [(6, 1); (5, 0); (4, 1); (3, 1); (2, 1); (1, 1); (0, 1);
                     (3, 1); (0, 2); (6, 1); (1, 1); (2, 0); (4, 1); (5, 1)]%nat in
  let burst := run late_first
                 (mkSystem (arrivals Scenario.K ["a"; "b"; "c"; "d"; "e"; "f"; "g"])
                           Scenario.s0 100) in
  let pair := run [(0, 1); (1, 1); (1, 1); (0, 1)]%nat
                (mkSystem (arrivals Scenario.K ["X"; "Y"]) Scenario.s1 200) in
  (count is_admission (pool burst) = 2%nat
   ∧ count (is_limit_reached 2) (pool burst) = 5%nat)
  ∧ (count is_admission (pool pair) = 1%nat
     ∧ count (is_limit_reached 2) (pool pair) = 1%nat).
Proof.
  intros late_first burst pair. split.
  - destruct (burst_admits_exactly_limit Scenario.K
                (mkLicense Scenario.K 2 "demo" true 100)
                ["a"; "b"; "c"; "d"; "e"; "f"; "g"] Scenario.s0 late_first 100)
      as [Ha _].
    + vm_compute. reflexivity.
    + reflexivity.
    + vm_compute. discriminate.
    + apply (bool_decide_unpack _). vm_compute. exact I.
    + apply (bool_decide_unpack _). vm_compute. exact I.
    + apply (bool_decide_unpack _). vm_compute. exact I.
    + vm_compute. reflexivity.
    + destruct Ha as [Ha1 Ha2].
      * simpl. lia.
      * vm_compute. reflexivity.
      * reflexivity.
      * split; [|exact Ha2]. apply Nat2Z.inj. exact Ha1.
  - destruct (burst_admits_exactly_limit Scenario.K
                (mkLicense Scenario.K 2 "demo" true 100)
                ["X"; "Y"] Scenario.s1 [(0, 1); (1, 1); (1, 1); (0, 1)]%nat 200)
      as [_ Hb].
    + vm_compute. reflexivity.
    + reflexivity.
    + vm_compute. discriminate.
    + apply (bool_decide_unpack _). vm_compute. exact I.
    + apply (bool_decide_unpack _). vm_compute. exact I.
    + apply (bool_decide_unpack _). vm_compute. exact I.
    + vm_compute. reflexivity.
    + apply Hb; [vm_compute; reflexivity | reflexivity].
Defined.

(* ===================================================================== *)
(** ** Listing the licenses *)
(* ===================================================================== *)

Lemma getBindings_length s key :
  ∃ bs, getBindings s key = Ok bs ∧ List.length bs = bound_count s key.
Proof.
  destruct (getBindings_found s key) as (bs & Hget & Hperm & _).
  exists bs. split; [exact Hget|].
  rewrite Hperm, length_map, length_map_to_list. reflexivity.
Qed.

Lemma fold_list_visit s l : ∀ acc,
  fold_left (list_visit s) l (Ok acc) = Ok (acc ++ List.map (summary s) l)%list.
Proof.
  induction l as [|[k lic] l IH]; intros acc; simpl.
  - by rewrite app_nil_r.
  - destruct (getBindings_length s k) as (bs & -> & ->).
    rewrite IH. by rewrite <- app_assoc.
Qed.

Lemma ListLicenses_sorted_summaries s :
  ∃ l, ListLicenses s = Ok l
    ∧ l ≡ₚ List.map (summary s) (map_to_list (licenses s))
    ∧ StronglySorted
        (fun a b => CreatedAt (InfoLicense b) <= CreatedAt (InfoLicense a)) l.
Proof.
  unfold ListLicenses, Bolt.View. rewrite fold_list_visit. simpl.
  eexists. split; [reflexivity|]. split.
  - apply sort_Slice_Permutation.
  - by apply (sort_Slice_descending newer (fun e => CreatedAt (InfoLicense e))).
Qed.

(** X1.  ListLicenses never fails.  It returns exactly one summary for
    every stored license record: the record, Used equal to the number of
    devices bound under the record's bucket key, and no bindings; the
    summaries are ordered by created_at descending. *)
Theorem ListLicenses_summaries s :
  ∃ l, ListLicenses s = Ok l
    ∧ List.length l = size (licenses s)
    ∧ (∀ e, e ∈ l ↔ ∃ k lic, licenses s !! k = Some lic
                             ∧ e = mkLicenseInfo lic (Z.of_nat (bound_count s k)) [])
    ∧ StronglySorted
        (fun a b => CreatedAt (InfoLicense b) <= CreatedAt (InfoLicense a)) l.
Proof.
  destruct (ListLicenses_sorted_summaries s) as (l & Hl & Hperm & Hsorted).
  exists l. split_and!; [exact Hl | | | exact Hsorted].
  - by rewrite Hperm, length_map, length_map_to_list.
  - intros e. rewrite Hperm. split.
    + intros Hin. apply list_elem_of_In, in_map_iff in Hin as ([k lic] & <- & Hin).
      apply list_elem_of_In, elem_of_map_to_list in Hin. by exists k, lic.
    + intros (k & lic & Hlic & ->). apply list_elem_of_In, in_map_iff.
      exists (k, lic). split; [done|].
      by apply list_elem_of_In, elem_of_map_to_list.
Qed.

(** X2.  ListLicenses and GetInfo agree: when records sit under their
    own keys, GetInfo on the key of any listed summary succeeds with the
    same license record and the same Used. *)
Theorem ListLicenses_agrees_with_GetInfo s l e :
  wf_DB s →
  ListLicenses s = Ok l →
  e ∈ l →
  ∃ info, GetInfo (Key (InfoLicense e)) s = Ok info
    ∧ InfoLicense info = InfoLicense e
    ∧ InfoUsed info = InfoUsed e
    ∧ List.length (Bindings info) = Z.to_nat (InfoUsed e).
Proof.
  intros Hwf Hl He.
  destruct (ListLicenses_sorted_summaries s) as (l' & Hl' & Hperm & _).
  rewrite Hl in Hl'. injection Hl' as <-.
  rewrite Hperm in He.
  apply list_elem_of_In, in_map_iff in He as ([k lic] & <- & Hin).
  apply list_elem_of_In, elem_of_map_to_list in Hin.
  destruct (Hwf k lic Hin) as (HK & _). cbn [summary InfoLicense InfoUsed fst snd].
  rewrite HK. destruct (getBindings_length s k) as (bs & Hget & Hlen).
  unfold GetInfo, Bolt.View, getLicense. rewrite Hin, Hget.
  eexists. split; [reflexivity|]. cbn [InfoLicense InfoUsed Bindings].
  rewrite Hlen. split_and!; [done | done | lia].
Qed.

Lemma ListLicenses_agrees_with_GetInfo_witness :
  ∃ info, GetInfo Scenario.K Scenario.s4 = Ok info
    ∧ InfoLicense info = mkLicense Scenario.K 2 "demo" true 100
    ∧ InfoUsed info = 2.
Proof.
  destruct (ListLicenses_agrees_with_GetInfo Scenario.s4
              [mkLicenseInfo (mkLicense Scenario.K 2 "demo" true 100) 2 []]
              (mkLicenseInfo (mkLicense Scenario.K 2 "demo" true 100) 2 []))
    as (info & H1 & H2 & H3 & _).
  - apply (bool_decide_unpack _). vm_compute. exact I.
  - vm_compute. reflexivity.
  - apply (bool_decide_unpack _). vm_compute. exact I.
  - exists info. split_and!; [exact H1 | exact H2 | exact H3].
Defined.

(* ===================================================================== *)
(** ** What each operation does to the database *)
(* ===================================================================== *)

(** The record [CreateLicense] leaves in the bucket: the one it returns,
    with the note as its document keeps it. *)
Lemma License_round_trip_new rnd key limit note now :
  license.NewKey rnd = Ok key →
  json.License_round_trip (mkLicense key limit note true now)
  = mkLicense key limit (json.round_trip note) true now.
Proof.
  intros Hkey. unfold json.License_round_trip. cbn [Key Limit Note Enabled CreatedAt].
  by rewrite (NewKey_ascii _ _ Hkey).
Qed.

Lemma CreateLicense_cases limit note rnd now s :
  (CreateLicense limit note rnd now s).2 = s
  ∨ ∃ key, 0 < limit ∧ licenses s !! key = None
      ∧ wf_license key (mkLicense key limit (json.round_trip note) true now)
      ∧ (CreateLicense limit note rnd now s).1 = Ok (mkLicense key limit note true now)
      ∧ (CreateLicense limit note rnd now s).2
        = mkDB (<[key := mkLicense key limit (json.round_trip note) true now]>
                  (licenses s))
               (usage (with_bucket s key)).
Proof.
  unfold CreateLicense. destruct (Z.leb_spec limit 0); [by left|].
  destruct (license.NewKey rnd) as [key|] eqn:Hkey; [|by left].
  cbv zeta. rewrite (License_round_trip_new _ _ _ _ _ Hkey).
  unfold Bolt.Update. destruct (licenses s !! key) eqn:Hk; [by left|].
  unfold Bolt.Put. case_decide as Hz; [by left|]. case_decide as Hl; [by left|].
  unfold Bolt.CreateBucketIfNotExists. rewrite decide_False by done.
  right. exists key. split_and!; [lia | done | | |].
  - split_and!; [done | | lia]. intros Heq. apply Hz. by rewrite Heq.
  - by destruct (usage s !! key).
  - unfold with_bucket. by destruct (usage s !! key).
Qed.

Lemma CreateLicense_ok limit note rnd now s lic s' :
  CreateLicense limit note rnd now s = (Ok lic, s') →
  ∃ key, license.NewKey rnd = Ok key ∧ 0 < limit ∧ licenses s !! key = None
    ∧ lic = mkLicense key limit note true now
    ∧ s' = mkDB (<[key := mkLicense key limit (json.round_trip note) true now]>
                   (licenses s))
                (usage (with_bucket s key)).
Proof.
  unfold CreateLicense. destruct (Z.leb_spec limit 0); [done|].
  destruct (license.NewKey rnd) as [key|] eqn:Hkey; [|done].
  cbv zeta. rewrite (License_round_trip_new _ _ _ _ _ Hkey).
  unfold Bolt.Update. destruct (licenses s !! key) eqn:Hk; [done|].
  unfold Bolt.Put. case_decide as Hz; [done|]. case_decide as Hl; [done|].
  unfold Bolt.CreateBucketIfNotExists. rewrite decide_False by done.
  intros Heq. exists key.
  assert (lic = mkLicense key limit note true now
          ∧ s' = mkDB (<[key := mkLicense key limit (json.round_trip note) true now]>
                         (licenses s))
                      (usage (with_bucket s key))) as [-> ->].
  { unfold with_bucket. destruct (usage s !! key); by injection Heq as <- <-. }
  by split_and!.
Qed.

Lemma putLicense_cases s lic :
  (∃ e, putLicense s lic = Err e)
  ∨ (wf_license (Key lic) lic
     ∧ putLicense s lic = Ok (mkDB (<[Key lic := lic]> (licenses s)) (usage s))).
Proof.
  unfold putLicense, Bolt.Put.
  case_decide as Hz; [left; eauto|]. case_decide as Hl; [left; eauto|].
  right. split; [|done]. split_and!; [done | | lia].
  intros Heq. apply Hz. by rewrite Heq.
Qed.

Lemma SetLimit_cases key limit s :
  (SetLimit key limit s).2 = s
  ∨ ∃ lic, 0 < limit ∧ licenses s !! key = Some lic
      ∧ wf_license (Key lic) (set_limit lic limit)
      ∧ (SetLimit key limit s).2
        = mkDB (<[Key lic := set_limit lic limit]> (licenses s)) (usage s).
Proof.
  unfold SetLimit. destruct (Z.leb_spec limit 0); [by left|].
  unfold Bolt.Update, getLicense. destruct (licenses s !! key) as [lic|] eqn:Hk; [|by left].
  fold (set_limit lic limit).
  destruct (putLicense_cases s (set_limit lic limit)) as [[e ->] | [Hw ->]]; [by left|].
  right. exists lic. by split_and!.
Qed.

Lemma SetEnabled_cases key enabled s :
  (SetEnabled key enabled s).2 = s
  ∨ ∃ lic, licenses s !! key = Some lic
      ∧ wf_license (Key lic) (set_enabled lic enabled)
      ∧ (SetEnabled key enabled s).2
        = mkDB (<[Key lic := set_enabled lic enabled]> (licenses s)) (usage s).
Proof.
  unfold SetEnabled, Bolt.Update, getLicense.
  destruct (licenses s !! key) as [lic|] eqn:Hk; [|by left].
  fold (set_enabled lic enabled).
  destruct (putLicense_cases s (set_enabled lic enabled)) as [[e ->] | [Hw ->]];
    [by left|].
  right. exists lic. by split_and!.
Qed.

(* ===================================================================== *)
(** ** Invariants along every history *)
(* ===================================================================== *)

Lemma exec_positive_limits o s : positive_limits s → positive_limits (exec s o).
Proof.
  intros Hpos. unfold positive_limits in *.
  destruct o as [limit note rnd now | k limit | k enabled | k serverID now]; cbn [exec].
  - destruct (CreateLicense_cases limit note rnd now s)
      as [-> | (key & Hl & _ & _ & _ & ->)]; [done|].
    by apply map_Forall_insert_2.
  - destruct (SetLimit_cases k limit s) as [-> | (lic & Hl & _ & _ & ->)]; [done|].
    by apply map_Forall_insert_2.
  - destruct (SetEnabled_cases k enabled s) as [-> | (lic & Hk & _ & ->)]; [done|].
    apply map_Forall_insert_2; [|done]. exact (Hpos k lic Hk).
  - by rewrite Activate_licenses.
Qed.

Lemma exec_int_limits o s : int_op o → int_limits s → int_limits (exec s o).
Proof.
  intros Hop Hint. unfold int_limits in *.
  destruct o as [limit note rnd now | k limit | k enabled | k serverID now];
    cbn [exec int_op] in *.
  - destruct (CreateLicense_cases limit note rnd now s)
      as [-> | (key & Hl & _ & _ & _ & ->)]; [done|].
    by apply map_Forall_insert_2.
  - destruct (SetLimit_cases k limit s) as [-> | (lic & Hl & _ & _ & ->)]; [done|].
    by apply map_Forall_insert_2.
  - destruct (SetEnabled_cases k enabled s) as [-> | (lic & Hk & _ & ->)]; [done|].
    apply map_Forall_insert_2; [|done]. exact (Hint k lic Hk).
  - by rewrite Activate_licenses.
Qed.

Lemma usage_with_bucket_dom s k :
  dom (usage (with_bucket s k)) = dom (usage s) ∪ {[k]}.
Proof.
  unfold with_bucket. cbn [usage]. destruct (usage s !! k) eqn:Hk.
  - assert (k ∈ dom (usage s)) by (apply elem_of_dom; eauto). set_solver.
  - rewrite dom_insert_L. set_solver.
Qed.

Lemma usage_with_binding_dom s k d sb :
  dom (usage (with_binding s k d sb)) = dom (usage s) ∪ {[k]}.
Proof. unfold with_binding. cbn [usage]. rewrite dom_insert_L. set_solver. Qed.

Lemma exec_buckets_match o s :
  wf_DB s → buckets_match s → buckets_match (exec s o).
Proof.
  intros Hwf Hm. unfold buckets_match in *.
  destruct o as [limit note rnd now | k limit | k enabled | k serverID now]; cbn [exec].
  - destruct (CreateLicense_cases limit note rnd now s)
      as [-> | (key & _ & _ & _ & _ & ->)]; [done|].
    cbn [licenses usage]. rewrite usage_with_bucket_dom, dom_insert_L, Hm. set_solver.
  - destruct (SetLimit_cases k limit s) as [-> | (lic & _ & Hk & _ & ->)]; [done|].
    cbn [licenses usage]. rewrite dom_insert_L, Hm.
    destruct (Hwf k lic Hk) as (HK & _). rewrite HK.
    assert (k ∈ dom (licenses s)) by (apply elem_of_dom; eauto). set_solver.
  - destruct (SetEnabled_cases k enabled s) as [-> | (lic & Hk & _ & ->)]; [done|].
    cbn [licenses usage]. rewrite dom_insert_L, Hm.
    destruct (Hwf k lic Hk) as (HK & _). rewrite HK.
    assert (k ∈ dom (licenses s)) by (apply elem_of_dom; eauto). set_solver.
  - rewrite Activate_licenses.
    destruct (Activate_outcome k serverID now s)
      as [He | Hk Hd Hl | Hv Hn | lic Hv Hlic Hen | lic sb Hv Hlic Hen Hb
          | lic Hv Hlic Hen Hb Hc | lic Hv Hlic Hen Hb Hc]; cbn [snd]; try done.
    all: assert (TrimSpace k ∈ dom (licenses s)) by (apply elem_of_dom; eauto).
    + rewrite usage_with_binding_dom. set_solver.
    + rewrite usage_with_bucket_dom. set_solver.
    + rewrite usage_with_binding_dom. set_solver.
Qed.

Lemma wf_ledger_lookup s k d sb :
  wf_ledger s → binding s k d = Some sb → wf_binding d sb.
Proof.
  unfold wf_ledger, binding, bindings_of. intros Hwf.
  destruct (usage s !! k) as [u|] eqn:Hu; simpl; [|by rewrite lookup_empty].
  intros Hd. exact (Hwf k u Hu d sb Hd).
Qed.

Lemma wf_ledger_with_binding s k d sb :
  wf_ledger s → wf_binding d sb → wf_ledger (with_binding s k d sb).
Proof.
  intros Hwf Hsb. unfold wf_ledger, with_binding. cbn [usage].
  apply map_Forall_insert_2; [|exact Hwf].
  apply map_Forall_insert_2; [exact Hsb|].
  unfold bindings_of. destruct (usage s !! k) as [u|] eqn:Hu; simpl.
  - exact (Hwf k u Hu).
  - apply map_Forall_empty.
Qed.

Lemma wf_ledger_with_bucket s k : wf_ledger s → wf_ledger (with_bucket s k).
Proof.
  intros Hwf. unfold wf_ledger, with_bucket. cbn [usage].
  destruct (usage s !! k); [done|].
  apply map_Forall_insert_2; [apply map_Forall_empty | exact Hwf].
Qed.

Lemma exec_wf_ledger o s : wf_ledger s → wf_ledger (exec s o).
Proof.
  intros Hwf.
  destruct o as [limit note rnd now | k limit | k enabled | k serverID now]; cbn [exec].
  - destruct (CreateLicense_cases limit note rnd now s)
      as [-> | (key & _ & _ & _ & _ & ->)]; [done|].
    by apply (wf_ledger_with_bucket s key).
  - unfold wf_ledger. by rewrite SetLimit_usage.
  - unfold wf_ledger. by rewrite SetEnabled_usage.
  - destruct (Activate_outcome k serverID now s)
      as [He | Hk Hd Hl | Hv Hn | lic Hv Hlic Hen | lic sb Hv Hlic Hen Hb
          | lic Hv Hlic Hen Hb Hc | lic Hv Hlic Hen Hb Hc]; cbn [snd]; try done.
    + apply wf_ledger_with_binding; [done|].
      destruct (wf_ledger_lookup s _ _ sb Hwf Hb) as (Hid & Hne & Hlen & _).
      split_and!; [done | done | done | apply wrap_int_is_int].
    + by apply wf_ledger_with_bucket.
    + apply wf_ledger_with_binding; [done|].
      destruct Hv as (_ & Hne & Hlen). split_and!; [done | done | done |].
      unfold is_int, min_int, max_int. simpl. lia.
Qed.

Lemma run_ops_store_inv ops : ∀ s, store_inv_holds s → store_inv_holds (run_ops ops s).
Proof.
  induction ops as [|o rest IH]; intros s Hs; [done|].
  apply IH. destruct Hs as (H1 & H2 & H3 & H4).
  split_and!; [by apply exec_wf | by apply exec_positive_limits
              | by apply exec_buckets_match | by apply exec_wf_ledger].
Qed.

Lemma empty_DB_store_inv : store_inv_holds empty_DB.
Proof.
  split_and!; try apply map_Forall_empty.
  unfold buckets_match, empty_DB. simpl. by rewrite !dom_empty_L.
Qed.

(** Every record in a bucket is one its own document gives back: the
    strings that enter the store, the note of [CreateLicense] and the
    device id of a new binding, enter it as a document keeps them, and
    the records written back by [SetLimit], [SetEnabled] and a refresh
    carry the strings that were read. *)
Lemma documents_lookup_license s k lic :
  documents s → licenses s !! k = Some lic →
  json.round_trip (Key lic) = Key lic ∧ json.round_trip (Note lic) = Note lic.
Proof.
  intros [Hl _] Hk. specialize (Hl k lic Hk). simpl in Hl.
  unfold json.License_round_trip in Hl. destruct lic. simpl in *.
  by injection Hl as -> ->.
Qed.

Lemma documents_put_license s k lic :
  documents s → json.License_round_trip lic = lic →
  documents (mkDB (<[k := lic]> (licenses s)) (usage s)).
Proof.
  intros [Hl Hu] Hlic. split; [|exact Hu]. by apply map_Forall_insert_2.
Qed.

Lemma documents_with_bucket s k : documents s → documents (with_bucket s k).
Proof.
  intros [Hl Hu]. split; [exact Hl|]. unfold with_bucket. cbn [usage].
  destruct (usage s !! k); [done|].
  apply map_Forall_insert_2; [apply map_Forall_empty | exact Hu].
Qed.

Lemma documents_with_binding s k d sb :
  documents s → json.ServerBinding_round_trip sb = sb →
  documents (with_binding s k d sb).
Proof.
  intros [Hl Hu] Hsb. split; [exact Hl|]. unfold with_binding. cbn [usage].
  apply map_Forall_insert_2; [|exact Hu].
  apply map_Forall_insert_2; [exact Hsb|].
  unfold bindings_of. destruct (usage s !! k) as [u|] eqn:Hk; simpl.
  - exact (Hu k u Hk).
  - apply map_Forall_empty.
Qed.

Lemma documents_lookup_binding s k d sb :
  documents s → binding s k d = Some sb → json.ServerBinding_round_trip sb = sb.
Proof.
  intros [_ Hu]. unfold binding, bindings_of.
  destruct (usage s !! k) as [u|] eqn:Hk; simpl; [|by rewrite lookup_empty].
  intros Hd. exact (Hu k u Hk d sb Hd).
Qed.

Lemma exec_documents o s : documents s → documents (exec s o).
Proof.
  intros Hdoc.
  destruct o as [limit note rnd now | k limit | k enabled | k serverID now]; cbn [exec].
  - destruct (CreateLicense limit note rnd now s) as [[lic|e] s'] eqn:Hc; cbn [snd].
    + apply CreateLicense_ok in Hc as (key & Hkey & _ & _ & _ & ->).
      apply (documents_put_license (with_bucket s key)).
      * by apply documents_with_bucket.
      * unfold json.License_round_trip. cbn [Key Limit Note Enabled CreatedAt].
        by rewrite (NewKey_ascii _ _ Hkey), round_trip_idem.
    + destruct (CreateLicense_cases limit note rnd now s)
        as [H | (key & _ & _ & _ & H & _)]; rewrite Hc in H; cbn [fst snd] in H;
        [by subst | discriminate].
  - destruct (SetLimit_cases k limit s) as [-> | (lic & _ & Hk & _ & ->)]; [done|].
    destruct (documents_lookup_license s k lic Hdoc Hk) as [HK HN].
    apply documents_put_license; [done|].
    unfold json.License_round_trip, set_limit. simpl. by rewrite HK, HN.
  - destruct (SetEnabled_cases k enabled s) as [-> | (lic & Hk & _ & ->)]; [done|].
    destruct (documents_lookup_license s k lic Hdoc Hk) as [HK HN].
    apply documents_put_license; [done|].
    unfold json.License_round_trip, set_enabled. simpl. by rewrite HK, HN.
  - destruct (Activate_outcome k serverID now s)
      as [He | Hk Hd Hl | Hv Hn | lic Hv Hlic Hen | lic sb Hv Hlic Hen Hb
          | lic Hv Hlic Hen Hb Hc | lic Hv Hlic Hen Hb Hc]; cbn [snd]; try done.
    + apply documents_with_binding; [done|].
      pose proof (documents_lookup_binding s _ _ sb Hdoc Hb) as Hsb.
      unfold json.ServerBinding_round_trip, refreshed in *. destruct sb. simpl in *.
      by injection Hsb as ->.
    + by apply documents_with_bucket.
    + apply documents_with_binding; [done|].
      apply ServerBinding_round_trip_idem.
Qed.

Lemma run_ops_documents ops : ∀ s, documents s → documents (run_ops ops s).
Proof.
  induction ops as [|o rest IH]; intros s Hs; [done|].
  apply IH. by apply exec_documents.
Qed.

Lemma empty_DB_documents : documents empty_DB.
Proof. split; apply map_Forall_empty. Qed.

(* ===================================================================== *)
(** ** Nothing is ever taken away *)
(* ===================================================================== *)

Lemma exec_license_persists o s k lic :
  wf_DB s → licenses s !! k = Some lic →
  ∃ lic', licenses (exec s o) !! k = Some lic'
    ∧ Key lic' = Key lic ∧ Note lic' = Note lic ∧ CreatedAt lic' = CreatedAt lic.
Proof.
  intros Hwf Hk.
  destruct o as [limit note rnd now | k0 limit | k0 enabled | k0 serverID now]; cbn [exec].
  - destruct (CreateLicense_cases limit note rnd now s)
      as [-> | (key & _ & Hnone & _ & _ & ->)]; [by exists lic|].
    cbn [licenses]. rewrite lookup_insert_ne by congruence. by exists lic.
  - destruct (SetLimit_cases k0 limit s) as [-> | (lic0 & _ & Hk0 & _ & ->)];
      [by exists lic|].
    cbn [licenses]. destruct (Hwf k0 lic0 Hk0) as (HK & _). rewrite HK.
    destruct (decide (k0 = k)) as [->|Hne].
    + rewrite lookup_insert_eq. rewrite Hk in Hk0. injection Hk0 as <-.
      by eexists.
    + rewrite lookup_insert_ne by done. by exists lic.
  - destruct (SetEnabled_cases k0 enabled s) as [-> | (lic0 & Hk0 & _ & ->)];
      [by exists lic|].
    cbn [licenses]. destruct (Hwf k0 lic0 Hk0) as (HK & _). rewrite HK.
    destruct (decide (k0 = k)) as [->|Hne].
    + rewrite lookup_insert_eq. rewrite Hk in Hk0. injection Hk0 as <-.
      by eexists.
    + rewrite lookup_insert_ne by done. by exists lic.
  - rewrite Activate_licenses. by exists lic.
Qed.

Lemma exec_binding_persists o s k d sb :
  binding s k d = Some sb →
  ∃ sb', binding (exec s o) k d = Some sb'
    ∧ ServerID sb' = ServerID sb ∧ FirstSeen sb' = FirstSeen sb.
Proof.
  intros Hb.
  destruct o as [limit note rnd now | k0 limit | k0 enabled | k0 serverID now]; cbn [exec].
  - unfold binding. rewrite CreateLicense_bindings_of. by exists sb.
  - unfold binding, bindings_of. rewrite SetLimit_usage. by exists sb.
  - unfold binding, bindings_of. rewrite SetEnabled_usage. by exists sb.
  - destruct (Activate_outcome k0 serverID now s)
      as [He | Hk Hd Hl | Hv Hn | lic Hv Hlic Hen | lic sb0 Hv Hlic Hen Hb0
          | lic Hv Hlic Hen Hb0 Hc | lic Hv Hlic Hen Hb0 Hc]; cbn [snd];
      try (by exists sb).
    + rewrite binding_with_binding. case_decide as Heq; [|by exists sb].
      destruct Heq as [<- <-]. assert (sb0 = sb) as -> by congruence.
      by eexists.
    + rewrite binding_with_bucket. by exists sb.
    + rewrite binding_with_binding. case_decide as Heq; [|by exists sb].
      destruct Heq as [<- <-]. congruence.
Qed.

Lemma run_ops_license_persists ops : ∀ s k lic,
  wf_DB s → licenses s !! k = Some lic →
  ∃ lic', licenses (run_ops ops s) !! k = Some lic'
    ∧ Key lic' = Key lic ∧ Note lic' = Note lic ∧ CreatedAt lic' = CreatedAt lic.
Proof.
  induction ops as [|o rest IH]; intros s k lic Hwf Hk; [by exists lic|].
  destruct (exec_license_persists o s k lic Hwf Hk) as (lic1 & H1 & HK & HN & HC).
  destruct (IH (exec s o) k lic1 (exec_wf o s Hwf) H1) as (lic2 & H2 & HK2 & HN2 & HC2).
  exists lic2. split; [exact H2|]. split_and!; congruence.
Qed.

Lemma run_ops_binding_persists ops : ∀ s k d sb,
  binding s k d = Some sb →
  ∃ sb', binding (run_ops ops s) k d = Some sb'
    ∧ ServerID sb' = ServerID sb ∧ FirstSeen sb' = FirstSeen sb.
Proof.
  induction ops as [|o rest IH]; intros s k d sb Hb; [by exists sb|].
  destruct (exec_binding_persists o s k d sb Hb) as (sb1 & H1 & HS & HF).
  destruct (IH (exec s o) k d sb1 H1) as (sb2 & H2 & HS2 & HF2).
  exists sb2. split; [exact H2|]. split; congruence.
Qed.

(** X3.  In every database the store reaches from the empty one, every
    license record sits under its own key and has a limit above zero,
    the licenses and the usage buckets have the same keys, and every
    binding sits under a device id that is non-empty and at most 128
    bytes long, with a seen_count that is a Go int; the server_id of its
    record is that device id as the JSON document of the binding keeps
    it, U+FFFD standing for each byte that is no UTF-8.  Every stored
    record is one its own document gives back, so that writing it again,
    as SetLimit, SetEnabled and a refresh do, changes none of its
    strings. *)
Theorem reachable_store_invariants ops :
  let s := run_ops ops empty_DB in
  (∀ k lic, licenses s !! k = Some lic →
     Key lic = k ∧ k ≠ "" ∧ 0 < Limit lic ∧ json.License_round_trip lic = lic)
  ∧ (∀ k, is_Some (licenses s !! k) ↔ is_Some (usage s !! k))
  ∧ (∀ k d sb, binding s k d = Some sb →
       ServerID sb = json.round_trip d
       ∧ d ≠ "" ∧ Z.of_nat (String.length d) <= 128
       ∧ is_int (SeenCount sb)
       ∧ json.ServerBinding_round_trip sb = sb
       ∧ is_Some (licenses s !! k)).
Proof.
  intros s.
  destruct (run_ops_store_inv ops empty_DB empty_DB_store_inv) as (Hwf & Hpos & Hm & Hled).
  pose proof (run_ops_documents ops empty_DB empty_DB_documents) as Hdoc.
  fold s in Hwf, Hpos, Hm, Hled, Hdoc. split_and!.
  - intros k lic Hk. destruct (Hwf k lic Hk) as (HK & Hne & _).
    split_and!; [done | done | exact (Hpos k lic Hk) | exact (proj1 Hdoc k lic Hk)].
  - intros k. rewrite <- !elem_of_dom. by rewrite Hm.
  - intros k d sb Hb.
    destruct (wf_ledger_lookup s k d sb Hled Hb) as (H1 & H2 & H3 & H4).
    split_and!; try done.
    + by apply (documents_lookup_binding s k d).
    + apply elem_of_dom. rewrite <- Hm. apply elem_of_dom.
      unfold binding, bindings_of in Hb.
      destruct (usage s !! k); [eauto | simpl in Hb; by rewrite lookup_empty in Hb].
Qed.

(** X4.  In every database the store reaches from the empty one, an
    Activate call that is answered ok=false leaves the database exactly
    as it was: not a bucket is created. *)
Theorem reachable_rejection_changes_nothing ops key serverID now :
  let s := run_ops ops empty_DB in
  ∀ r, (Activate key serverID now s).1 = Ok r → OK r = false →
       (Activate key serverID now s).2 = s.
Proof.
  intros s r.
  destruct (run_ops_store_inv ops empty_DB empty_DB_store_inv) as (_ & _ & Hm & _).
  fold s in Hm.
  destruct (Activate_outcome key serverID now s)
    as [He | Hk Hd Hl | Hv Hn | lic Hv Hlic Hen | lic sb Hv Hlic Hen Hb
        | lic Hv Hlic Hen Hb Hc | lic Hv Hlic Hen Hb Hc]; cbn [fst snd];
    try done.
  - intros [= <-]. done.
  - intros _ _. unfold with_bucket.
    assert (is_Some (usage s !! TrimSpace key)) as [u ->].
    { apply elem_of_dom. rewrite Hm. apply elem_of_dom. eauto. }
    by destruct s.
  - intros [= <-]. done.
Qed.

Lemma reachable_rejection_changes_nothing_witness :
  (Activate Scenario.K "C" 103 (run_ops scenario_ops empty_DB)).2
  = run_ops scenario_ops empty_DB.
Proof.
  apply (reachable_rejection_changes_nothing scenario_ops Scenario.K "C" 103
           (mkActivateResult false "limit_reached" 2 2 false)).
  - vm_compute. reflexivity.
  - reflexivity.
Defined.

(** X5.  A license is never lost and its identity never changes: over
    any further history, a stored license stays stored under its key,
    with the same key, note and created_at. *)
Theorem license_persists ops s k lic :
  wf_DB s →
  licenses s !! k = Some lic →
  ∃ lic', licenses (run_ops ops s) !! k = Some lic'
    ∧ Key lic' = Key lic ∧ Note lic' = Note lic ∧ CreatedAt lic' = CreatedAt lic.
Proof. apply run_ops_license_persists. Qed.

Lemma license_persists_witness :
  ∃ lic', licenses (run_ops [OpSetLimit Scenario.K 7; OpSetEnabled Scenario.K false]
                      Scenario.s2) !! Scenario.K = Some lic'
    ∧ Key lic' = Scenario.K ∧ Note lic' = "demo" ∧ CreatedAt lic' = 100.
Proof.
  apply (license_persists [OpSetLimit Scenario.K 7; OpSetEnabled Scenario.K false]
           Scenario.s2 Scenario.K (mkLicense Scenario.K 2 "demo" true 100)).
  - apply (bool_decide_unpack _). vm_compute. exact I.
  - vm_compute. reflexivity.
Defined.

(** X6.  A binding is never lost: over any further history, whatever
    limits are set and whichever licenses are disabled, a bound device
    stays bound under its license, with the same server id and
    first_seen. *)
Theorem binding_persists ops s k d sb :
  binding s k d = Some sb →
  ∃ sb', binding (run_ops ops s) k d = Some sb'
    ∧ ServerID sb' = ServerID sb ∧ FirstSeen sb' = FirstSeen sb.
Proof. apply run_ops_binding_persists. Qed.

Lemma binding_persists_witness :
  ∃ sb', binding (run_ops [OpSetLimit Scenario.K 1; OpActivate Scenario.K "A" 500;
                           OpSetEnabled Scenario.K false] Scenario.s2)
           Scenario.K "A" = Some sb'
    ∧ ServerID sb' = "A" ∧ FirstSeen sb' = 101.
Proof.
  apply (binding_persists [OpSetLimit Scenario.K 1; OpActivate Scenario.K "A" 500;
                           OpSetEnabled Scenario.K false]
           Scenario.s2 Scenario.K "A" (mkServerBinding "A" 101 101 1)).
  vm_compute. reflexivity.
Defined.

(** X7.  Once admitted, always re-admitted: after any further history,
    a device bound under a license is answered ok=true with
    newly_bound=false whenever the license is enabled at that time,
    whatever its limit has become and however many devices it holds. *)
Theorem bound_device_readmitted ops s key serverID now sb lic :
  valid_request key serverID →
  binding s (TrimSpace key) (TrimSpace serverID) = Some sb →
  licenses (run_ops ops s) !! TrimSpace key = Some lic →
  Enabled lic = true →
  ∃ r, (Activate key serverID now (run_ops ops s)).1 = Ok r
    ∧ OK r = true ∧ NewlyBound r = false ∧ ResLimit r = Limit lic.
Proof.
  intros Hv Hb Hlic Hen.
  destruct (run_ops_binding_persists ops s _ _ sb Hb) as (sb' & Hb' & _).
  rewrite (Activate_refresh key serverID now _ lic sb') by done.
  eexists. split; [reflexivity|]. done.
Qed.

Lemma bound_device_readmitted_witness :
  ∃ r, (Activate Scenario.K "A" 600
          (run_ops [OpSetLimit Scenario.K 1; OpSetEnabled Scenario.K false;
                    OpSetEnabled Scenario.K true] Scenario.s2)).1 = Ok r
    ∧ OK r = true ∧ NewlyBound r = false ∧ ResLimit r = 1.
Proof.
  apply (bound_device_readmitted
           [OpSetLimit Scenario.K 1; OpSetEnabled Scenario.K false;
            OpSetEnabled Scenario.K true]
           Scenario.s2 Scenario.K "A" 600 (mkServerBinding "A" 101 101 1)
           (mkLicense Scenario.K 1 "demo" true 100)).
  - apply (bool_decide_unpack _). vm_compute. exact I.
  - vm_compute. reflexivity.
  - vm_compute. reflexivity.
  - reflexivity.
Defined.

(* ===================================================================== *)
(** ** The ceiling *)
(* ===================================================================== *)

Lemma bound_count_exec_Create limit note rnd now s k :
  bound_count (CreateLicense limit note rnd now s).2 k = bound_count s k.
Proof. unfold bound_count. by rewrite CreateLicense_bindings_of. Qed.

Lemma exec_within_limits o s :
  wf_DB s → buckets_match s → int_limits s → within_limits s →
  int_op o →
  match o with
  | OpSetLimit k limit => Z.of_nat (bound_count s k) <= limit
  | _ => True
  end →
  within_limits (exec s o).
Proof.
  intros Hwf Hm Hint Hin Hop Hroom k lic.
  destruct o as [limit note rnd now | k0 limit | k0 enabled | k0 serverID now]; cbn [exec].
  - rewrite bound_count_exec_Create.
    destruct (CreateLicense_cases limit note rnd now s)
      as [-> | (key & Hpos & Hnone & _ & _ & ->)]; [by apply Hin|].
    cbn [licenses]. destruct (decide (key = k)) as [->|Hne].
    + rewrite lookup_insert_eq. intros [= <-]. cbn [Limit].
      assert (usage s !! k = None) as Hu.
      { apply not_elem_of_dom. rewrite Hm. by apply not_elem_of_dom. }
      unfold bound_count, bindings_of. rewrite Hu. simpl.
      rewrite map_size_empty. lia.
    + rewrite lookup_insert_ne by done. by apply Hin.
  - assert (Hbc : bound_count (SetLimit k0 limit s).2 k = bound_count s k).
    { unfold bound_count, bindings_of. by rewrite SetLimit_usage. }
    rewrite Hbc.
    destruct (SetLimit_cases k0 limit s) as [-> | (lic0 & _ & Hk0 & _ & ->)];
      [by apply Hin|].
    cbn [licenses]. destruct (Hwf k0 lic0 Hk0) as (HK & _). rewrite HK.
    destruct (decide (k0 = k)) as [->|Hne].
    + rewrite lookup_insert_eq. intros [= <-]. exact Hroom.
    + rewrite lookup_insert_ne by done. by apply Hin.
  - assert (Hbc : bound_count (SetEnabled k0 enabled s).2 k = bound_count s k).
    { unfold bound_count, bindings_of. by rewrite SetEnabled_usage. }
    rewrite Hbc.
    destruct (SetEnabled_cases k0 enabled s) as [-> | (lic0 & Hk0 & _ & ->)];
      [by apply Hin|].
    cbn [licenses]. destruct (Hwf k0 lic0 Hk0) as (HK & _). rewrite HK.
    destruct (decide (k0 = k)) as [->|Hne].
    + rewrite lookup_insert_eq. intros [= <-]. cbn [set_enabled Limit].
      by apply Hin.
    + rewrite lookup_insert_ne by done. by apply Hin.
  - rewrite Activate_licenses. intros Hk. specialize (Hin k lic Hk).
    destruct (Activate_outcome k0 serverID now s)
      as [He | Hk1 Hd Hl | Hv Hn | lic0 Hv Hlic Hen | lic0 sb Hv Hlic Hen Hb
          | lic0 Hv Hlic Hen Hb Hc | lic0 Hv Hlic Hen Hb Hc]; cbn [snd]; try done.
    + unfold bound_count in *. rewrite bindings_of_with_binding.
      case_decide as Heq; [|done]. subst k.
      rewrite map_size_insert_Some by eauto. done.
    + unfold bound_count in *. by rewrite bindings_of_with_bucket.
    + unfold bound_count in *. rewrite bindings_of_with_binding.
      case_decide as Heq; [|done]. subst k.
      rewrite map_size_insert_None by exact Hb.
      assert (lic0 = lic) as -> by congruence.
      pose proof (Hint _ lic Hk) as Hmax. simpl in Hmax.
      rewrite countKeys_small in Hc by lia. lia.
Qed.

Lemma run_ops_within_limits ops : ∀ s,
  wf_DB s → buckets_match s → int_limits s → within_limits s →
  Forall int_op ops → keeps_room ops s →
  within_limits (run_ops ops s).
Proof.
  induction ops as [|o rest IH]; intros s Hwf Hm Hint Hin Hops Hroom; [done|].
  apply Forall_cons in Hops as [Hop Hops]. destruct Hroom as [Hr Hroom].
  cbn [run_ops fold_left]. apply IH.
  - by apply exec_wf.
  - by apply exec_buckets_match.
  - by apply exec_int_limits.
  - by apply exec_within_limits.
  - done.
  - done.
Qed.

(** X8.  The ceiling holds as long as no limit is lowered under it: in
    every history from the empty database, called with limits that are Go
    ints, in which no SetLimit sets a limit below the number of devices
    the license has bound at that moment, no license ever has more
    devices bound than its limit. *)
Theorem bound_devices_within_limit ops k lic :
  Forall int_op ops →
  keeps_room ops empty_DB →
  licenses (run_ops ops empty_DB) !! k = Some lic →
  Z.of_nat (bound_count (run_ops ops empty_DB) k) <= Limit lic.
Proof.
  intros Hops Hroom.
  destruct empty_DB_store_inv as (Hwf & _ & Hm & _).
  apply (run_ops_within_limits ops empty_DB);
    [exact Hwf | exact Hm | apply map_Forall_empty | | exact Hops | exact Hroom].
  intros k' lic'. unfold empty_DB. cbn [licenses]. by rewrite lookup_empty.
Qed.

Lemma bound_devices_within_limit_witness :
  Z.of_nat (bound_count (run_ops (scenario_ops ++ [OpSetLimit Scenario.K 3])%list
                           empty_DB) Scenario.K) <= 3.
Proof.
  apply (bound_devices_within_limit (scenario_ops ++ [OpSetLimit Scenario.K 3])%list
           Scenario.K (mkLicense Scenario.K 3 "demo" true 100)).
  - repeat constructor; vm_compute; discriminate.
  - vm_compute. repeat split; discriminate.
  - vm_compute. reflexivity.
Defined.

(* ===================================================================== *)
(** ** The keys NewKey makes *)
(* ===================================================================== *)

Lemma alphabet_upper :
  Forall (fun c => (if (97 <=? c)%N && (c <=? 122)%N then (c - 32)%N else c) = c)
         (0%N :: license.alphabet).
Proof. apply (bool_decide_unpack _). vm_compute. exact I. Qed.

Lemma quintet_cases g : license.quintet g ∈ (0%N :: license.alphabet).
Proof.
  unfold license.quintet. destruct (license.alphabet !! _) as [c|] eqn:Hc; simpl.
  - right. by eapply list_elem_of_lookup_2.
  - left.
Qed.

(** The encoding has no lower-case letter for [ToUpper] to change. *)
Lemma ToUpper_base32 b :
  license.ToUpper (license.base32_encode b) = license.base32_encode b.
Proof.
  unfold license.ToUpper, license.base32_encode.
  rewrite List.map_map. apply List.map_ext.
  intros g. pose proof alphabet_upper as H. rewrite Forall_forall in H.
  apply H. apply quintet_cases.
Qed.

Lemma quintet5_alphabet a b c d e :
  license.quintet [a; b; c; d; e] ∈ license.alphabet.
Proof.
  destruct a, b, c, d, e; apply (bool_decide_unpack _); vm_compute; exact I.
Qed.

(** A letter of the alphabet is an ASCII byte that is neither a space
    nor the hyphen. *)
Lemma alphabet_plain c :
  c ∈ license.alphabet →
  (c <? Utf8.RuneSelf)%N = true ∧ Utf8.asciiSpace c = false ∧ c ≠ 45%N
  ∧ N_of_ascii (ascii_of_N c) = c.
Proof.
  intros Hc.
  assert (Forall (fun c => (c <? Utf8.RuneSelf)%N = true ∧ Utf8.asciiSpace c = false
                           ∧ c ≠ 45%N ∧ N_of_ascii (ascii_of_N c) = c)
                 license.alphabet) as H.
  { apply (bool_decide_unpack _). vm_compute. exact I. }
  rewrite Forall_forall in H. by apply H.
Qed.

Lemma quintet5_inj a b c d e a' b' c' d' e' :
  ascii_of_N (license.quintet [a; b; c; d; e])
  = ascii_of_N (license.quintet [a'; b'; c'; d'; e']) →
  a = a' ∧ b = b' ∧ c = c' ∧ d = d' ∧ e = e'.
Proof.
  destruct a, b, c, d, e, a', b', c', d', e'; vm_compute; intros H;
    first [discriminate H | repeat split].
Qed.

(** A byte is its eight bits. *)
Lemma byte_bits_inj n m :
  (n < 256)%N → (m < 256)%N →
  license.bits_of_byte n = license.bits_of_byte m → n = m.
Proof.
  intros Hn Hm Hbits. unfold license.bits_of_byte in Hbits. simpl in Hbits.
  injection Hbits as H7 H6 H5 H4 H3 H2 H1 H0.
  apply N.bits_inj. intros i.
  destruct (N.lt_ge_cases i 8) as [Hi|Hi].
  - assert (i = 0 ∨ i = 1 ∨ i = 2 ∨ i = 3 ∨ i = 4 ∨ i = 5 ∨ i = 6 ∨ i = 7)%N
      as Hcases by lia.
    destruct Hcases as [->|[->|[->|[->|[->|[->|[->| ->]]]]]]]; assumption.
  - assert (∀ x, (x < 256)%N → N.testbit x i = false) as Hhigh.
    { intros x Hx. destruct (N.eq_dec x 0) as [->|Hx0]; [apply N.bits_0|].
      apply N.bits_above_log2.
      assert (N.log2 x < 8)%N by (apply N.log2_lt_pow2; [lia | exact Hx]).
      lia. }
    by rewrite !Hhigh.
Qed.

Ltac twenty_bytes b Hb :=
  do 20 (destruct b as [|? b]; [discriminate Hb|]);
  destruct b; [|discriminate Hb].

(** X9.  The key NewKey makes of a 20-byte buffer is 47 bytes long: the
    prefix KYPAQET- and eight groups of four letters of the base32
    alphabet, joined by hyphens. *)
Theorem NewKey_shape b :
  List.length b = 20%nat →
  ∃ key gs, license.NewKey (Ok b) = Ok key
    ∧ key = "KYPAQET-" ++ license.Join (List.map Bytes.to_string gs) "-"
    ∧ key_groups gs
    ∧ String.length key = 47%nat.
Proof.
  intros Hb. twenty_bytes b Hb.
  unfold license.NewKey. rewrite ToUpper_base32. unfold license.base32_encode.
  eexists. eexists. split; [reflexivity|]. split; [reflexivity|]. split.
  - cbn -[license.quintet N.testbit]. split; [reflexivity|].
    repeat (apply Forall_cons_2;
            [split; [reflexivity|];
             repeat (apply Forall_cons_2; [apply quintet5_alphabet|]);
             apply Forall_nil_2|]).
    apply Forall_nil_2.
  - vm_compute. reflexivity.
Qed.

Lemma NewKey_shape_witness :
  ∃ key gs, license.NewKey (Ok (Bytes.of_string "foobar----foobar----")) = Ok key
    ∧ key = "KYPAQET-" ++ license.Join (List.map Bytes.to_string gs) "-"
    ∧ key_groups gs
    ∧ String.length key = 47%nat.
Proof. apply (NewKey_shape (Bytes.of_string "foobar----foobar----")). reflexivity. Defined.

(** X10.  NewKey is one-to-one on 20-byte buffers: two buffers give the
    same key only when they are the same bytes, so keys collide only when
    the random source repeats itself. *)
Theorem NewKey_injective b b' :
  List.length b = 20%nat → List.length b' = 20%nat →
  Forall (fun x => (x < 256)%N) b → Forall (fun x => (x < 256)%N) b' →
  license.NewKey (Ok b) = license.NewKey (Ok b') →
  b = b'.
Proof.
  intros Hb Hb' Hr Hr'. twenty_bytes b Hb. twenty_bytes b' Hb'.
  unfold license.NewKey. rewrite !ToUpper_base32. unfold license.base32_encode.
  cbv -[license.quintet N.testbit ascii_of_N].
  intros Heq. injection Heq. clear Heq. intros.
  repeat match goal with
  | H : ascii_of_N (license.quintet _) = ascii_of_N (license.quintet _) |- _ =>
    apply quintet5_inj in H as (? & ? & ? & ? & ?)
  end.
  repeat match goal with
  | H : Forall _ (_ :: _) |- _ => apply Forall_cons in H as [? H]
  end.
  repeat f_equal;
    (apply byte_bits_inj;
     [assumption | assumption | unfold license.bits_of_byte; simpl; congruence]).
Qed.

Lemma NewKey_injective_witness : replicate 20 7%N = replicate 20 7%N.
Proof.
  apply (NewKey_injective (replicate 20 7%N) (replicate 20 7%N)).
  - reflexivity.
  - reflexivity.
  - apply (bool_decide_unpack _). vm_compute. exact I.
  - apply (bool_decide_unpack _). vm_compute. exact I.
  - reflexivity.
Defined.

(** Text that starts and ends with an ASCII byte that is no space is
    left alone by [strings.TrimSpace]. *)
Lemma trim_space_start_plain c l d r :
  rev (c :: l) = d :: r →
  (c <? Utf8.RuneSelf)%N = true → Utf8.asciiSpace c = false →
  (d <? Utf8.RuneSelf)%N = true → Utf8.asciiSpace d = false →
  Utf8.trim_space_start (c :: l) = c :: l.
Proof.
  intros Hrev Hc Hcs Hd Hds. cbn [Utf8.trim_space_start].
  apply N.ltb_lt in Hc. apply N.ltb_lt in Hd.
  destruct (N.leb_spec Utf8.RuneSelf c); [lia|]. rewrite Hcs.
  rewrite Hrev. cbn [Utf8.trim_space_stop].
  destruct (N.leb_spec Utf8.RuneSelf d); [lia|]. rewrite Hds.
  by rewrite <- Hrev, rev_involutive.
Qed.

Lemma NewKey_plain b :
  List.length b = 20%nat →
  ∃ key, license.NewKey (Ok b) = Ok key ∧ TrimSpace key = key ∧ key ≠ "".
Proof.
  intros Hb. twenty_bytes b Hb.
  unfold license.NewKey. rewrite ToUpper_base32. unfold license.base32_encode.
  eexists. split; [reflexivity|]. split; [|discriminate].
  unfold TrimSpace.
  match goal with
  | |- Bytes.to_string (Utf8.trim_space_start (Bytes.of_string ?k)) = _ =>
    rewrite <- (to_of_string k) at 2; f_equal
  end.
  cbn -[license.quintet N.testbit Utf8.trim_space_start ascii_of_N N_of_ascii].
  eapply trim_space_start_plain.
  - cbn -[license.quintet N.testbit ascii_of_N N_of_ascii]. reflexivity.
  - reflexivity.
  - reflexivity.
  - match goal with
    | |- context [license.quintet [?a; ?b; ?c; ?d; ?e]] =>
      by destruct (alphabet_plain _ (quintet5_alphabet a b c d e))
        as (H1 & H2 & H3 & ->)
    end.
  - match goal with
    | |- context [license.quintet [?a; ?b; ?c; ?d; ?e]] =>
      by destruct (alphabet_plain _ (quintet5_alphabet a b c d e))
        as (H1 & H2 & H3 & ->)
    end.
Qed.

(** X11.  A license just created is ready for use under the key that
    CreateLicense returned: in every database the store reaches, after a
    successful CreateLicense the returned key is untouched by the
    trimming of Activate; GetInfo on it shows Used = 0, no bindings and
    the stored record, which is the returned one with the note as its
    JSON document keeps it, so the returned record itself when the note
    is well-formed UTF-8; and the first Activate for any valid device id
    is admitted with used = 1 and newly_bound = true. *)
Theorem created_license_is_usable ops limit note b now lic s' :
  List.length b = 20%nat →
  CreateLicense limit note (Ok b) now (run_ops ops empty_DB) = (Ok lic, s') →
  TrimSpace (Key lic) = Key lic
  ∧ GetInfo (Key lic) s'
    = Ok (mkLicenseInfo
            (mkLicense (Key lic) limit (json.round_trip note) true now) 0 [])
  ∧ (json.round_trip note = note →
     GetInfo (Key lic) s' = Ok (mkLicenseInfo lic 0 []))
  ∧ ∀ serverID now',
      TrimSpace serverID ≠ "" →
      Z.of_nat (String.length (TrimSpace serverID)) <= 128 →
      (Activate (Key lic) serverID now' s').1 = admitted 1 limit true.
Proof.
  intros Hb Hcreate. set (s := run_ops ops empty_DB) in *.
  destruct (run_ops_store_inv ops empty_DB empty_DB_store_inv) as (_ & _ & Hm & _).
  fold s in Hm.
  destruct (CreateLicense_ok _ _ _ _ _ _ _ Hcreate)
    as (key & Hkey & Hpos & Hnone & Hlic & Hs').
  destruct (NewKey_plain b Hb) as (key' & Hkey' & Htrim & Hne).
  rewrite Hkey in Hkey'. injection Hkey' as <-.
  assert (HK : Key lic = key) by (by rewrite Hlic).
  assert (Hu : usage s !! key = None).
  { apply not_elem_of_dom. rewrite Hm. by apply not_elem_of_dom. }
  assert (Hu' : usage s' !! key = Some ∅).
  { rewrite Hs'. unfold with_bucket. cbn [usage]. rewrite Hu.
    by rewrite lookup_insert_eq. }
  set (stored := mkLicense key limit (json.round_trip note) true now) in *.
  assert (Hl' : licenses s' !! key = Some stored).
  { rewrite Hs'. cbn [licenses]. by rewrite lookup_insert_eq. }
  assert (Hinfo : GetInfo key s' = Ok (mkLicenseInfo stored 0 [])).
  { unfold GetInfo, Bolt.View, getLicense, getBindings. rewrite Hl', Hu'.
    by rewrite map_to_list_empty. }
  rewrite HK. split_and!.
  - exact Htrim.
  - exact Hinfo.
  - intros Hnote. rewrite Hinfo, Hlic. unfold stored. by rewrite Hnote.
  - intros serverID now' Hd Hlen.
    assert (Hv : valid_request key serverID).
    { unfold valid_request. rewrite Htrim. by split_and!. }
    rewrite Activate_valid by exact Hv. rewrite Htrim.
    assert (Hbind : bindings_of s' key = ∅).
    { unfold bindings_of. by rewrite Hu'. }
    rewrite (tx_admit key (TrimSpace serverID) now' s' stored).
    + cbn [fst]. unfold admitted. rewrite Hbind, countKeys_size.
      rewrite map_size_insert_None by apply lookup_empty.
      rewrite map_size_empty. reflexivity.
    + unfold valid_request in Hv. by rewrite Htrim in Hv.
    + exact Hl'.
    + done.
    + unfold binding. rewrite Hbind. apply lookup_empty.
    + rewrite Hbind, countKeys_size, map_size_empty. cbn [Limit stored].
      rewrite wrap_int_id by (unfold is_int, min_int, max_int; lia). lia.
Qed.

Lemma created_license_is_usable_witness :
  GetInfo Scenario.K Scenario.s0
  = Ok (mkLicenseInfo (mkLicense Scenario.K 2 "demo" true 100) 0 [])
  ∧ (Activate Scenario.K " dev-1 " 101 Scenario.s0).1 = admitted 1 2 true.
Proof.
  destruct (created_license_is_usable [] 2 "demo" (replicate 20 0%N) 100
              (mkLicense Scenario.K 2 "demo" true 100) Scenario.s0)
    as (_ & _ & H2 & H3).
  - reflexivity.
  - vm_compute. reflexivity.
  - split; [apply H2; vm_compute; reflexivity|]. apply H3.
    + vm_compute. discriminate.
    + vm_compute. discriminate.
Defined.

(* ===================================================================== *)
(** ** The activation endpoint *)
(* ===================================================================== *)

(** X12.  The endpoint writes only when it answers 200.  Whatever the
    method, the body and the database, a response with a status other
    than 200 leaves every binding and every license record as they were;
    a response with status 200 carries a verdict with ok=true, and what
    changed is the one binding of the trimmed license key and server id
    of the request. *)
Theorem handleActivate_writes_only_on_200 method decoded now s :
  let out := httpapi.handleActivate method decoded now s in
  licenses out.2 = licenses s
  ∧ (httpapi.Status out.1 ≠ 200 →
     ∀ k d, binding out.2 k d = binding s k d)
  ∧ (httpapi.Status out.1 = 200 →
     ∃ req r, method = "POST" ∧ decoded = Some req
       ∧ httpapi.Body out.1 = Some r ∧ OK r = true
       ∧ is_Some (binding out.2 (TrimSpace (httpapi.ReqLicense req))
                                (TrimSpace (httpapi.ReqServerID req)))
       ∧ ∀ k d, ¬ (k = TrimSpace (httpapi.ReqLicense req)
                   ∧ d = TrimSpace (httpapi.ReqServerID req)) →
                binding out.2 k d = binding s k d).
Proof.
  intros out. unfold out, httpapi.handleActivate.
  destruct (String.eqb_spec method "POST") as [->|Hm]; cbn [negb].
  2: { cbn [fst snd httpapi.Status]. split_and!; [done | done | done]. }
  destruct decoded as [[key serverID]|].
  2: { cbn [fst snd httpapi.Status]. split_and!; [done | done | done]. }
  cbn [httpapi.ReqLicense httpapi.ReqServerID].
  destruct (Activate_outcome key serverID now s)
    as [He | Hk Hd Hl | Hv Hn | lic Hv Hlic Hen | lic sb Hv Hlic Hen Hb
        | lic Hv Hlic Hen Hb Hc | lic Hv Hlic Hen Hb Hc];
    cbn [fst snd OK negb httpapi.Status httpapi.Body].
  1-4: split_and!; [done | done | done].
  - split_and!; [done | done |]. intros _.
    exists (httpapi.mkActivateReq key serverID). eexists.
    split_and!; [done | done | reflexivity | done | |].
    + cbn [httpapi.ReqLicense httpapi.ReqServerID].
      rewrite binding_with_binding. rewrite decide_True by done. eauto.
    + intros k d Hne. cbn [httpapi.ReqLicense httpapi.ReqServerID] in Hne.
      rewrite binding_with_binding. rewrite decide_False; [done|].
      intros [<- <-]. by apply Hne.
  - split_and!; [done | | done]. intros _ k d. apply binding_with_bucket.
  - split_and!; [done | done |]. intros _.
    exists (httpapi.mkActivateReq key serverID). eexists.
    split_and!; [done | done | reflexivity | done | |].
    + cbn [httpapi.ReqLicense httpapi.ReqServerID].
      rewrite binding_with_binding. rewrite decide_True by done. eauto.
    + intros k d Hne. cbn [httpapi.ReqLicense httpapi.ReqServerID] in Hne.
      rewrite binding_with_binding. rewrite decide_False; [done|].
      intros [<- <-]. by apply Hne.
Qed.

(** X13.  The status follows the verdict: a POST with a decodable body
    is answered 200 exactly when Activate answered ok=true and 403
    exactly when it answered ok=false, in both cases with the verdict as
    the body; any other method is answered 405 and an undecodable body
    400 with reason bad_json, both before the store is called. *)
Theorem handleActivate_status method decoded now s :
  let out := httpapi.handleActivate method decoded now s in
  (method ≠ "POST" → out = (httpapi.mkResponse 405 None, s))
  ∧ (method = "POST" → decoded = None →
     out = (httpapi.mkResponse 400
              (Some (mkActivateResult false "bad_json" 0 0 false)), s))
  ∧ (method = "POST" → ∀ req, decoded = Some req →
     ∃ r, (Activate (httpapi.ReqLicense req) (httpapi.ReqServerID req) now s).1 = Ok r
       ∧ httpapi.Body out.1 = Some r
       ∧ out.2 = (Activate (httpapi.ReqLicense req) (httpapi.ReqServerID req) now s).2
       ∧ httpapi.Status out.1 = (if OK r then 200 else 403)).
Proof.
  intros out. unfold out, httpapi.handleActivate. split_and!.
  - intros Hm. by destruct (String.eqb_spec method "POST").
  - intros -> ->. reflexivity.
  - intros -> [key serverID] ->. cbn [String.eqb negb Ascii.eqb].
    cbn [httpapi.ReqLicense httpapi.ReqServerID].
    destruct (Activate_outcome key serverID now s); cbn [fst snd];
      (eexists; split_and!; [reflexivity | reflexivity | reflexivity | reflexivity]).
Qed.

(* ===================================================================== *)
(** ** Enabling, disabling and the limit together *)
(* ===================================================================== *)

(** X14.  SetEnabled with an unknown key fails with errNotFound and
    writes nothing.  On a stored license it returns and stores the record
    with the enabled flag set as asked and nothing else changed, leaves
    every other record and every binding alone, and setting the flag to
    the value it has changes nothing at all. *)
Theorem SetEnabled_outcomes key enabled s :
  (licenses s !! key = None → SetEnabled key enabled s = (Err errNotFound, s))
  ∧ (wf_DB s → ∀ lic, licenses s !! key = Some lic →
     let out := SetEnabled key enabled s in
     out.1 = Ok (mkLicense (Key lic) (Limit lic) (Note lic) enabled (CreatedAt lic))
     ∧ licenses out.2 = <[key := set_enabled lic enabled]> (licenses s)
     ∧ usage out.2 = usage s
     ∧ (Enabled lic = enabled → out.2 = s)).
Proof.
  split.
  - intros Hnone. unfold SetEnabled, Bolt.Update, getLicense. by rewrite Hnone.
  - intros Hwf lic Hlic out. unfold out.
    rewrite (SetEnabled_found key enabled s lic) by done.
    cbn [fst snd licenses usage]. split_and!; try done.
    intros <-. rewrite set_enabled_same, insert_id by done. by destruct s.
Qed.

Lemma SetEnabled_outcomes_witness :
  (SetEnabled Scenario.K false Scenario.s2).1
  = Ok (mkLicense Scenario.K 2 "demo" false 100)
  ∧ SetEnabled Scenario.K true Scenario.s2
    = (Ok (mkLicense Scenario.K 2 "demo" true 100), Scenario.s2)
  ∧ SetEnabled "KYPAQET-NONE" true Scenario.s2 = (Err errNotFound, Scenario.s2).
Proof.
  split_and!.
  - destruct (proj2 (SetEnabled_outcomes Scenario.K false Scenario.s2))
      with (lic := mkLicense Scenario.K 2 "demo" true 100) as (H1 & _).
    + apply (bool_decide_unpack _). vm_compute. exact I.
    + vm_compute. reflexivity.
    + exact H1.
  - destruct (proj2 (SetEnabled_outcomes Scenario.K true Scenario.s2))
      with (lic := mkLicense Scenario.K 2 "demo" true 100) as (H1 & _ & _ & H4).
    + apply (bool_decide_unpack _). vm_compute. exact I.
    + vm_compute. reflexivity.
    + cbv zeta in H1, H4.
      destruct (SetEnabled Scenario.K true Scenario.s2) as [r s'].
      cbn [fst snd] in H1, H4. by rewrite H1, (H4 eq_refl).
  - apply (proj1 (SetEnabled_outcomes "KYPAQET-NONE" true Scenario.s2)).
    vm_compute. reflexivity.
Defined.

Lemma wf_DB_insert k lic s :
  wf_DB s → wf_license k lic → wf_DB (mkDB (<[k := lic]> (licenses s)) (usage s)).
Proof. intros Hwf Hk. unfold wf_DB. cbn [licenses]. by apply map_Forall_insert_2. Qed.

(** X15.  SetLimit and SetEnabled do not interfere: on licenses stored
    under their own keys, setting a limit and setting a flag, on the same
    license or on two, leave the same database whichever comes first. *)
Theorem SetLimit_SetEnabled_commute k1 limit k2 enabled s :
  wf_DB s →
  (SetEnabled k2 enabled (SetLimit k1 limit s).2).2
  = (SetLimit k1 limit (SetEnabled k2 enabled s).2).2.
Proof.
  intros Hwf.
  destruct (Z.le_gt_cases limit 0) as [Hle|Hpos].
  { unfold SetLimit. by destruct (Z.leb_spec limit 0); [|lia]. }
  destruct (licenses s !! k1) as [lic1|] eqn:H1;
    destruct (licenses s !! k2) as [lic2|] eqn:H2.
  - pose proof (Hwf k1 lic1 H1) as Hw1. pose proof (Hwf k2 lic2 H2) as Hw2.
    rewrite (SetLimit_found k1 limit s lic1) by done.
    rewrite (SetEnabled_found k2 enabled s lic2) by done. cbn [snd].
    assert (wf_license k1 (set_limit lic1 limit)) as Hw1'.
    { destruct Hw1 as (? & ? & ?). by split_and!. }
    assert (wf_license k2 (set_enabled lic2 enabled)) as Hw2'.
    { destruct Hw2 as (? & ? & ?). by split_and!. }
    destruct (decide (k1 = k2)) as [->|Hne].
    + assert (lic1 = lic2) as -> by congruence.
      rewrite (SetEnabled_found k2 enabled _ (set_limit lic2 limit));
        [| by apply wf_DB_insert | by cbn [licenses]; rewrite lookup_insert_eq].
      rewrite (SetLimit_found k2 limit _ (set_enabled lic2 enabled));
        [| done | by apply wf_DB_insert | by cbn [licenses]; rewrite lookup_insert_eq].
      cbn [snd licenses usage]. by rewrite !insert_insert_eq.
    + rewrite (SetEnabled_found k2 enabled _ lic2);
        [| by apply wf_DB_insert
         | by cbn [licenses]; rewrite lookup_insert_ne].
      rewrite (SetLimit_found k1 limit _ lic1);
        [| done | by apply wf_DB_insert
         | by cbn [licenses]; rewrite lookup_insert_ne].
      cbn [snd licenses usage]. by rewrite insert_insert_ne.
  - pose proof (Hwf k1 lic1 H1) as Hw1.
    rewrite (SetLimit_found k1 limit s lic1) by done. cbn [snd].
    assert (k1 ≠ k2) by congruence.
    assert (∀ s', licenses s' !! k2 = None → SetEnabled k2 enabled s' = (Err errNotFound, s'))
      as Hnf.
    { intros s' Hn. unfold SetEnabled, Bolt.Update, getLicense. by rewrite Hn. }
    rewrite (Hnf s H2). rewrite Hnf by (by cbn [licenses]; rewrite lookup_insert_ne).
    cbn [snd]. by rewrite (SetLimit_found k1 limit s lic1).
  - pose proof (Hwf k2 lic2 H2) as Hw2.
    rewrite (SetEnabled_found k2 enabled s lic2) by done. cbn [snd].
    assert (k2 ≠ k1) by congruence.
    assert (∀ s', licenses s' !! k1 = None → SetLimit k1 limit s' = (Err errNotFound, s'))
      as Hnf.
    { intros s' Hn. unfold SetLimit. destruct (Z.leb_spec limit 0); [lia|].
      unfold Bolt.Update, getLicense. by rewrite Hn. }
    rewrite (Hnf s H1). rewrite Hnf by (by cbn [licenses]; rewrite lookup_insert_ne).
    cbn [snd]. by rewrite (SetEnabled_found k2 enabled s lic2).
  - assert (SetLimit k1 limit s = (Err errNotFound, s)) as ->.
    { unfold SetLimit. destruct (Z.leb_spec limit 0); [lia|].
      unfold Bolt.Update, getLicense. by rewrite H1. }
    assert (SetEnabled k2 enabled s = (Err errNotFound, s)) as Hs.
    { unfold SetEnabled, Bolt.Update, getLicense. by rewrite H2. }
    cbn [snd]. rewrite Hs. cbn [snd].
    unfold SetLimit. destruct (Z.leb_spec limit 0); [lia|].
    unfold Bolt.Update, getLicense. by rewrite H1.
Qed.

Lemma SetLimit_SetEnabled_commute_witness :
  (SetEnabled Scenario.K false (SetLimit Scenario.K 9 Scenario.s2).2).2
  = (SetLimit Scenario.K 9 (SetEnabled Scenario.K false Scenario.s2).2).2.
Proof.
  apply (SetLimit_SetEnabled_commute Scenario.K 9 Scenario.K false Scenario.s2).
  apply (bool_decide_unpack _). vm_compute. exact I.
Defined.

(* ===================================================================== *)
(** ** The operator's bot *)
(* ===================================================================== *)

Lemma length_append (s1 s2 : string) :
  String.length (s1 ++ s2) = (String.length s1 + String.length s2)%nat.
Proof. induction s1 as [|c s1 IH]; simpl; [done | by rewrite IH]. Qed.

Lemma length_substring s : ∀ n m,
  (n + m <= String.length s)%nat → String.length (substring n m s) = m.
Proof.
  induction s as [|c s IH]; intros [|n] [|m] Hle; simpl in *; try lia.
  - rewrite IH; lia.
  - apply IH. lia.
  - apply IH. lia.
Qed.

(** X16.  The label shortKey makes is never longer than 19 bytes, and a
    key of at most 18 bytes, once trimmed, is its own label. *)
Theorem shortKey_bounded k :
  (String.length (telegram.shortKey k) <= 19)%nat
  ∧ ((String.length (TrimSpace k) <= 18)%nat → telegram.shortKey k = TrimSpace k).
Proof.
  unfold telegram.shortKey.
  destruct (Z.leb_spec (Z.of_nat (String.length (TrimSpace k))) 18) as [Hle|Hgt].
  - split; [lia | done].
  - split; [|lia].
    rewrite !length_append, !length_substring by lia. simpl. lia.
Qed.

(** X17.  The note safeNote shows is never empty and never longer than
    203 bytes; a note of 1 to 200 bytes, once trimmed, is shown as it
    is, and an empty one as a dash. *)
Theorem safeNote_bounded note :
  telegram.safeNote note ≠ ""
  ∧ (String.length (telegram.safeNote note) <= 203)%nat
  ∧ (TrimSpace note ≠ "" → (String.length (TrimSpace note) <= 200)%nat →
     telegram.safeNote note = TrimSpace note)
  ∧ (TrimSpace note = "" → telegram.safeNote note = "-").
Proof.
  unfold telegram.safeNote.
  destruct (String.eqb_spec (TrimSpace note) "") as [He|Hne].
  - split_and!; [done | simpl; lia | done | done].
  - destruct (Z.ltb_spec 200 (Z.of_nat (String.length (TrimSpace note)))) as [Hgt|Hle].
    + split_and!; [| | lia | done].
      * intros Heq. apply (f_equal String.length) in Heq.
        rewrite length_append, length_substring in Heq by lia. simpl in Heq. lia.
      * rewrite length_append, length_substring by lia. simpl. lia.
    + split_and!; [done | lia | done | done].
Qed.

Lemma cmdSetLimit_op chatID args s :
  (telegram.cmdSetLimit chatID args s).1 = s
  ∨ ∃ key limit, 0 < limit ∧ (telegram.cmdSetLimit chatID args s).1
                              = exec s (OpSetLimit key limit).
Proof.
  unfold telegram.cmdSetLimit.
  destruct args as [|key [|lim [|? ?]]]; try (by left).
  destruct (strconv.Atoi lim) as [limit|]; [|by left].
  destruct (Z.leb_spec limit 0); [by left|].
  right. exists key, limit. split; [done|].
  cbn [exec]. by destruct (SetLimit key limit s).1.
Qed.

Lemma cmdEnable_op chatID args enabled s :
  (telegram.cmdEnable chatID args enabled s).1 = s
  ∨ ∃ key, (telegram.cmdEnable chatID args enabled s).1
           = exec s (OpSetEnabled key enabled).
Proof.
  unfold telegram.cmdEnable.
  destruct args as [|key [|? ?]]; try (by left).
  right. exists key. cbn [exec]. by destruct (SetEnabled key enabled s).1.
Qed.

(** A message makes the bot call the store at most once, and never
    [Activate]. *)
Lemma handleMessage_op b rnd now chatID raw s :
  (telegram.handleMessage b rnd now chatID raw s).1.2 = s
  ∨ (chatID = telegram.adminChatID b
     ∧ ∃ o, (telegram.handleMessage b rnd now chatID raw s).1.2 = exec s o
         ∧ match o with
           | OpCreateLicense limit _ rnd' now' => 0 < limit ∧ rnd' = rnd ∧ now' = now
           | OpSetLimit _ limit => 0 < limit
           | OpSetEnabled _ _ => True
           | OpActivate _ _ _ => False
           end).
Proof.
  unfold telegram.handleMessage.
  destruct (String.eqb (TrimSpace raw) ""); [by left|].
  destruct (Z.eqb_spec chatID (telegram.adminChatID b)) as [Hadmin|Hother];
    [|by left].
  cbn [negb].
  destruct (_ || _); [by left|].
  destruct (telegram.getState b chatID); try (by left).
  - unfold telegram.handleNewLicenseInput.
    destruct (gostrings.Fields (TrimSpace raw)) as [|first rest]; [by left|].
    destruct (strconv.Atoi first) as [limit|]; [|by left].
    destruct (Z.leb_spec limit 0); [by left|].
    right. split; [done|].
    eexists (OpCreateLicense limit _ rnd now). cbn [exec].
    split; [|done]. by destruct (CreateLicense _ _ _ _ _).1.
  - unfold telegram.handleSetLimitInput.
    destruct (gostrings.Fields (TrimSpace raw)) as [|key [|lim [|? ?]]]; try (by left).
    destruct (strconv.Atoi lim) as [limit|] eqn:Hlim; [|by left].
    destruct (Z.leb_spec limit 0); [by left|]. cbn [fst snd].
    destruct (cmdSetLimit_op chatID [key; lim] s) as [Hs | (k & l & Hl & Hs)].
    + by left.
    + right. split; [done|]. by exists (OpSetLimit k l).
  - cbn [fst snd].
    destruct (cmdEnable_op chatID [TrimSpace raw] true s) as [Hs | (k & Hs)].
    + by left.
    + right. split; [done|]. by exists (OpSetEnabled k true).
  - cbn [fst snd].
    destruct (cmdEnable_op chatID [TrimSpace raw] false s) as [Hs | (k & Hs)].
    + by left.
    + right. split; [done|]. by exists (OpSetEnabled k false).
Qed.

Lemma handleCallback_db b chatID id raw s :
  (telegram.handleCallback b chatID id raw s).1.2 = s.
Proof.
  unfold telegram.handleCallback.
  repeat (match goal with |- context [if ?c then _ else _] => destruct c end;
          try reflexivity).
Qed.

Lemma exec_registry_bindings o s k d :
  match o with OpActivate _ _ _ => False | _ => True end →
  binding (exec s o) k d = binding s k d.
Proof.
  destruct o as [limit note rnd now | k0 limit | k0 enabled | k0 serverID now];
    cbn [exec]; intros Ho; [| | | done].
  - unfold binding. by rewrite CreateLicense_bindings_of.
  - unfold binding, bindings_of. by rewrite SetLimit_usage.
  - unfold binding, bindings_of. by rewrite SetEnabled_usage.
Qed.

(** X18.  Only the admin is served: a message or a button press from any
    other chat changes neither the database nor the bot's pending
    states, and is answered with the refusal alone. *)
Theorem only_admin_is_served b rnd now chatID raw id s :
  chatID ≠ telegram.adminChatID b →
  (telegram.handleMessage b rnd now chatID raw s
   = (b, s, if String.eqb (TrimSpace raw) "" then []
            else [telegram.reply chatID telegram.TxtAdminOnly]))
  ∧ telegram.handleCallback b chatID id raw s
    = (b, s, [telegram.AnswerCallback id telegram.TxtNoAccess]).
Proof.
  intros Hother. unfold telegram.handleMessage, telegram.handleCallback.
  destruct (Z.eqb_spec chatID (telegram.adminChatID b)); [done|]. cbn [negb].
  split; [|done]. by destruct (String.eqb (TrimSpace raw) "").
Qed.

Lemma only_admin_is_served_witness :
  telegram.handleMessage (telegram.mkBot 1 ∅) Scenario.rnd 100 2 "5 note" Scenario.s2
  = (telegram.mkBot 1 ∅, Scenario.s2, [telegram.reply 2 telegram.TxtAdminOnly]).
Proof.
  apply (proj1 (only_admin_is_served (telegram.mkBot 1 ∅) Scenario.rnd 100 2
                  "5 note" "cb" Scenario.s2 ltac:(simpl; lia))).
Defined.

(** X19.  The bot administers licenses and nothing else: a button press
    never writes to the database, and a message makes at most one call
    of CreateLicense, SetLimit or SetEnabled, with a limit above zero,
    so that no message and no button press ever creates, changes or
    removes a binding. *)
Theorem bot_leaves_the_ledger b rnd now chatID raw id s :
  (telegram.handleCallback b chatID id raw s).1.2 = s
  ∧ ((telegram.handleMessage b rnd now chatID raw s).1.2 = s
     ∨ ∃ o, (telegram.handleMessage b rnd now chatID raw s).1.2 = exec s o
         ∧ match o with
           | OpCreateLicense limit _ _ _ => 0 < limit
           | OpSetLimit _ limit => 0 < limit
           | OpSetEnabled _ _ => True
           | OpActivate _ _ _ => False
           end)
  ∧ ∀ k d, binding (telegram.handleMessage b rnd now chatID raw s).1.2 k d
           = binding s k d.
Proof.
  split_and!.
  - apply handleCallback_db.
  - destruct (handleMessage_op b rnd now chatID raw s) as [Hs | (_ & o & Ho & Hkind)].
    + by left.
    + right. exists o. split; [done|]. destruct o; tauto.
  - intros k d.
    destruct (handleMessage_op b rnd now chatID raw s) as [-> | (_ & o & -> & Hkind)].
    + done.
    + apply exec_registry_bindings. by destruct o.
Qed.

Lemma NewKey_last b :
  List.length b = 20%nat →
  ∃ key d r, license.NewKey (Ok b) = Ok key
    ∧ rev (Bytes.of_string key) = d :: r
    ∧ (d <? Utf8.RuneSelf)%N = true ∧ Utf8.asciiSpace d = false.
Proof.
  intros Hb. twenty_bytes b Hb.
  unfold license.NewKey. rewrite ToUpper_base32. unfold license.base32_encode.
  eexists. eexists. eexists. split; [reflexivity|]. split.
  - cbn -[license.quintet N.testbit ascii_of_N N_of_ascii]. reflexivity.
  - match goal with
    | |- context [license.quintet [?a; ?b; ?c; ?d; ?e]] =>
      by destruct (alphabet_plain _ (quintet5_alphabet a b c d e))
        as (H1 & H2 & H3 & ->)
    end.
Qed.

(** The callback data of a license button is left alone by the trimming
    of [handleCallback]. *)
Lemma info_data_plain b key :
  List.length b = 20%nat → license.NewKey (Ok b) = Ok key →
  TrimSpace ("info:" ++ key) = "info:" ++ key.
Proof.
  intros Hb Hkey.
  destruct (NewKey_last b Hb) as (key' & d & r & Hkey' & Hrev & Hd & Hds).
  rewrite Hkey in Hkey'. injection Hkey' as <-.
  unfold TrimSpace. rewrite <- (to_of_string ("info:" ++ key)) at 2. f_equal.
  rewrite of_string_app.
  change (Bytes.of_string "info:") with [105; 110; 102; 111; 58]%N.
  cbn [app].
  apply (trim_space_start_plain _ _ d (r ++ [58; 111; 102; 110; 105])%N%list);
    [| reflexivity | reflexivity | exact Hd | exact Hds].
  cbn [rev]. rewrite Hrev. cbn [app]. f_equal. by rewrite <- !app_assoc.
Qed.

Lemma TrimPrefix_info key : gostrings.TrimPrefix ("info:" ++ key) "info:" = key.
Proof.
  unfold gostrings.TrimPrefix, gostrings.HasPrefix.
  assert (String.prefix "info:" ("info:" ++ key) = true) as ->.
  { simpl. by destruct key. }
  simpl. replace (String.length key - 0)%nat with (String.length key) by lia.
  induction key as [|c key IH]; simpl; [done|]. f_equal.
  destruct key; [done|]. simpl in IH. exact IH.
Qed.

(** X20.  The button of a listed license leads back to it: for a license
    under a key NewKey made, the callback data cmdListWithButtons puts on
    its button makes handleCallback, for the admin, show the information
    of exactly that key and return the chat to the idle state, without a
    write to the database. *)
Theorem info_button_round_trip b id bytes it s :
  List.length bytes = 20%nat →
  license.NewKey (Ok bytes) = Ok (Key (InfoLicense it)) →
  Forall (fun btn =>
    telegram.handleCallback b (telegram.adminChatID b) id
                            (telegram.ButtonData btn) s
    = (telegram.setState b (telegram.adminChatID b) telegram.stateNone, s,
       (telegram.AnswerCallback id telegram.TxtEmpty
        :: telegram.cmdInfo (telegram.adminChatID b) [Key (InfoLicense it)] s
        ++ [telegram.sendMenu (telegram.adminChatID b) None])%list))
    (telegram.info_button it).
Proof.
  intros Hb Hkey. unfold telegram.info_button. apply Forall_singleton.
  cbn [telegram.ButtonData]. unfold telegram.handleCallback.
  rewrite Z.eqb_refl. cbn [negb]. cbv zeta.
  rewrite (info_data_plain bytes _ Hb Hkey).
  rewrite TrimPrefix_info.
  assert (gostrings.HasPrefix ("info:" ++ Key (InfoLicense it)) "info:" = true) as ->.
  { unfold gostrings.HasPrefix. simpl. by destruct (Key (InfoLicense it)). }
  reflexivity.
Qed.

Lemma info_button_round_trip_witness :
  telegram.handleCallback (telegram.mkBot 1 {[1 := telegram.stateAskSetLimit]}) 1 "cb"
    ("info:" ++ Scenario.K) Scenario.s2
  = (telegram.mkBot 1 ∅, Scenario.s2,
     [telegram.AnswerCallback "cb" telegram.TxtEmpty;
      telegram.reply 1
        (telegram.TxtInfo (mkLicense Scenario.K 2 "demo" true 100) 2 "demo"
           [mkServerBinding "B" 102 102 1; mkServerBinding "A" 101 101 1] 0);
      telegram.sendMenu 1 None]).
Proof.
  pose proof (info_button_round_trip
                (telegram.mkBot 1 {[1 := telegram.stateAskSetLimit]}) "cb"
                (replicate 20 0%N)
                (mkLicenseInfo (mkLicense Scenario.K 2 "demo" true 100) 2 [])
                Scenario.s2 eq_refl eq_refl) as H.
  unfold telegram.info_button in H. rewrite Forall_singleton in H.
  etransitivity; [exact H|]. vm_compute. reflexivity.
Defined.

(* ===================================================================== *)
(** ** The service as a whole *)
(* ===================================================================== *)

Lemma handleActivate_op method decoded now s :
  (httpapi.handleActivate method decoded now s).2 = s
  ∨ ∃ key serverID, (httpapi.handleActivate method decoded now s).2
                    = exec s (OpActivate key serverID now).
Proof.
  unfold httpapi.handleActivate.
  destruct (negb _); [by left|]. destruct decoded as [[key serverID]|]; [|by left].
  right. exists key, serverID. cbn [exec httpapi.ReqLicense httpapi.ReqServerID].
  by destruct (Activate key serverID now s).1.
Qed.

Lemma serve_op sv e :
  database (serve sv e) = database sv
  ∨ ∃ o, database (serve sv e) = exec (database sv) o.
Proof.
  destruct e as [chatID raw rnd now | chatID id raw | method decoded now];
    cbn [serve database].
  - destruct (handleMessage_op (bot sv) rnd now chatID raw (database sv))
      as [Hs | (_ & o & Ho & _)]; [by left | right; by exists o].
  - left. apply handleCallback_db.
  - destruct (handleActivate_op method decoded now (database sv))
      as [Hs | (k & d & Ho)]; [by left | right; by eexists].
Qed.

Lemma run_ops_snoc ops o s : run_ops (ops ++ [o]) s = exec (run_ops ops s) o.
Proof. unfold run_ops. by rewrite fold_left_app. Qed.

Lemma serve_all_ops events : ∀ sv ops0,
  database sv = run_ops ops0 empty_DB →
  ∃ ops, database (serve_all events sv) = run_ops ops empty_DB.
Proof.
  induction events as [|e rest IH]; intros sv ops0 Hsv; [by exists ops0|].
  cbn [serve_all fold_left]. destruct (serve_op sv e) as [Hs | (o & Ho)].
  - apply (IH _ ops0). by rewrite Hs.
  - apply (IH _ (ops0 ++ [o])%list). by rewrite Ho, run_ops_snoc, Hsv.
Qed.

(** X21.  Whatever reaches the service, through the bot or through the
    endpoint, its database is one the store operations reach from the
    empty database; so every license record sits under its own key with
    a limit above zero and its usage bucket, and every binding under a
    device id of 1 to 128 bytes, with that id as server_id: the id as
    the JSON document of the binding keeps it, which is the id itself
    whenever it is well-formed UTF-8. *)
Theorem service_keeps_store_invariants events b :
  let db := database (serve_all events (mkService b empty_DB)) in
  (∃ ops, db = run_ops ops empty_DB)
  ∧ (∀ k lic, licenses db !! k = Some lic →
       Key lic = k ∧ k ≠ "" ∧ 0 < Limit lic ∧ is_Some (usage db !! k))
  ∧ (∀ k d sb, binding db k d = Some sb →
       ServerID sb = json.round_trip d
       ∧ (json.round_trip d = d → ServerID sb = d)
       ∧ d ≠ "" ∧ Z.of_nat (String.length d) <= 128).
Proof.
  intros db.
  destruct (serve_all_ops events (mkService b empty_DB) [] eq_refl) as (ops & Hops).
  fold db in Hops.
  destruct (run_ops_store_inv ops empty_DB empty_DB_store_inv) as (Hwf & Hpos & Hm & Hled).
  rewrite <- Hops in Hwf, Hpos, Hm, Hled. split_and!.
  - by exists ops.
  - intros k lic Hk. destruct (Hwf k lic Hk) as (HK & Hne & _).
    split_and!; [done | done | exact (Hpos k lic Hk) |].
    apply elem_of_dom. rewrite Hm. apply elem_of_dom. eauto.
  - intros k d sb Hb.
    destruct (wf_ledger_lookup db k d sb Hled Hb) as (H1 & H2 & H3 & _).
    split_and!; [done | by intros <- | done | done].
Qed.

Lemma setState_dom b chatID st :
  telegram.adminChatID (telegram.setState b chatID st) = telegram.adminChatID b
  ∧ dom (telegram.states (telegram.setState b chatID st))
    ⊆ dom (telegram.states b) ∪ {[chatID]}.
Proof.
  destruct st; cbn [telegram.setState telegram.adminChatID telegram.states];
    (split; [done|]); rewrite ?dom_delete_L, ?dom_insert_L; set_solver.
Qed.

Lemma handleMessage_states b rnd now chatID raw s :
  let b' := (telegram.handleMessage b rnd now chatID raw s).1.1 in
  telegram.adminChatID b' = telegram.adminChatID b
  ∧ dom (telegram.states b') ⊆ dom (telegram.states b) ∪ {[telegram.adminChatID b]}.
Proof.
  unfold telegram.handleMessage.
  destruct (String.eqb (TrimSpace raw) ""); [cbn; set_solver|].
  destruct (Z.eqb_spec chatID (telegram.adminChatID b)) as [->|Hother];
    [|cbn; set_solver].
  cbn [negb].
  pose proof (setState_dom b (telegram.adminChatID b) telegram.stateNone) as Hset.
  destruct (_ || _); [exact Hset|].
  destruct (telegram.getState b (telegram.adminChatID b)); cbn [fst snd];
    try exact Hset; try (cbn; set_solver).
  - unfold telegram.handleNewLicenseInput.
    destruct (gostrings.Fields _) as [|first rest]; [cbn; set_solver|].
    destruct (strconv.Atoi first) as [limit|]; [|cbn; set_solver].
    destruct (limit <=? 0); [cbn; set_solver|].
    destruct (CreateLicense _ _ _ _ _).1; cbn [fst snd]; [exact Hset | set_solver].
  - unfold telegram.handleSetLimitInput.
    destruct (gostrings.Fields _) as [|key [|lim [|? ?]]]; try (cbn; set_solver).
    destruct (strconv.Atoi lim) as [limit|]; [|cbn; set_solver].
    destruct (limit <=? 0); [cbn; set_solver|]. exact Hset.
Qed.

Lemma handleCallback_states b chatID id raw s :
  let b' := (telegram.handleCallback b chatID id raw s).1.1 in
  telegram.adminChatID b' = telegram.adminChatID b
  ∧ dom (telegram.states b') ⊆ dom (telegram.states b) ∪ {[telegram.adminChatID b]}.
Proof.
  unfold telegram.handleCallback.
  destruct (Z.eqb_spec chatID (telegram.adminChatID b)) as [->|Hother];
    [|cbn; set_solver].
  cbn [negb]. cbv zeta.
  repeat (match goal with |- context [if ?c then _ else _] => destruct c end;
          try apply setState_dom).
  cbn. set_solver.
Qed.

Lemma serve_states sv e :
  telegram.adminChatID (bot (serve sv e)) = telegram.adminChatID (bot sv)
  ∧ dom (telegram.states (bot (serve sv e)))
    ⊆ dom (telegram.states (bot sv)) ∪ {[telegram.adminChatID (bot sv)]}.
Proof.
  destruct e as [chatID raw rnd now | chatID id raw | method decoded now];
    cbn [serve bot].
  - apply handleMessage_states.
  - apply handleCallback_states.
  - split; [done | set_solver].
Qed.

(** X22.  Only the admin's chat ever has a pending state: over whatever
    reaches the service, the bot keeps its admin, and a chat that had no
    pending state and is not the admin's never gets one. *)
Theorem pending_states_are_the_admins events sv :
  telegram.adminChatID (bot (serve_all events sv)) = telegram.adminChatID (bot sv)
  ∧ ∀ chatID, chatID ≠ telegram.adminChatID (bot sv) →
      telegram.states (bot sv) !! chatID = None →
      telegram.getState (bot (serve_all events sv)) chatID = telegram.stateNone.
Proof.
  assert (telegram.adminChatID (bot (serve_all events sv))
          = telegram.adminChatID (bot sv)
          ∧ dom (telegram.states (bot (serve_all events sv)))
            ⊆ dom (telegram.states (bot sv)) ∪ {[telegram.adminChatID (bot sv)]})
    as [Hadmin Hdom].
  { revert sv. induction events as [|e rest IH]; intros sv; [set_solver|].
    cbn [serve_all fold_left]. destruct (IH (serve sv e)) as [H1 H2].
    destruct (serve_states sv e) as [H3 H4]. fold (serve_all rest (serve sv e)) in *.
    split; [congruence|]. rewrite H3 in H2. set_solver. }
  split; [exact Hadmin|]. intros chatID Hother Hnone.
  unfold telegram.getState.
  assert (chatID ∉ dom (telegram.states (bot (serve_all events sv)))) as Hnot.
  { intros Hin. apply Hdom in Hin. apply elem_of_union in Hin as [Hin|Hin].
    - by apply not_elem_of_dom in Hnone.
    - apply elem_of_singleton in Hin. done. }
  apply not_elem_of_dom in Hnot. by rewrite Hnot.
Qed.

Lemma pending_states_are_the_admins_witness :
  telegram.getState
    (bot (serve_all [EvCallback 7 "cb" "new"; EvMessage 7 "5 x" Scenario.rnd 100;
                     EvCallback 1 "cb" "new"]
            (mkService (telegram.mkBot 1 ∅) empty_DB))) 7
  = telegram.stateNone.
Proof.
  apply (proj2 (pending_states_are_the_admins
                  [EvCallback 7 "cb" "new"; EvMessage 7 "5 x" Scenario.rnd 100;
                   EvCallback 1 "cb" "new"]
                  (mkService (telegram.mkBot 1 ∅) empty_DB))).
  - simpl. lia.
  - reflexivity.
Defined.

(* ===================================================================== *)
(** ** More on Activate *)
(* ===================================================================== *)

(** X23.  On valid arguments Activate answers not_found exactly when no
    license is stored under the trimmed key; the verdict then carries
    used = 0 and limit = 0 and the database is left as it was. *)
Theorem Activate_not_found key serverID now s :
  valid_request key serverID →
  (licenses s !! TrimSpace key = None →
   Activate key serverID now s
   = (Ok (mkActivateResult false "not_found" 0 0 false), s))
  ∧ (∀ r, (Activate key serverID now s).1 = Ok r → Reason r = "not_found" →
          licenses s !! TrimSpace key = None).
Proof.
  intros Hv. split.
  - intros Hnone. rewrite Activate_valid by done.
    unfold Bolt.Update, activate_tx, getLicense. by rewrite Hnone.
  - intros r.
    destruct (Activate_outcome key serverID now s)
      as [He | Hk Hd Hl | Hv' Hn | lic Hv' Hlic Hen | lic sb Hv' Hlic Hen Hb
          | lic Hv' Hlic Hen Hb Hc | lic Hv' Hlic Hen Hb Hc]; cbn [fst];
      intros [= <-]; cbn [Reason]; try discriminate; done.
Qed.

Lemma Activate_not_found_witness :
  Activate "KYPAQET-NONE" "A" 5 Scenario.s2
  = (Ok (mkActivateResult false "not_found" 0 0 false), Scenario.s2).
Proof.
  apply (proj1 (Activate_not_found "KYPAQET-NONE" "A" 5 Scenario.s2
                  ltac:(apply (bool_decide_unpack _); vm_compute; exact I))).
  vm_compute. reflexivity.
Defined.

Lemma GetInfo_found key s lic :
  licenses s !! key = Some lic →
  ∃ bs, GetInfo key s = Ok (mkLicenseInfo lic (Z.of_nat (bound_count s key)) bs)
    ∧ ∀ d sb, binding s key d = Some sb → keyed (d, sb) ∈ bs.
Proof.
  intros Hlic. destruct (getBindings_found s key) as (bs & Hget & Hperm & _).
  exists bs. split.
  - unfold GetInfo, Bolt.View, getLicense. rewrite Hlic, Hget. do 3 f_equal.
    by rewrite Hperm, length_map, length_map_to_list.
  - intros d sb Hb. rewrite Hperm. apply list_elem_of_In, in_map_iff.
    exists (d, sb). split; [done|]. by apply list_elem_of_In, elem_of_map_to_list.
Qed.

(** X24.  Activate and GetInfo agree: right after an Activate answered
    ok=true, GetInfo on the trimmed key shows the license enabled, with
    the limit and the Used count of the verdict (while the count is a Go
    int), and lists the device with last_seen equal to the clock reading
    of the call. *)
Theorem Activate_then_GetInfo key serverID now s r :
  (Activate key serverID now s).1 = Ok r →
  OK r = true →
  Z.of_nat (bound_count (Activate key serverID now s).2 (TrimSpace key)) <= max_int →
  ∃ info sb, GetInfo (TrimSpace key) (Activate key serverID now s).2 = Ok info
    ∧ Enabled (InfoLicense info) = true
    ∧ Limit (InfoLicense info) = ResLimit r
    ∧ InfoUsed info = Used r
    ∧ sb ∈ Bindings info
    ∧ ServerID sb = TrimSpace serverID ∧ LastSeen sb = now.
Proof.
  destruct (Activate_outcome key serverID now s)
    as [He | Hk Hd Hl | Hv Hn | lic Hv Hlic Hen | lic sb Hv Hlic Hen Hb
        | lic Hv Hlic Hen Hb Hc | lic Hv Hlic Hen Hb Hc]; cbn [fst snd];
    intros [= <-]; cbn [OK]; try discriminate; intros _ Hint.
  - set (s' := with_binding s (TrimSpace key) (TrimSpace serverID) (refreshed sb now)) in *.
    destruct (GetInfo_found (TrimSpace key) s' lic Hlic) as (bs & Hget & Hin).
    exists (mkLicenseInfo lic (Z.of_nat (bound_count s' (TrimSpace key))) bs),
           (keyed (TrimSpace serverID, refreshed sb now)).
    split_and!; [exact Hget | done | done | | | done | done].
    + cbn [InfoUsed Used]. rewrite countKeys_small.
      * f_equal. unfold bound_count, s'.
        rewrite bindings_of_with_binding, decide_True by done.
        apply map_size_insert_Some. eauto.
      * unfold bound_count, s' in Hint.
        rewrite bindings_of_with_binding, decide_True in Hint by done.
        rewrite map_size_insert_Some in Hint by eauto. exact Hint.
    + cbn [Bindings]. apply Hin. unfold s'. rewrite binding_with_binding.
      by rewrite decide_True.
  - set (s' := with_binding s (TrimSpace key) (TrimSpace serverID)
                 (fresh_binding (TrimSpace serverID) now)) in *.
    destruct (GetInfo_found (TrimSpace key) s' lic Hlic) as (bs & Hget & Hin).
    exists (mkLicenseInfo lic (Z.of_nat (bound_count s' (TrimSpace key))) bs),
           (keyed (TrimSpace serverID, fresh_binding (TrimSpace serverID) now)).
    split_and!; [exact Hget | done | done | | | done | done].
    + cbn [InfoUsed Used]. unfold bound_count, s' in *.
      rewrite bindings_of_with_binding, decide_True in * by done.
      by rewrite countKeys_small.
    + cbn [Bindings]. apply Hin. unfold s'. rewrite binding_with_binding.
      by rewrite decide_True.
Qed.

Lemma Activate_then_GetInfo_witness :
  ∃ info sb, GetInfo Scenario.K Scenario.s4 = Ok info
    ∧ InfoUsed info = 2 ∧ sb ∈ Bindings info
    ∧ ServerID sb = "A" ∧ LastSeen sb = 104.
Proof.
  destruct (Activate_then_GetInfo Scenario.K " A " 104 Scenario.s3
              (mkActivateResult true "ok" 2 2 false))
    as (info & sb & H1 & _ & _ & H4 & H5 & H6 & H7).
  - vm_compute. reflexivity.
  - reflexivity.
  - vm_compute. discriminate.
  - exists info, sb. split_and!; [exact H1 | exact H4 | exact H5 | exact H6 | exact H7].
Defined.

(* ===================================================================== *)
(** ** Licenses do not interfere *)
(* ===================================================================== *)

Lemma Activate_other_bindings key serverID now s k' :
  TrimSpace key ≠ k' →
  bindings_of (Activate key serverID now s).2 k' = bindings_of s k'.
Proof.
  intros Hne.
  destruct (Activate_outcome key serverID now s)
    as [He | Hk Hd Hl | Hv Hn | lic Hv Hlic Hen | lic sb Hv Hlic Hen Hb
        | lic Hv Hlic Hen Hb Hc | lic Hv Hlic Hen Hb Hc]; cbn [snd]; try done.
  - rewrite bindings_of_with_binding. by rewrite decide_False.
  - apply bindings_of_with_bucket.
  - rewrite bindings_of_with_binding. by rewrite decide_False.
Qed.

(** The verdict is a function of the license record and of the
    license's own bucket. *)
Lemma Activate_verdict_local key serverID now s s' :
  licenses s' !! TrimSpace key = licenses s !! TrimSpace key →
  bindings_of s' (TrimSpace key) = bindings_of s (TrimSpace key) →
  (Activate key serverID now s').1 = (Activate key serverID now s).1.
Proof.
  intros Hl Hu.
  destruct (Activate_outcome key serverID now s)
    as [He | Hk Hd Hlen | Hv Hn | lic Hv Hlic Hen | lic sb Hv Hlic Hen Hb
        | lic Hv Hlic Hen Hb Hc | lic Hv Hlic Hen Hb Hc]; cbn [fst].
  - unfold Activate, validate. by rewrite decide_True.
  - unfold Activate, validate. rewrite decide_False by tauto.
    by destruct (Z.ltb_spec 128 (Z.of_nat (String.length (TrimSpace serverID))));
      [|lia].
  - rewrite Activate_valid by done.
    unfold Bolt.Update, activate_tx, getLicense. by rewrite Hl, Hn.
  - rewrite <- Hl in Hlic. by rewrite (Activate_disabled key serverID now s' lic).
  - rewrite <- Hl in Hlic. unfold binding in Hb. rewrite <- Hu in Hb.
    rewrite (Activate_refresh key serverID now s' lic sb) by done.
    cbn [fst]. unfold admitted. by rewrite Hu.
  - rewrite <- Hl in Hlic. unfold binding in Hb. rewrite <- Hu in Hb, Hc.
    rewrite Activate_valid by done.
    rewrite (tx_full _ _ now s' lic Hv Hlic Hen Hb Hc). cbn [fst]. by rewrite Hu.
  - rewrite <- Hl in Hlic. unfold binding in Hb. rewrite <- Hu in Hb, Hc.
    rewrite Activate_valid by done.
    rewrite (tx_admit _ _ now s' lic Hv Hlic Hen Hb Hc). cbn [fst]. by rewrite Hu.
Qed.

(** X25.  Licenses are isolated from each other: an Activate call on one
    license changes no binding of another license and does not change
    the verdict of an Activate call on another license that follows it. *)
Theorem licenses_are_isolated key1 id1 now1 key2 id2 now2 s :
  TrimSpace key1 ≠ TrimSpace key2 →
  (∀ d, binding (Activate key1 id1 now1 s).2 (TrimSpace key2) d
        = binding s (TrimSpace key2) d)
  ∧ (Activate key2 id2 now2 (Activate key1 id1 now1 s).2).1
    = (Activate key2 id2 now2 s).1.
Proof.
  intros Hne. split.
  - intros d. unfold binding. by rewrite Activate_other_bindings.
  - apply Activate_verdict_local.
    + by rewrite Activate_licenses.
    + by apply Activate_other_bindings.
Qed.

Lemma licenses_are_isolated_witness :
  (Activate Scenario.K "C" 9 (Activate "KYPAQET-OTHER" "C" 8 Scenario.s1).2).1
  = admitted 2 2 true.
Proof.
  rewrite (proj2 (licenses_are_isolated "KYPAQET-OTHER" "C" 8 Scenario.K "C" 9
                    Scenario.s1 ltac:(vm_compute; discriminate))).
  vm_compute. reflexivity.
Defined.
